(** * App Connector (package appc): DNS-driven route advertisement

    A shallow embedding of [appc.AppConnector] and of the operations on it:
    [updateDomains], [updateRoutes], [ObserveDNSResponse],
    [findRoutedDomainLocked], [isAddrKnownLocked], the scheduled
    advertise/unadvertise tasks and the sorted per-domain address lists.

    Go maps are [gmap]s, slices are lists, the mutex-protected fields are a
    record threaded through every operation, and the [RouteAdvertiser]
    collaborator is a store plus a log of the calls made to it. *)

From Stdlib Require Import ZArith NArith Ascii String List Lia Bool.
From stdpp Require Import base tactics option list sorting gmap strings fin_maps.

Local Open Scope Z_scope.

(** ** net/netip *)
Module netip.

(** [netip.Addr]: the zero value, an IPv4 address or an IPv6 address.  Zones
    are left out: every address here comes from [AddrFrom4]/[AddrFrom16] or
    out of a [Prefix], none of which carries a zone. *)
Inductive Addr : Type :=
| AddrZero
| IPv4 (v : N)
| IPv6 (v : N).

Definition BitLen (ip : Addr) : Z :=
  match ip with
  | AddrZero => 0
  | IPv4 _ => 32
  | IPv6 _ => 128
  end.

Definition bitsOf (ip : Addr) : N :=
  match ip with
  | AddrZero => 0%N
  | IPv4 v => v
  | IPv6 v => v
  end.

Definition AddrFrom4 (v : N) : Addr := IPv4 v.
Definition AddrFrom16 (v : N) : Addr := IPv6 v.

(** [Addr.Compare]: by bit length first, then by value. *)
Definition Compare (ip ip2 : Addr) : Z :=
  let f1 := BitLen ip in
  let f2 := BitLen ip2 in
  if f1 <? f2 then -1
  else if f2 <? f1 then 1
  else if (bitsOf ip <? bitsOf ip2)%N then -1
  else if (bitsOf ip2 <? bitsOf ip)%N then 1
  else 0.

Definition Addr_eqb (a b : Addr) : bool :=
  match a, b with
  | AddrZero, AddrZero => true
  | IPv4 x, IPv4 y => (x =? y)%N
  | IPv6 x, IPv6 y => (x =? y)%N
  | _, _ => false
  end.

(** [netip.Prefix]; [Bits] is -1 for the invalid prefix, as [Prefix.Bits]
    reports it. *)
Record Prefix : Type := mkPrefix { Addr_of : Addr; Bits : Z }.

Definition invalidPrefix : Prefix := mkPrefix AddrZero (-1).

Definition IsValid (p : Prefix) : bool := 0 <=? Bits p.

(** [PrefixFrom] keeps the host bits; out-of-range lengths give the invalid
    prefix. *)
Definition PrefixFrom (ip : Addr) (bits : Z) : Prefix :=
  if (bits <? 0) || (BitLen ip <? bits) then mkPrefix ip (-1)
  else mkPrefix ip bits.

Definition Prefix_eqb (p q : Prefix) : bool :=
  Addr_eqb (Addr_of p) (Addr_of q) && (Bits p =? Bits q).

Definition mask6 (n : Z) : N :=
  N.shiftl (N.ones (Z.to_N n)) (Z.to_N (128 - n)).

(** [Prefix.Contains] *)
Definition Contains (p : Prefix) (ip : Addr) : bool :=
  if negb (IsValid p) then false
  else
    let f1 := BitLen (Addr_of p) in
    let f2 := BitLen ip in
    if (f1 =? 0) || (f2 =? 0) || negb (f1 =? f2) then false
    else
      match ip with
      | IPv4 lo =>
          (N.land (N.shiftr (N.lxor lo (bitsOf (Addr_of p)))
                            (Z.to_N (Z.land (32 - Bits p) 63)))
                  (N.ones 32) =? 0)%N
      | _ =>
          (N.land (N.lxor (bitsOf ip) (bitsOf (Addr_of p))) (mask6 (Bits p)) =? 0)%N
      end.

Definition IsSingleIP (p : Prefix) : bool :=
  IsValid p && (Bits p =? BitLen (Addr_of p)).

#[global] Instance Addr_eq_dec : EqDecision Addr.
Proof. solve_decision. Defined.

#[global] Instance Prefix_eq_dec : EqDecision Prefix.
Proof. solve_decision. Defined.

End netip.
Export netip.

(** ** slices *)
Module slices.

Section generic.
Context {E T : Type}.

(** The loop of [BinarySearchFunc]: [i], [j] are the bounds, [fuel] bounds
    the number of iterations. *)
Fixpoint bsearchLoop (cmp : E → T → Z) (x : list E) (target : T)
         (fuel : nat) (i j : nat) : nat :=
  match fuel with
  | O => i
  | S fuel' =>
      if (i <? j)%nat then
        let h := ((i + j) / 2)%nat in
        match x !! h with
        | Some e =>
            if cmp e target <? 0
            then bsearchLoop cmp x target fuel' (h + 1)%nat j
            else bsearchLoop cmp x target fuel' i h
        | None => i
        end
      else i
  end.

(** [slices.BinarySearchFunc] *)
Definition BinarySearchFunc (x : list E) (target : T) (cmp : E → T → Z)
  : nat * bool :=
  let n := length x in
  let i := bsearchLoop cmp x target n 0%nat n in
  (i, match x !! i with
      | Some e => (i <? n)%nat && (cmp e target =? 0)
      | None => false
      end).
End generic.

(** [slices.Delete(s, i, j)] *)
Definition Delete {E} (s : list E) (i j : nat) : list E :=
  take i s ++ drop j s.

(** [slices.SortFunc]: the slice in ascending order of [cmp]. *)
Definition cmpLe {E} (cmp : E → E → Z) : relation E :=
  λ a b, cmp a b <= 0.

#[global] Instance cmpLe_dec {E} (cmp : E → E → Z) : RelDecision (cmpLe cmp).
Proof. intros a b. unfold cmpLe. apply Z.le_dec. Defined.

Definition SortFunc {E} (x : list E) (cmp : E → E → Z)
  : list E :=
  merge_sort (cmpLe cmp) x.

(** [slices.Contains] and [slices.Equal] on prefixes. *)
Definition Contains (s : list Prefix) (v : Prefix) : bool :=
  existsb (Prefix_eqb v) s.

Fixpoint Equal (s1 s2 : list Prefix) : bool :=
  match s1, s2 with
  | [], [] => true
  | a :: s1', b :: s2' => Prefix_eqb a b && Equal s1' s2'
  | _, _ => false
  end.

End slices.

(** ** strings *)
Module strs.

Definition lowerAscii (c : ascii) : ascii :=
  let n := N_of_ascii c in
  if ((65 <=? n) && (n <=? 90))%N then ascii_of_N (n + 32) else c.

(** The test [strings.ToLower] makes first: no byte of [s] is
    [utf8.RuneSelf] (0x80) or above. *)
Fixpoint isASCII (s : string) : bool :=
  match s with
  | EmptyString => true
  | String c s' => (N_of_ascii c <? 128)%N && isASCII s'
  end.

(** [strings.ToLower] on a string of ASCII bytes, where it maps [A]-[Z] to
    [a]-[z] byte by byte.  On other strings the Go function lower-cases by
    Unicode code point, which this definition does not follow: the
    statements that depend on the lower-cased form of a name assume
    [isASCII] of the name. *)
Fixpoint ToLower (s : string) : string :=
  match s with
  | EmptyString => EmptyString
  | String c s' => String (lowerAscii c) (ToLower s')
  end.

Definition HasPrefix (s p : string) : bool := String.prefix p s.

(** [s[n:]] *)
Fixpoint dropStr (n : nat) (s : string) : string :=
  match n, s with
  | O, _ => s
  | S n', String _ s' => dropStr n' s'
  | S _, EmptyString => EmptyString
  end.

Definition HasSuffix (s suf : string) : bool :=
  (String.length suf <=? String.length s)%nat
  && String.eqb (dropStr (String.length s - String.length suf) s) suf.

Definition takeStr (n : nat) (s : string) : string := String.substring 0 n s.

Definition TrimSuffix (s suf : string) : string :=
  if HasSuffix s suf then takeStr (String.length s - String.length suf) s else s.

Definition TrimPrefix (s p : string) : string :=
  if HasPrefix s p then dropStr (String.length p) s else s.

End strs.

(** ** golang.org/x/net/dns/dnsmessage, as [ObserveDNSResponse] uses it *)
Module dnsmessage.

Definition ClassINET : N := 1.
Definition TypeA : N := 1.
Definition TypeCNAME : N := 5.
Definition TypeAAAA : N := 28.

(** [ResourceHeader], with [hName] the result of [Name.String()]. *)
Record ResourceHeader : Type :=
  mkHeader { hName : string; hType : N; hClass : N; hLength : N }.

(** Result of [Parser.AnswerHeader]. *)
Inductive HeaderResult (P : Type) : Type :=
| ErrSectionDone
| HeaderErr
| HeaderOk (h : ResourceHeader) (p : P).
Arguments ErrSectionDone {P}.
Arguments HeaderErr {P}.
Arguments HeaderOk {P} h p.

(** The methods of [dnsmessage.Parser] that the connector calls.  [None] is
    a non-nil error; a successful call returns the advanced parser. *)
Class ParserOps : Type := {
  Parser : Type;
  Start : list Byte.byte → option Parser;
  SkipAllQuestions : Parser → option Parser;
  AnswerHeader : Parser → HeaderResult Parser;
  SkipAnswer : Parser → option Parser;
  CNAMEResource : Parser → option (string * Parser);
  AResource : Parser → option (N * Parser);
  AAAAResource : Parser → option (N * Parser)
}.

End dnsmessage.
Export dnsmessage.

(** ** ipn.RouteInfo and the RouteAdvertiser collaborator *)

(** [ipn.RouteInfo]: the operator prefixes and, per domain, a pointer to the
    discovered-route record ([None] is the nil pointer). *)
Record RouteInfo (DatedRoute : Type) : Type := mkRouteInfo {
  Corp : list Prefix;
  Discovered : gmap string (option DatedRoute)
}.
Arguments mkRouteInfo {DatedRoute} Corp Discovered.
Arguments Corp {DatedRoute} r.
Arguments Discovered {DatedRoute} r.

(** Calls received by the [RouteAdvertiser]. *)
Inductive Call (DatedRoute : Type) : Type :=
| CallAdvertiseRoute (routes : list Prefix)
| CallUnadvertiseRoute (routes : list Prefix)
| CallReadRouteInfoFromStore
| CallUpdateRoutesInfoToStore (ri : RouteInfo DatedRoute).
Arguments CallAdvertiseRoute {DatedRoute} routes.
Arguments CallUnadvertiseRoute {DatedRoute} routes.
Arguments CallReadRouteInfoFromStore {DatedRoute}.
Arguments CallUpdateRoutesInfoToStore {DatedRoute} ri.

(** What the package takes from the rest of the repository and from its
    environment: [ipn.DatedRoute] and the two [ipn.RouteInfo] methods,
    [dnsname.HasSuffix], the wall clock read by the [ipn] methods, the
    outcome (error or not) of each advertise and unadvertise call given the
    calls made so far, and the order in which a [range] over [e.domains]
    visits the entries: Go leaves it unspecified, so it is any arrangement
    of the entries, chosen anew for each range (told apart by the calls
    made so far and by the count of the ranges since). *)
Class Externals : Type := {
  DatedRoute : Type;
  Time : Type;
  dnsname_HasSuffix : string → string → bool;
  UpdateRoutesInDiscoveredForDomain :
    Time → string → list Prefix → RouteInfo DatedRoute → RouteInfo DatedRoute;
  OutDatedRoutesInDiscoveredForDomain :
    Time → string → RouteInfo DatedRoute → RouteInfo DatedRoute * list Prefix;
  advertiseFails : list (Call DatedRoute) → list Prefix → bool;
  unadvertiseFails : list (Call DatedRoute) → list Prefix → bool;
  rangeOrder :
    list (Call DatedRoute) → nat → list (string * list Addr)
    → list (string * list Addr);
  rangeOrder_perm : ∀ seed i kvs, rangeOrder seed i kvs ≡ₚ kvs
}.

Section appc.
Context `{Ext : Externals} `{DNS : ParserOps}.

(** Modelled from the spec: the [RouteAdvertiser] implementation is outside
    the package.  [ReadRouteInfoFromStore] returns the latest snapshot,
    [UpdateRoutesInfoToStore] replaces it, and every call is logged in
    order ([calls], oldest first). *)
Record Advertiser : Type := mkAdvertiser {
  store : RouteInfo DatedRoute;
  calls : list (Call DatedRoute)
}.

Definition AdvertiseRoute (routes : list Prefix) (ra : Advertiser)
  : bool * Advertiser :=
  (advertiseFails (calls ra) routes,
   mkAdvertiser (store ra) (calls ra ++ [CallAdvertiseRoute routes])).

Definition UnadvertiseRoute (routes : list Prefix) (ra : Advertiser)
  : bool * Advertiser :=
  (unadvertiseFails (calls ra) routes,
   mkAdvertiser (store ra) (calls ra ++ [CallUnadvertiseRoute routes])).

Definition ReadRouteInfoFromStore (ra : Advertiser)
  : RouteInfo DatedRoute * Advertiser :=
  (store ra, mkAdvertiser (store ra) (calls ra ++ [CallReadRouteInfoFromStore])).

Definition UpdateRoutesInfoToStore (ri : RouteInfo DatedRoute) (ra : Advertiser)
  : Advertiser :=
  mkAdvertiser ri (calls ra ++ [CallUpdateRoutesInfoToStore ri]).

(** Closures handed to the [execqueue.ExecQueue]. *)
Inductive Task : Type :=
| TaskUpdateDomainsAndRoutes (domains : list string) (routes : list Prefix)
| TaskUpdateDomains (domains : list string)
| TaskAdvertise (domain : string) (routes : list Prefix)
| TaskUnadvertise (domain : string) (routes : list Prefix).

(** The second half of a scheduled advertise/unadvertise task: the part
    that runs under [e.mu] once the collaborator call has succeeded. *)
Inductive Locked : Type :=
| LockedAdd (domain : string) (routes : list Prefix)
| LockedDelete (domain : string) (routes : list Prefix).

(** [AppConnector]: the fields guarded by [mu], the collaborator, the queue
    of pending tasks (head first) and the worker's position inside the
    task it is running. *)
Record AppConnector : Type := mkAppConnector {
  routeAdvertiser : Advertiser;
  domains : gmap string (list Addr);
  controlRoutes : list Prefix;
  wildcards : list string;
  queue : list Task;
  inflight : option Locked
}.

Definition set_routeAdvertiser (ra : Advertiser) (e : AppConnector) :=
  mkAppConnector ra (domains e) (controlRoutes e) (wildcards e) (queue e) (inflight e).
Definition set_domains (d : gmap string (list Addr)) (e : AppConnector) :=
  mkAppConnector (routeAdvertiser e) d (controlRoutes e) (wildcards e) (queue e) (inflight e).
Definition set_controlRoutes (r : list Prefix) (e : AppConnector) :=
  mkAppConnector (routeAdvertiser e) (domains e) r (wildcards e) (queue e) (inflight e).
Definition set_wildcards (w : list string) (e : AppConnector) :=
  mkAppConnector (routeAdvertiser e) (domains e) (controlRoutes e) w (queue e) (inflight e).
Definition set_queue (q : list Task) (e : AppConnector) :=
  mkAppConnector (routeAdvertiser e) (domains e) (controlRoutes e) (wildcards e) q (inflight e).
Definition set_inflight (l : option Locked) (e : AppConnector) :=
  mkAppConnector (routeAdvertiser e) (domains e) (controlRoutes e) (wildcards e) (queue e) l.

(** [e.queue.Add] *)
Definition queueAdd (t : Task) (e : AppConnector) : AppConnector :=
  set_queue (queue e ++ [t]) e.

(** [NewAppConnector] *)
Definition NewAppConnector (ra : Advertiser) : AppConnector :=
  mkAppConnector ra ∅ [] [] [] None.

(** *** The sorted per-domain address lists *)

Definition compareAddr (l r : Addr) : Z := Compare l r.

(** [e.domains[domain]]: the nil slice when the key is absent. *)
Definition domainAddrs (domain : string) (e : AppConnector) : list Addr :=
  default [] (domains e !! domain).

Definition hasDomainAddrLocked (domain : string) (addr : Addr)
           (e : AppConnector) : bool :=
  (slices.BinarySearchFunc (domainAddrs domain e) addr compareAddr).2.

Definition addDomainAddrLocked (domain : string) (addr : Addr)
           (e : AppConnector) : AppConnector :=
  let e1 := set_domains (<[domain := domainAddrs domain e ++ [addr]]> (domains e)) e in
  set_domains (<[domain := slices.SortFunc (domainAddrs domain e1) compareAddr]>
                 (domains e1)) e1.

Definition deleteDomainAddrLocked (domain : string) (addr : Addr)
           (e : AppConnector) : AppConnector :=
  let '(ind, ok) := slices.BinarySearchFunc (domainAddrs domain e) addr compareAddr in
  if negb ok then e
  else
    let e1 := set_domains
                (<[domain := slices.Delete (domainAddrs domain e) ind (ind + 1)]>
                   (domains e)) e in
    set_domains (<[domain := slices.SortFunc (domainAddrs domain e1) compareAddr]>
                   (domains e1)) e1.

(** *** updateDomains *)

(** State of the first loop of [updateDomains]: the maps under
    construction, what is left of the old ones, and [e.wildcards]. *)
Record DomainsLoop : Type := mkDomainsLoop {
  newDomains : gmap string (list Addr);
  newDiscovered : gmap string (option DatedRoute);
  oldDomains : gmap string (list Addr);
  oldDiscovered : gmap string (option DatedRoute);
  newWildcards : list string
}.

(** One iteration of [for _, d := range domains]. *)
Definition domainsStep (st : DomainsLoop) (d : string) : DomainsLoop :=
  let d := strs.ToLower d in
  if (String.length d =? 0)%nat then st
  else if strs.HasPrefix d "*." then
    mkDomainsLoop (newDomains st) (newDiscovered st) (oldDomains st)
                  (oldDiscovered st) (newWildcards st ++ [strs.dropStr 2 d])
  else
    mkDomainsLoop
      (<[d := default [] (oldDomains st !! d)]> (newDomains st))
      (<[d := default None (oldDiscovered st !! d)]> (newDiscovered st))
      (delete d (oldDomains st))
      (delete d (oldDiscovered st))
      (newWildcards st).

(** The two loops that preserve entries still covered by a wildcard:
    [for d, v := range old { for _, wc := range wildcards { if
    HasSuffix(d, wc) { new[d] = v; break } } }]. *)
Definition carryWildcards {V : Type} (wcs : list string)
           (old new : gmap string V) : gmap string V :=
  foldl (λ acc dv, if existsb (dnsname_HasSuffix dv.1) wcs
                   then <[dv.1 := dv.2]> acc else acc)
        new (map_to_list old).

Definition updateDomains (ds : list string) (e : AppConnector) : AppConnector :=
  let '(routeInfo, ra) := ReadRouteInfoFromStore (routeAdvertiser e) in
  let st := foldl domainsStep
                  (mkDomainsLoop ∅ ∅ (domains e) (Discovered routeInfo) []) ds in
  let doms := carryWildcards (newWildcards st) (oldDomains st) (newDomains st) in
  let disc := carryWildcards (newWildcards st) (oldDiscovered st) (newDiscovered st) in
  let routeInfo := mkRouteInfo (Corp routeInfo) disc in
  let ra := UpdateRoutesInfoToStore routeInfo ra in
  set_routeAdvertiser ra (set_wildcards (newWildcards st) (set_domains doms e)).

(** *** updateRoutes *)

(** The innermost loop of the subsumption scan, with [continue nextRoute]
    as the [Some] result. *)
Fixpoint scanAddrs (r : Prefix) (addr : list Addr) : option Prefix :=
  match addr with
  | [] => None
  | a :: rest =>
      if Contains r a && negb (Prefix_eqb (PrefixFrom a (BitLen a)) r)
      then Some (PrefixFrom a (BitLen a))
      else scanAddrs r rest
  end.

(** [for _, addr := range e.domains] *)
Fixpoint scanDomains (r : Prefix) (doms : list (string * list Addr))
  : option Prefix :=
  match doms with
  | [] => None
  | (_, addr) :: rest =>
      match scanAddrs r addr with
      | Some pfx => Some pfx
      | None => scanDomains r rest
      end
  end.

(** [nextRoute: for _, r := range routes]; every iteration starts a new
    range over [e.domains], the [i]-th in the order [rangeOrder seed i]
    gives to the entries [doms] of the map. *)
Fixpoint scanRoutes (seed : list (Call DatedRoute)) (i : nat)
         (routes : list Prefix) (doms : list (string * list Addr))
         (toRemove : list Prefix) : list Prefix :=
  match routes with
  | [] => toRemove
  | r :: rest =>
      match scanDomains r (rangeOrder seed i doms) with
      | Some pfx => scanRoutes seed (S i) rest doms (toRemove ++ [pfx])
      | None => scanRoutes seed (S i) rest doms toRemove
      end
  end.

Definition staleCorp (oldCorp routes : list Prefix) : list Prefix :=
  List.filter (λ ipp, negb (slices.Contains routes ipp)) oldCorp.

Definition updateRoutes (routes : list Prefix) (e : AppConnector) : AppConnector :=
  if slices.Equal (controlRoutes e) routes then e
  else
    let '(routeInfo, ra) := ReadRouteInfoFromStore (routeAdvertiser e) in
    let oldCorp := Corp routeInfo in
    let toRemove := staleCorp oldCorp routes in
    let '(_, ra) := UnadvertiseRoute toRemove ra in
    let routeInfo := mkRouteInfo routes (Discovered routeInfo) in
    let '(err, ra) := AdvertiseRoute routes ra in
    if err then set_routeAdvertiser ra e
    else
      let toRemove :=
        scanRoutes (calls ra) 0 routes (map_to_list (domains e)) [] in
      let '(_, ra) := UnadvertiseRoute toRemove ra in
      let ra := UpdateRoutesInfoToStore routeInfo ra in
      set_routeAdvertiser ra (set_controlRoutes routes e).

(** *** ObserveDNSResponse *)

(** Outcome of the parsing half of [ObserveDNSResponse]: an early [return]
    on a parse error, the two maps built from the answer section, or a
    loop still running when the fuel is spent. *)
Inductive ParseOutcome : Type :=
| Malformed
| Parsed (cnameChain : gmap string string)
         (addressRecords : gmap string (list Addr))
| ParseOutOfFuel.

Definition isAddressType (t : N) : bool :=
  ((t =? TypeCNAME) || (t =? TypeA) || (t =? TypeAAAA))%N.

(** The [for] loop over the answer section. *)
Fixpoint answersLoop (fuel : nat) (p : Parser)
         (cnameChain : gmap string string)
         (addressRecords : gmap string (list Addr)) : ParseOutcome :=
  match fuel with
  | O => ParseOutOfFuel
  | S fuel =>
      match AnswerHeader p with
      | ErrSectionDone => Parsed cnameChain addressRecords
      | HeaderErr => Malformed
      | HeaderOk h p =>
          if negb (hClass h =? ClassINET)%N then
            match SkipAnswer p with
            | None => Malformed
            | Some p => answersLoop fuel p cnameChain addressRecords
            end
          else if negb (isAddressType (hType h)) then
            match SkipAnswer p with
            | None => Malformed
            | Some p => answersLoop fuel p cnameChain addressRecords
            end
          else
            let domain := strs.TrimSuffix (strs.ToLower (hName h)) "." in
            if (String.length domain =? 0)%nat then
              answersLoop fuel p cnameChain addressRecords
            else if (hType h =? TypeCNAME)%N then
              match CNAMEResource p with
              | None => Malformed
              | Some (res, p) =>
                  let cname := strs.TrimSuffix (strs.ToLower res) "." in
                  if (String.length cname =? 0)%nat then
                    answersLoop fuel p cnameChain addressRecords
                  else
                    answersLoop fuel p (<[cname := domain]> cnameChain) addressRecords
              end
            else if (hType h =? TypeA)%N then
              match AResource p with
              | None => Malformed
              | Some (r, p) =>
                  let addr := AddrFrom4 r in
                  answersLoop fuel p cnameChain
                    (<[domain := default [] (addressRecords !! domain) ++ [addr]]>
                       addressRecords)
              end
            else if (hType h =? TypeAAAA)%N then
              match AAAAResource p with
              | None => Malformed
              | Some (r, p) =>
                  let addr := AddrFrom16 r in
                  answersLoop fuel p cnameChain
                    (<[domain := default [] (addressRecords !! domain) ++ [addr]]>
                       addressRecords)
              end
            else
              match SkipAnswer p with
              | None => Malformed
              | Some p => answersLoop fuel p cnameChain addressRecords
              end
      end
  end.

(** Lines up to [e.mu.Lock()]. *)
Definition parseResponse (fuel : nat) (res : list Byte.byte) : ParseOutcome :=
  match Start res with
  | None => Malformed
  | Some p =>
      match SkipAllQuestions p with
      | None => Malformed
      | Some p => answersLoop fuel p ∅ ∅
      end
  end.

(** The wildcard loop of [findRoutedDomainLocked]; the [break] leaves this
    loop only. *)
Fixpoint matchWildcards (domain : string) (wcs : list string)
         (doms : gmap string (list Addr)) : gmap string (list Addr) * bool :=
  match wcs with
  | [] => (doms, false)
  | wc :: rest =>
      if dnsname_HasSuffix domain wc
      then (<[domain := []]> doms, true)
      else matchWildcards domain rest doms
  end.

(** [findRoutedDomainLocked]; [None] when the walk is still running after
    [fuel] names. *)
Fixpoint findRoutedDomainLocked (fuel : nat) (domain : string)
         (cnameChain : gmap string string) (e : AppConnector)
  : option (string * bool * AppConnector) :=
  match fuel with
  | O => None
  | S fuel =>
      if bool_decide (is_Some (domains e !! domain)) then Some (domain, true, e)
      else
        let '(doms, isRouted) := matchWildcards domain (wildcards e) (domains e) in
        let e := set_domains doms e in
        match cnameChain !! domain with
        | None => Some (domain, isRouted, e)
        | Some next => findRoutedDomainLocked fuel next cnameChain e
        end
  end.

Definition isAddrKnownLocked (domain : string) (addr : Addr) (e : AppConnector)
  : bool * AppConnector :=
  if hasDomainAddrLocked domain addr e then (true, e)
  else if existsb (λ route, Contains route addr) (controlRoutes e)
       then (true, addDomainAddrLocked domain addr e)
       else (false, e).

(** [for _, addr := range addrs] inside [ObserveDNSResponse]. *)
Fixpoint classifyAddrs (domain : string) (addrs : list Addr)
         (toAdvertise toUpdateDate : list Prefix) (e : AppConnector)
  : list Prefix * list Prefix * AppConnector :=
  match addrs with
  | [] => (toAdvertise, toUpdateDate, e)
  | addr :: rest =>
      let '(known, e) := isAddrKnownLocked domain addr e in
      if negb known
      then classifyAddrs domain rest
             (toAdvertise ++ [PrefixFrom addr (BitLen addr)]) toUpdateDate e
      else classifyAddrs domain rest
             toAdvertise (toUpdateDate ++ [PrefixFrom addr (BitLen addr)]) e
  end.

Definition scheduleAdvertisement (domain : string) (routes : list Prefix)
           (e : AppConnector) : AppConnector :=
  queueAdd (TaskAdvertise domain routes) e.

Definition scheduleUndvertisement (domain : string) (routes : list Prefix)
           (e : AppConnector) : AppConnector :=
  queueAdd (TaskUnadvertise domain routes) e.

(** Body of [for domain, addrs := range addressRecords]. *)
Definition observeRecord (fuel : nat) (now : Time)
           (cnameChain : gmap string string)
           (domain : string) (addrs : list Addr) (e : AppConnector)
  : option AppConnector :=
  match findRoutedDomainLocked fuel domain cnameChain e with
  | None => None
  | Some (domain, isRouted, e) =>
      if negb isRouted then Some e
      else
        let '(toAdvertise, toUpdateDate, e) := classifyAddrs domain addrs [] [] e in
        let routesToUpdate := toAdvertise ++ toUpdateDate in
        let '(routeInfo, ra) := ReadRouteInfoFromStore (routeAdvertiser e) in
        let routeInfo :=
          UpdateRoutesInDiscoveredForDomain now domain routesToUpdate routeInfo in
        let '(routeInfo, outDated) :=
          OutDatedRoutesInDiscoveredForDomain now domain routeInfo in
        let ra := UpdateRoutesInfoToStore routeInfo ra in
        let e := set_routeAdvertiser ra e in
        let e := scheduleAdvertisement domain toAdvertise e in
        Some (scheduleUndvertisement domain outDated e)
  end.

Fixpoint observeRecords (fuel : nat) (now : Time)
         (cnameChain : gmap string string)
         (records : list (string * list Addr)) (e : AppConnector)
  : option AppConnector :=
  match records with
  | [] => Some e
  | (domain, addrs) :: rest =>
      match observeRecord fuel now cnameChain domain addrs e with
      | None => None
      | Some e => observeRecords fuel now cnameChain rest e
      end
  end.

(** [ObserveDNSResponse]; [None] when one of its loops is still running
    after [fuel] iterations. *)
Definition ObserveDNSResponse (fuel : nat) (now : Time) (res : list Byte.byte)
           (e : AppConnector) : option AppConnector :=
  match parseResponse fuel res with
  | Malformed => Some e
  | ParseOutOfFuel => None
  | Parsed cnameChain addressRecords =>
      observeRecords fuel now cnameChain (map_to_list addressRecords) e
  end.

(** *** The queue worker *)

(** The locked loops of the scheduled tasks. *)
Fixpoint advertisedLocked (domain : string) (routes : list Prefix)
         (e : AppConnector) : AppConnector :=
  match routes with
  | [] => e
  | route :: rest =>
      if negb (IsSingleIP route) then advertisedLocked domain rest e
      else
        let addr := Addr_of route in
        if negb (hasDomainAddrLocked domain addr e)
        then advertisedLocked domain rest (addDomainAddrLocked domain addr e)
        else advertisedLocked domain rest e
  end.

Fixpoint unadvertisedLocked (domain : string) (routes : list Prefix)
         (e : AppConnector) : AppConnector :=
  match routes with
  | [] => e
  | route :: rest =>
      if negb (IsSingleIP route) then unadvertisedLocked domain rest e
      else
        let addr := Addr_of route in
        unadvertisedLocked domain rest (deleteDomainAddrLocked domain addr e)
  end.

(** The part of a queued task that runs before it first blocks on [e.mu]
    a second time: the whole task for the update tasks, the collaborator
    call for the scheduled ones. *)
Definition startTask (t : Task) (e : AppConnector) : AppConnector :=
  match t with
  | TaskUpdateDomainsAndRoutes ds routes => updateDomains ds (updateRoutes routes e)
  | TaskUpdateDomains ds => updateDomains ds e
  | TaskAdvertise domain routes =>
      let '(err, ra) := AdvertiseRoute routes (routeAdvertiser e) in
      let e := set_routeAdvertiser ra e in
      if err then e else set_inflight (Some (LockedAdd domain routes)) e
  | TaskUnadvertise domain routes =>
      let '(err, ra) := UnadvertiseRoute routes (routeAdvertiser e) in
      let e := set_routeAdvertiser ra e in
      if err then e else set_inflight (Some (LockedDelete domain routes)) e
  end.

Definition finishTask (l : Locked) (e : AppConnector) : AppConnector :=
  match l with
  | LockedAdd domain routes => advertisedLocked domain routes e
  | LockedDelete domain routes => unadvertisedLocked domain routes e
  end.

(** One step of the single worker of the queue. *)
Definition workerStep (e : AppConnector) : AppConnector :=
  match inflight e with
  | Some l => finishTask l (set_inflight None e)
  | None =>
      match queue e with
      | [] => e
      | t :: rest => startTask t (set_queue rest e)
      end
  end.

(** A scheduled task run from start to end with nothing in between. *)
Definition runTask (t : Task) (e : AppConnector) : AppConnector :=
  let e := startTask t e in
  match inflight e with
  | Some l => finishTask l (set_inflight None e)
  | None => e
  end.

(** What can happen to a connector: the public calls and the worker. *)
Inductive Event : Type :=
| EvUpdateDomainsAndRoutes (ds : list string) (routes : list Prefix)
| EvUpdateDomains (ds : list string)
| EvObserveDNSResponse (fuel : nat) (now : Time) (res : list Byte.byte)
| EvWorker.

Definition step (ev : Event) (e : AppConnector) : option AppConnector :=
  match ev with
  | EvUpdateDomainsAndRoutes ds routes =>
      Some (queueAdd (TaskUpdateDomainsAndRoutes ds routes) e)
  | EvUpdateDomains ds => Some (queueAdd (TaskUpdateDomains ds) e)
  | EvObserveDNSResponse fuel now res => ObserveDNSResponse fuel now res e
  | EvWorker => Some (workerStep e)
  end.

(** States reachable from a fresh connector. *)
Inductive reachable : AppConnector → Prop :=
| reachable_new ra : reachable (NewAppConnector ra)
| reachable_step ev e e' :
    reachable e → step ev e = Some e' → reachable e'.

(** Sequences of [addDomainAddrLocked] and [deleteDomainAddrLocked]. *)
Inductive AddrOp : Type :=
| OpAdd (domain : string) (addr : Addr)
| OpDelete (domain : string) (addr : Addr).

Definition applyOp (e : AppConnector) (op : AddrOp) : AppConnector :=
  match op with
  | OpAdd domain addr => addDomainAddrLocked domain addr e
  | OpDelete domain addr => deleteDomainAddrLocked domain addr e
  end.

Definition applyOps (ops : list AddrOp) (e : AppConnector) : AppConnector :=
  foldl applyOp e ops.

(** Linear scan of a domain's address list. *)
Definition linearHas (domain : string) (addr : Addr) (e : AppConnector) : bool :=
  existsb (Addr_eqb addr) (domainAddrs domain e).

(** [Domains]: the keys of [e.domains], in the order the map yields them. *)
Definition Domains (e : AppConnector) : list string :=
  (map_to_list (domains e)).*1.

(** [DomainRoutes]: a fresh map with a copy of every list. *)
Definition DomainRoutes (e : AppConnector) : gmap string (list Addr) :=
  foldl (λ drCopy kv, <[kv.1 := default [] (drCopy !! kv.1) ++ kv.2]> drCopy)
        ∅ (map_to_list (domains e)).

(** A run of events from a fresh connector. *)
Fixpoint runEvents (evs : list Event) (e : AppConnector) : option AppConnector :=
  match evs with
  | [] => Some e
  | ev :: rest =>
      match step ev e with
      | None => None
      | Some e => runEvents rest e
      end
  end.

(** *** Notions used to state the properties *)

(** Every per-domain list is in ascending order. *)
Definition sortedDomains (e : AppConnector) : Prop :=
  ∀ d l, domains e !! d = Some l → StronglySorted (slices.cmpLe Compare) l.

(** No per-domain list holds an address twice. *)
Definition nodupDomains (e : AppConnector) : Prop :=
  ∀ d l, domains e !! d = Some l → NoDup l.

(** The input names that go to the exact-domain map, and the wildcard
    suffixes, both in input order. *)
Definition isExact (d : string) : bool :=
  negb (String.length d =? 0)%nat && negb (strs.HasPrefix d "*.").

Definition isWildcard (d : string) : bool :=
  negb (String.length d =? 0)%nat && strs.HasPrefix d "*.".

Definition exactNames (ds : list string) : list string :=
  List.filter isExact (map strs.ToLower ds).

Definition wildcardNames (ds : list string) : list string :=
  map (strs.dropStr 2) (List.filter isWildcard (map strs.ToLower ds)).

Fixpoint occurrences (k : string) (l : list string) : nat :=
  match l with
  | [] => O
  | x :: l' => ((if decide (x = k) then 1 else 0) + occurrences k l')%nat
  end.

(** One map pair of the first loop, on the exact names only. *)
Definition exactStep {V : Type} (dflt : V)
           (st : gmap string V * gmap string V) (d : string)
  : gmap string V * gmap string V :=
  (<[d := default dflt (st.2 !! d)]> st.1, delete d st.2).

(** The exact-domain map after [updateDomains]. *)
Definition domainsAfter {V : Type} (dflt : V) (ds : list string)
           (old : gmap string V) (k : string) : option V :=
  if decide (k ∈ exactNames ds)
  then Some (if decide (occurrences k (exactNames ds) = 1%nat)
             then default dflt (old !! k) else dflt)
  else match old !! k with
       | Some v => if existsb (dnsname_HasSuffix k) (wildcardNames ds)
                   then Some v else None
       | None => None
       end.

(** An address is subsumed by a prefix that contains it and is not its own
    single-address prefix. *)
Definition subsumes (r : Prefix) (a : Addr) : bool :=
  Contains r a && negb (Prefix_eqb (PrefixFrom a (BitLen a)) r).

(** The single-address prefix of the first subsumed address of a scan. *)
Definition firstSubsumed (scan : list Addr) (r : Prefix) : option Prefix :=
  (λ a, PrefixFrom a (BitLen a)) <$> List.find (subsumes r) scan.

(** The calls up to the advertise call of a reconciliation. *)
Definition callsBeforeAdvertise (routes : list Prefix) (e : AppConnector)
  : list (Call DatedRoute) :=
  calls (routeAdvertiser e)
  ++ [CallReadRouteInfoFromStore;
      CallUnadvertiseRoute (staleCorp (Corp (store (routeAdvertiser e))) routes)].

(** The addresses in the order the scan for the [i]-th new prefix meets
    them: the entries of [e.domains] in the order of that scan's range,
    each list front to back. *)
Definition scanOrder (routes : list Prefix) (i : nat) (e : AppConnector)
  : list Addr :=
  concat (map snd (rangeOrder
                     (callsBeforeAdvertise routes e ++ [CallAdvertiseRoute routes])
                     i (map_to_list (domains e)))).

(** What the scan for each new prefix finds, prefix by prefix. *)
Definition scanFinds (routes : list Prefix) (e : AppConnector)
  : list (option Prefix) :=
  imap (λ i r, firstSubsumed (scanOrder routes i e) r) routes.

(** Sorted and duplicate-free lists for every domain. *)
Definition listsInv (e : AppConnector) : Prop :=
  sortedDomains e ∧ nodupDomains e.

(** Some operator route contains the address. *)
Definition covered (e : AppConnector) (a : Addr) : bool :=
  existsb (λ route, Contains route a) (controlRoutes e).

Definition single (a : Addr) : Prefix := PrefixFrom a (BitLen a).

End appc.

(** ** Instances of the parameters *)

(** Modelled from the spec: [dnsname.HasSuffix] is not among the sources; a
    wildcard suffix "matches any name ending in the suffix, including
    multi-label subdomains": the name is a non-empty prefix ending in a
    label separator, followed by the suffix. *)
Definition HasSuffixModel (name suffix : string) : bool :=
  let name := strs.TrimSuffix name "." in
  let suffix := strs.TrimSuffix suffix "." in
  let suffix := strs.TrimPrefix suffix "." in
  let nameBase := strs.TrimSuffix name suffix in
  (String.length nameBase <? String.length name)%nat && strs.HasSuffix nameBase ".".

(** Modelled from the spec: [ipn.DatedRoute] and its two methods are not among
    the sources; the record holds "which address-derived routes have been
    established and when", refreshing stamps the routes of the latest
    classification, and the stale routes are those "present in the
    discovered-route record but absent from the latest classification". *)
Definition DatedRouteModel : Type := list (Prefix * nat).

Definition refreshRoutes (now : nat) (routes : list Prefix) (dr : DatedRouteModel)
  : DatedRouteModel :=
  map (λ r, (r, now)) routes
  ++ List.filter (λ rt, negb (existsb (Prefix_eqb rt.1) routes)) dr.

Definition UpdateRoutesModel (now : nat) (domain : string) (routes : list Prefix)
           (ri : RouteInfo DatedRouteModel) : RouteInfo DatedRouteModel :=
  mkRouteInfo (Corp ri)
    (<[domain := Some (refreshRoutes now routes
                         (default [] (default None (Discovered ri !! domain))))]>
       (Discovered ri)).

Definition OutDatedRoutesModel (now : nat) (domain : string)
           (ri : RouteInfo DatedRouteModel)
  : RouteInfo DatedRouteModel * list Prefix :=
  match Discovered ri !! domain with
  | Some (Some dr) =>
      (mkRouteInfo (Corp ri)
         (<[domain := Some (List.filter (λ rt, (rt.2 =? now)%nat) dr)]> (Discovered ri)),
       map fst (List.filter (λ rt, negb (rt.2 =? now)%nat) dr))
  | _ => (ri, [])
  end.

(** The parameters, for a collaborator whose advertise calls fail as
    [advFails] says and whose unadvertise calls succeed, and a runtime whose
    ranges visit [e.domains] in the order of [map_to_list]. *)
Definition modelExternals
           (advFails : list (Call DatedRouteModel) → list Prefix → bool)
  : Externals :=
  {| DatedRoute := DatedRouteModel;
     Time := nat;
     dnsname_HasSuffix := HasSuffixModel;
     UpdateRoutesInDiscoveredForDomain := UpdateRoutesModel;
     OutDatedRoutesInDiscoveredForDomain := OutDatedRoutesModel;
     advertiseFails := advFails;
     unadvertiseFails := λ _ _, false;
     rangeOrder := λ _ _ kvs, kvs;
     rangeOrder_perm := λ _ _ kvs, Permutation_refl kvs |}.

(** A collaborator that never fails, and one whose advertise calls all fail. *)
Definition reliable : Externals := modelExternals (λ _ _, false).
Definition failing : Externals := modelExternals (λ _ _, true).

(** The reliable collaborator, on a runtime whose ranges visit [e.domains]
    in the opposite order. *)
Definition reversing : Externals :=
  {| DatedRoute := DatedRouteModel;
     Time := nat;
     dnsname_HasSuffix := HasSuffixModel;
     UpdateRoutesInDiscoveredForDomain := UpdateRoutesModel;
     OutDatedRoutesInDiscoveredForDomain := OutDatedRoutesModel;
     advertiseFails := λ _ _, false;
     unadvertiseFails := λ _ _, false;
     rangeOrder := λ _ _ kvs, reverse kvs;
     rangeOrder_perm := λ _ _ kvs, reverse_Permutation kvs |}.

(** ** The wire-format parser of [dnsmessage]

    [dnsmessage.Parser] over the message bytes: the twelve-byte header, names
    with compression pointers, and the resource bodies the connector reads.
    Offsets are indices into [msg]. *)
Module wire.

Definition sectionQuestions : N := 2.
Definition sectionAnswers : N := 3.

Record Parser : Type := mkParser {
  msg : list Byte.byte;
  questions : N;
  answers : N;
  authorities : N;
  additionals : N;
  section : N;
  index : N;
  off : nat;
  resHeaderValid : bool;
  resHeader : ResourceHeader
}.

Definition byteAt (msg : list Byte.byte) (off : nat) : N :=
  match msg !! off with
  | Some b => Byte.to_N b
  | None => 0%N
  end.

Definition unpackUint16 (msg : list Byte.byte) (off : nat) : option (N * nat) :=
  if (length msg <? off + 2)%nat then None
  else Some ((N.lor (N.shiftl (byteAt msg off) 8) (byteAt msg (off + 1)))%N,
             (off + 2)%nat).

Definition skipUint16 (msg : list Byte.byte) (off : nat) : option nat :=
  if (length msg <? off + 2)%nat then None else Some (off + 2)%nat.

Definition skipUint32 (msg : list Byte.byte) (off : nat) : option nat :=
  if (length msg <? off + 4)%nat then None else Some (off + 4)%nat.

(** Big-endian value of [n] bytes at [off] ([unpackBytes] into a fixed
    array). *)
Fixpoint bytesValue (msg : list Byte.byte) (off n : nat) (acc : N) : N :=
  match n with
  | O => acc
  | S n' => bytesValue msg (off + 1)%nat n' (N.lor (N.shiftl acc 8) (byteAt msg off))
  end.

Definition unpackBytes (msg : list Byte.byte) (off n : nat) : option N :=
  if (length msg <? off + n)%nat then None else Some (bytesValue msg off n 0%N).

Definition count (p : Parser) (sec : N) : N :=
  if (sec =? 2)%N then questions p
  else if (sec =? 3)%N then answers p
  else if (sec =? 4)%N then authorities p
  else if (sec =? 5)%N then additionals p
  else 0%N.

Definition emptyHeader : ResourceHeader := mkHeader "" 0 0 0.

Definition Start (m : list Byte.byte) : option Parser :=
  if (length m <? 12)%nat then None
  else
    Some (mkParser m (bytesValue m 4 2 0) (bytesValue m 6 2 0)
                   (bytesValue m 8 2 0) (bytesValue m 10 2 0)
                   sectionQuestions 0 12 false emptyHeader).

Inductive Advance : Type :=
| AdvErrNotStarted
| AdvSectionDone (p : Parser)
| AdvOk (p : Parser).

Definition checkAdvance (p : Parser) (sec : N) : Advance :=
  if (section p <? sec)%N then AdvErrNotStarted
  else if (sec <? section p)%N then AdvSectionDone p
  else
    let p := mkParser (msg p) (questions p) (answers p) (authorities p)
                      (additionals p) (section p) (index p) (off p)
                      false (resHeader p) in
    if (index p =? count p sec)%N then
      AdvSectionDone (mkParser (msg p) (questions p) (answers p) (authorities p)
                               (additionals p) (section p + 1)%N 0 (off p)
                               false (resHeader p))
    else AdvOk p.

(** [skipName]; the fuel is the number of labels left to step over. *)
Fixpoint skipNameLoop (fuel : nat) (m : list Byte.byte) (newOff : nat)
  : option nat :=
  match fuel with
  | O => None
  | S fuel =>
      if (length m <=? newOff)%nat then None
      else
        let c := byteAt m newOff in
        let newOff := (newOff + 1)%nat in
        if (N.land c 192 =? 0)%N then
          if (c =? 0)%N then Some newOff
          else
            let newOff := (newOff + N.to_nat c)%nat in
            if (length m <? newOff)%nat then None
            else skipNameLoop fuel m newOff
        else if (N.land c 192 =? 192)%N then Some (newOff + 1)%nat
        else None
  end.

Definition skipName (m : list Byte.byte) (off : nat) : option nat :=
  skipNameLoop (S (length m)) m off.

Definition hasDot (bs : list Byte.byte) : bool :=
  existsb (λ b, (Byte.to_N b =? 46)%N) bs.

(** The loop of [Name.unpack]: the name bytes read so far, the working
    offset, the offset after the name, and the pointers followed. *)
Fixpoint unpackNameLoop (fuel : nat) (m : list Byte.byte)
         (currOff newOff ptr : nat) (name : list Byte.byte)
  : option (list Byte.byte * nat * nat * nat) :=
  match fuel with
  | O => None
  | S fuel =>
      if (length m <=? currOff)%nat then None
      else
        let c := byteAt m currOff in
        let currOff := (currOff + 1)%nat in
        if (N.land c 192 =? 0)%N then
          if (c =? 0)%N then Some (name, currOff, newOff, ptr)
          else
            let endOff := (currOff + N.to_nat c)%nat in
            if (length m <? endOff)%nat then None
            else
              let label := take (N.to_nat c) (drop currOff m) in
              if hasDot label then None
              else unpackNameLoop fuel m endOff newOff ptr
                     (name ++ label ++ [Byte.x2e])
        else if (N.land c 192 =? 192)%N then
          if (length m <=? currOff)%nat then None
          else
            let c1 := byteAt m currOff in
            let currOff := (currOff + 1)%nat in
            let newOff := if (ptr =? 0)%nat then currOff else newOff in
            let ptr := (ptr + 1)%nat in
            if (10 <? ptr)%nat then None
            else unpackNameLoop fuel m
                   (N.to_nat (N.lor (N.shiftl (N.land c 63) 8) c1)) newOff ptr name
        else None
  end.

(** [Name.unpack] followed by [Name.String]. *)
Definition unpackName (m : list Byte.byte) (off : nat) : option (string * nat) :=
  match unpackNameLoop (12 * S (length m)) m off off 0 [] with
  | None => None
  | Some (name, currOff, newOff, ptr) =>
      let name := if (length name =? 0)%nat then [Byte.x2e] else name in
      if (255 <? length name)%nat then None
      else
        let newOff := if (ptr =? 0)%nat then currOff else newOff in
        Some (string_of_list_byte name, newOff)
  end.

Definition SkipQuestion (p : Parser) : Advance :=
  match checkAdvance p sectionQuestions with
  | AdvOk p =>
      match skipName (msg p) (off p) with
      | None => AdvErrNotStarted
      | Some o =>
          match skipUint16 (msg p) o with
          | None => AdvErrNotStarted
          | Some o =>
              match skipUint16 (msg p) o with
              | None => AdvErrNotStarted
              | Some o =>
                  AdvOk (mkParser (msg p) (questions p) (answers p) (authorities p)
                                  (additionals p) (section p) (index p + 1)%N o
                                  (resHeaderValid p) (resHeader p))
              end
          end
      end
  | r => r
  end.

(** [SkipAllQuestions]: at most [questions + 1] calls of [SkipQuestion]. *)
Fixpoint skipQuestionsLoop (fuel : nat) (p : Parser) : option Parser :=
  match fuel with
  | O => None
  | S fuel =>
      match SkipQuestion p with
      | AdvSectionDone p => Some p
      | AdvErrNotStarted => None
      | AdvOk p => skipQuestionsLoop fuel p
      end
  end.

Definition SkipAllQuestions (p : Parser) : option Parser :=
  skipQuestionsLoop (S (S (N.to_nat (questions p)))) p.

(** [ResourceHeader.unpack] *)
Definition unpackHeader (m : list Byte.byte) (off : nat)
  : option (ResourceHeader * nat) :=
  match unpackName m off with
  | None => None
  | Some (name, o) =>
      match unpackUint16 m o with
      | None => None
      | Some (t, o) =>
          match unpackUint16 m o with
          | None => None
          | Some (c, o) =>
              match skipUint32 m o with
              | None => None
              | Some o =>
                  match unpackUint16 m o with
                  | None => None
                  | Some (len, o) => Some (mkHeader name t c len, o)
                  end
              end
          end
      end
  end.

Definition AnswerHeader (p : Parser) : HeaderResult Parser :=
  if resHeaderValid p then HeaderOk (resHeader p) p
  else
    match checkAdvance p sectionAnswers with
    | AdvErrNotStarted => HeaderErr
    | AdvSectionDone _ => ErrSectionDone
    | AdvOk p =>
        match unpackHeader (msg p) (off p) with
        | None => HeaderErr
        | Some (hdr, o) =>
            HeaderOk hdr (mkParser (msg p) (questions p) (answers p) (authorities p)
                                   (additionals p) (section p) (index p) o true hdr)
        end
    end.

(** The end of every resource method: step over the body. *)
Definition consumed (p : Parser) (newOff : nat) : Parser :=
  mkParser (msg p) (questions p) (answers p) (authorities p) (additionals p)
           (section p) (index p + 1)%N newOff false (resHeader p).

Definition SkipAnswer (p : Parser) : option Parser :=
  if resHeaderValid p then
    let newOff := (off p + N.to_nat (hLength (resHeader p)))%nat in
    if (length (msg p) <? newOff)%nat then None
    else Some (consumed p newOff)
  else
    match checkAdvance p sectionAnswers with
    | AdvOk p =>
        match unpackHeader (msg p) (off p) with
        | None => None
        | Some (hdr, o) =>
            let newOff := (o + N.to_nat (hLength hdr))%nat in
            if (length (msg p) <? newOff)%nat then None
            else Some (consumed p newOff)
        end
    | _ => None
    end.

Definition CNAMEResource (p : Parser) : option (string * Parser) :=
  if negb (resHeaderValid p) || negb (hType (resHeader p) =? TypeCNAME)%N then None
  else
    match unpackName (msg p) (off p) with
    | None => None
    | Some (cname, _) =>
        Some (cname, consumed p (off p + N.to_nat (hLength (resHeader p)))%nat)
    end.

Definition AResource (p : Parser) : option (N * Parser) :=
  if negb (resHeaderValid p) || negb (hType (resHeader p) =? TypeA)%N then None
  else
    match unpackBytes (msg p) (off p) 4 with
    | None => None
    | Some a => Some (a, consumed p (off p + N.to_nat (hLength (resHeader p)))%nat)
    end.

Definition AAAAResource (p : Parser) : option (N * Parser) :=
  if negb (resHeaderValid p) || negb (hType (resHeader p) =? TypeAAAA)%N then None
  else
    match unpackBytes (msg p) (off p) 16 with
    | None => None
    | Some a => Some (a, consumed p (off p + N.to_nat (hLength (resHeader p)))%nat)
    end.

Definition ops : ParserOps :=
  {| dnsmessage.Parser := Parser;
     dnsmessage.Start := Start;
     dnsmessage.SkipAllQuestions := SkipAllQuestions;
     dnsmessage.AnswerHeader := AnswerHeader;
     dnsmessage.SkipAnswer := SkipAnswer;
     dnsmessage.CNAMEResource := CNAMEResource;
     dnsmessage.AResource := AResource;
     dnsmessage.AAAAResource := AAAAResource |}.

(** Building a response: a header with [an] answers and no question, then
    the records. *)
Definition byteOf (n : N) : Byte.byte :=
  match Byte.of_N (n mod 256) with
  | Some b => b
  | None => Byte.x00
  end.

Definition be16 (n : N) : list Byte.byte :=
  [byteOf (N.shiftr n 8); byteOf n].

Definition be32 (n : N) : list Byte.byte :=
  [byteOf (N.shiftr n 24); byteOf (N.shiftr n 16); byteOf (N.shiftr n 8); byteOf n].

Definition label (s : string) : list Byte.byte :=
  byteOf (N.of_nat (String.length s)) :: list_byte_of_string s.

(** A name from its labels. *)
Definition packName (labels : list string) : list Byte.byte :=
  concat (map label labels) ++ [Byte.x00].

Definition packHeader (an : N) : list Byte.byte :=
  be16 0 ++ be16 33152 ++ be16 0 ++ be16 an ++ be16 0 ++ be16 0.

Definition packResource (name : list string) (type : N) (body : list Byte.byte)
  : list Byte.byte :=
  packName name ++ be16 type ++ be16 ClassINET ++ be32 300
           ++ be16 (N.of_nat (length body)) ++ body.

Definition packA (name : list string) (a : N) : list Byte.byte :=
  packResource name TypeA (be32 a).

Definition packCNAME (name target : list string) : list Byte.byte :=
  packResource name TypeCNAME (packName target).

End wire.

(** ** Sample connectors and responses *)
(** * Package cli: accepted risks and prompts *)
Module cli.

(** [strings.Split(s, sep)] for a one-byte separator: the pieces between
    the occurrences of [sep], one piece when there is none. *)
Fixpoint Split (s : string) (sep : ascii) : list string :=
  match s with
  | EmptyString => [EmptyString]
  | String c s' =>
      if Ascii.eqb c sep then EmptyString :: Split s' sep
      else match Split s' sep with
           | x :: xs => String c x :: xs
           | [] => [String c EmptyString]
           end
  end.

(** [strings.Join(elems, sep)] *)
Fixpoint Join (elems : list string) (sep : string) : string :=
  match elems with
  | [] => EmptyString
  | [x] => x
  | x :: rest => x ++ sep ++ Join rest sep
  end.

(** [registerRiskType] on the package variable [riskTypes], and the three
    registrations in declaration order. *)
Definition registerRiskType (riskType : string) (riskTypes : list string)
  : string * list string :=
  (riskType, riskTypes ++ [riskType]).

Definition riskLoseSSH : string := (registerRiskType "lose-ssh" []).1.
Definition riskMacAppConnector : string :=
  (registerRiskType "mac-app-connector" (registerRiskType "lose-ssh" []).2).1.
Definition riskAll : string :=
  (registerRiskType
     "all"
     (registerRiskType "mac-app-connector" (registerRiskType "lose-ssh" []).2).2).1.
Definition riskTypes : list string :=
  (registerRiskType
     "all"
     (registerRiskType "mac-app-connector" (registerRiskType "lose-ssh" []).2).2).2.

(** [isRiskAccepted] *)
Definition isRiskAccepted (riskType acceptedRisks : string) : bool :=
  existsb (λ r, String.eqb r riskType || String.eqb r riskAll)
          (Split acceptedRisks ",").

(** What [fmt.Scanln(&resp)] hands back: the token read, or an error with
    its text. *)
Inductive Scanned : Type :=
| ScanOk (resp : string)
| ScanErr (msg : string).

(** The printing calls, in the order they are made. *)
Inductive Output : Type :=
| Outln (s : string)
| Printf (format : string) (args : list string)
| Print (s : string).

Inductive error : Type :=
| errAborted.

(** [promptYesNo]: what is printed, and the answer. *)
Definition promptYesNo (msg : string) (scan : Scanned) : list Output * bool :=
  ([Print (msg ++ " [y/n] ")],
   match scan with
   | ScanErr m => String.eqb m "unexpected newline"
   | ScanOk resp =>
       let resp := strs.ToLower resp in
       String.eqb resp "y" || String.eqb resp "yes" || String.eqb resp "sure"
   end).

(** [presentRiskToUser]; [inTest] is what [testenv.InTest()] reports. *)
Definition presentRiskToUser (inTest : bool)
           (riskType riskMessage acceptedRisks : string) (scan : Scanned)
  : list Output * option error :=
  if isRiskAccepted riskType acceptedRisks then ([], None)
  else if inTest then ([], Some errAborted)
  else
    let out := [Outln riskMessage;
                Printf "To skip this warning, use --accept-risk=%s\n" [riskType]] in
    let '(asked, yes) := promptYesNo "Continue?" scan in
    (out ++ asked, if yes then None else Some errAborted).

(** [updateArgs] *)
Record UpdateArgs : Type := mkUpdateArgs {
  yes : bool;
  dryRun : bool;
  track : string;
  version : string;
}.

(** [confirmUpdate]; [short] is what [version.Short()] returns. *)
Definition confirmUpdate (updateArgs : UpdateArgs) (short ver : string)
           (scan : Scanned) : list Output * bool :=
  if yes updateArgs then
    ([Printf "Updating Tailscale from %v to %v; --yes given, continuing without prompts.\n"
             [short; ver]], true)
  else if dryRun updateArgs then
    ([Printf "Current: %v, Latest: %v\n" [short; ver]], false)
  else
    promptYesNo
      ("This will update Tailscale from " ++ short ++ " to " ++ ver ++ ". Continue?")
      scan.

(** *** Notions used to state the properties *)

(** No byte of [s] is [sep]. *)
Fixpoint freeOf (sep : ascii) (s : string) : bool :=
  match s with
  | EmptyString => true
  | String c s' => negb (Ascii.eqb c sep) && freeOf sep s'
  end.

End cli.

Module samples.

#[local] Existing Instance reliable.
#[local] Existing Instance wire.ops.

Definition ip4N (a b c d : N) : N := (a * 16777216 + b * 65536 + c * 256 + d)%N.
Definition ip4 (a b c d : N) : Addr := IPv4 (ip4N a b c d).

(** A connector just built, over an empty store. *)
Definition fresh (X : Externals) : @AppConnector X :=
  NewAppConnector (mkAdvertiser (mkRouteInfo [] ∅) []).

(** [a.example.com] with one discovered address and its record. *)
Definition discovered : AppConnector :=
  mkAppConnector
    (mkAdvertiser
       (mkRouteInfo [] {[ "a.example.com" := Some [(single (ip4 192 0 2 1), 7%nat)] ]})
       [])
    {[ "a.example.com" := [ip4 192 0 2 1] ]} [] [] [] None.

(** Only the wildcard [*.example.com] configured. *)
Definition wildcardOnly : AppConnector :=
  updateDomains ["*.example.com"] (fresh reliable).

(** [www.other.org CNAME a.example.com] and [a.example.com A 192.0.2.1]. *)
Definition cnameIntoWildcard : list Byte.byte :=
  wire.packHeader 2
  ++ wire.packCNAME ["www"; "other"; "org"] ["a"; "example"; "com"]
  ++ wire.packA ["a"; "example"; "com"] (ip4N 192 0 2 1).

(** [alias.example.com CNAME target.example.net] and
    [target.example.net A 203.0.113.5]. *)
Definition aliasOfTarget : list Byte.byte :=
  wire.packHeader 2
  ++ wire.packCNAME ["alias"; "example"; "com"] ["target"; "example"; "net"]
  ++ wire.packA ["target"; "example"; "net"] (ip4N 203 0 113 5).

(** A header announcing one answer, and nothing after it. *)
Definition truncated : list Byte.byte := wire.packHeader 1.

(** [example.com A 192.0.2.1], twice in one response. *)
Definition repeatedAnswer : list Byte.byte :=
  wire.packHeader 2
  ++ wire.packA ["example"; "com"] (ip4N 192 0 2 1)
  ++ wire.packA ["example"; "com"] (ip4N 192 0 2 1).

Definition net10 : Prefix := mkPrefix (ip4 10 0 0 0) 8.

(** Two discovered addresses inside 10.0.0.0/8 and one outside. *)
Definition withAddrs (X : Externals) : @AppConnector X :=
  mkAppConnector (mkAdvertiser (mkRouteInfo [] ∅) [])
    {[ "a.example.com" := [ip4 10 0 0 1; ip4 10 0 0 2; ip4 192 0 2 1] ]}
    [] [] [] None.

(** [example.com] routed, 10.0.0.0/8 supplied by the operator. *)
Definition routedWithControl : AppConnector :=
  mkAppConnector (mkAdvertiser (mkRouteInfo [net10] ∅) [])
    {[ "example.com" := [] ]} [net10] [] [] None.

Definition addDeleteOps : list AddrOp :=
  [OpAdd "a.example.com" (ip4 192 0 2 3); OpAdd "a.example.com" (ip4 192 0 2 1);
   OpAdd "a.example.com" (ip4 192 0 2 2); OpDelete "a.example.com" (ip4 192 0 2 3);
   OpAdd "a.example.com" (ip4 192 0 2 1)].

(** Configure [example.com], observe the repeated answer, and let the worker
    run the update and the scheduled advertisement. *)
Definition observedTwice : list Event :=
  [EvUpdateDomains ["example.com"]; EvWorker;
   EvObserveDNSResponse 8 1%nat repeatedAnswer; EvWorker; EvWorker].

(** The connector after that run. *)
Definition afterObservedTwice : AppConnector :=
  default (fresh reliable) (runEvents observedTwice (fresh reliable)).

(** Two addresses observed for [example.com], one of them twice and inside
    the operator route; and the connector after that record. *)
Definition observedAddrs : list Addr :=
  [ip4 10 1 2 3; ip4 192 0 2 1; ip4 10 1 2 3].

Definition afterRecord : AppConnector :=
  default routedWithControl
          (observeRecord 2 1%nat ∅ "example.com" observedAddrs routedWithControl).

(** [loop.example.org CNAME loop.example.org] and
    [loop.example.org A 192.0.2.9]. *)
Definition selfAlias : list Byte.byte :=
  wire.packHeader 2
  ++ wire.packCNAME ["loop"; "example"; "org"] ["loop"; "example"; "org"]
  ++ wire.packA ["loop"; "example"; "org"] (ip4N 192 0 2 9).

(** [example.com A 192.0.2.1]. *)
Definition singleAnswer : list Byte.byte :=
  wire.packHeader 1 ++ wire.packA ["example"; "com"] (ip4N 192 0 2 1).

(** [example.com A 10.1.2.3] and [example.com A 192.0.2.1]. *)
Definition twoAnswers : list Byte.byte :=
  wire.packHeader 2
  ++ wire.packA ["example"; "com"] (ip4N 10 1 2 3)
  ++ wire.packA ["example"; "com"] (ip4N 192 0 2 1).

(** [example.com] routed, no operator route yet. *)
Definition routedOnly (X : Externals) : @AppConnector X :=
  mkAppConnector (mkAdvertiser (mkRouteInfo [] ∅) [])
    {[ "example.com" := [] ]} [] [] [] None.

(** The wildcard-only connector after the alias response. *)
Definition afterAlias : AppConnector :=
  default wildcardOnly (ObserveDNSResponse 8 1%nat aliasOfTarget wildcardOnly).

(** The operator route 10.0.0.0/8 is advertised, then the two answers are
    observed. *)
Definition afterRoutes : AppConnector :=
  default (routedOnly reliable)
          (ObserveDNSResponse 8 1%nat twoAnswers
             (updateRoutes [net10] (routedOnly reliable))).

Definition net192 : Prefix := mkPrefix (ip4 192 168 0 0) 16.

(** 10.0.0.0/8 and 192.168.0.0/16 advertised and stored. *)
Definition storedRoutes (X : Externals) : @AppConnector X :=
  mkAppConnector (mkAdvertiser (mkRouteInfo [net10; net192] ∅) [])
    ∅ [net10; net192] [] [] None.

(** 10.0.0.1 discovered for one domain and 10.0.0.2 for another. *)
Definition twoDomains (X : Externals) : @AppConnector X :=
  mkAppConnector (mkAdvertiser (mkRouteInfo [] ∅) [])
    {[ "a.example.com" := [ip4 10 0 0 1]; "b.example.com" := [ip4 10 0 0 2] ]}
    [] [] [] None.

End samples.

(** * Properties *)

(** ** Order on addresses *)
Section compare.

Lemma Compare_refl a : Compare a a = 0.
Proof.
  unfold Compare. rewrite Z.ltb_irrefl, N.ltb_irrefl. reflexivity.
Qed.

Lemma Compare_eq a b : Compare a b = 0 ↔ a = b.
Proof.
  split; [|intros ->; apply Compare_refl].
  unfold Compare.
  destruct (BitLen a <? BitLen b) eqn:E1; [discriminate|].
  destruct (BitLen b <? BitLen a) eqn:E2; [discriminate|].
  destruct (bitsOf a <? bitsOf b)%N eqn:E3; [discriminate|].
  destruct (bitsOf b <? bitsOf a)%N eqn:E4; [discriminate|].
  intros _.
  apply Z.ltb_ge in E1, E2. apply N.ltb_ge in E3, E4.
  assert (bitsOf a = bitsOf b) as Hv by lia.
  destruct a, b; simpl in *; try lia; congruence.
Qed.

Lemma Compare_lt_flip a b : Compare a b < 0 ↔ 0 < Compare b a.
Proof.
  unfold Compare.
  destruct (BitLen a <? BitLen b) eqn:E1, (BitLen b <? BitLen a) eqn:E2,
           (bitsOf a <? bitsOf b)%N eqn:E3, (bitsOf b <? bitsOf a)%N eqn:E4;
    try apply Z.ltb_lt in E1; try apply Z.ltb_lt in E2;
    try apply N.ltb_lt in E3; try apply N.ltb_lt in E4; lia.
Qed.

Lemma Compare_le_trans a b c :
  Compare a b <= 0 → Compare b c <= 0 → Compare a c <= 0.
Proof.
  unfold Compare.
  destruct (BitLen a <? BitLen b) eqn:E1, (BitLen b <? BitLen a) eqn:E2,
           (bitsOf a <? bitsOf b)%N eqn:E3, (bitsOf b <? bitsOf a)%N eqn:E4,
           (BitLen b <? BitLen c) eqn:E5, (BitLen c <? BitLen b) eqn:E6,
           (bitsOf b <? bitsOf c)%N eqn:E7, (bitsOf c <? bitsOf b)%N eqn:E8,
           (BitLen a <? BitLen c) eqn:E9, (BitLen c <? BitLen a) eqn:E10,
           (bitsOf a <? bitsOf c)%N eqn:E11, (bitsOf c <? bitsOf a)%N eqn:E12;
    intros; try lia;
    repeat match goal with
           | H : (_ <? _) = true |- _ => apply Z.ltb_lt in H
           | H : (_ <? _) = false |- _ => apply Z.ltb_ge in H
           | H : (_ <? _)%N = true |- _ => apply N.ltb_lt in H
           | H : (_ <? _)%N = false |- _ => apply N.ltb_ge in H
           end; lia.
Qed.

Lemma Compare_lt_le_trans a b c :
  Compare a b <= 0 → Compare b c < 0 → Compare a c < 0.
Proof.
  intros Hab Hbc.
  assert (Compare a c <= 0) as Hac by (eapply Compare_le_trans; eauto; lia).
  destruct (Z.eq_dec (Compare a c) 0) as [Heq|]; [|lia].
  apply Compare_eq in Heq. subst c.
  apply Compare_lt_flip in Hbc. lia.
Qed.

Lemma Compare_ge_le_trans a b c :
  0 <= Compare a c → Compare a b <= 0 → 0 <= Compare b c.
Proof.
  intros Hac Hab.
  destruct (Z_lt_le_dec (Compare b c) 0) as [Hlt|]; [|lia].
  pose proof (Compare_lt_le_trans a b c Hab Hlt). lia.
Qed.

#[global] Instance compareAddr_trans : Transitive (slices.cmpLe Compare).
Proof. intros a b c. unfold slices.cmpLe. apply Compare_le_trans. Qed.

#[global] Instance compareAddr_total : Total (slices.cmpLe Compare).
Proof.
  intros a b. unfold slices.cmpLe.
  destruct (Z_lt_le_dec 0 (Compare a b)) as [Hlt|]; [|by left].
  right. apply Compare_lt_flip in Hlt. lia.
Qed.

Lemma Addr_eqb_eq a b : Addr_eqb a b = true ↔ a = b.
Proof.
  destruct a, b; simpl; try (split; [discriminate|congruence]);
    try (split; [reflexivity|reflexivity]);
    rewrite N.eqb_eq; split; congruence.
Qed.

Lemma Prefix_eqb_eq p q : Prefix_eqb p q = true ↔ p = q.
Proof.
  unfold Prefix_eqb. rewrite andb_true_iff, Addr_eqb_eq, Z.eqb_eq.
  destruct p, q; simpl. split; [intros [-> ->]; reflexivity|].
  intros [= -> ->]. split; reflexivity.
Qed.

Lemma PrefixFrom_single_inj a b :
  PrefixFrom a (BitLen a) = PrefixFrom b (BitLen b) → a = b.
Proof.
  intros H. apply (f_equal Addr_of) in H. revert H.
  unfold PrefixFrom.
  destruct (_ || _), (_ || _); simpl; auto.
Qed.

End compare.

(** ** Binary search on a sorted address list *)
Section bsearch.

Local Abbreviation sorted := (StronglySorted (slices.cmpLe Compare)).

Lemma sorted_lookup_le (x : list Addr) :
  sorted x →
  ∀ (i j : nat) a b, (i <= j)%nat → x !! i = Some a → x !! j = Some b →
                     Compare a b <= 0.
Proof.
  induction 1 as [|c x Hs IH Hall]; intros i j a b Hij Hi Hj.
  - rewrite lookup_nil in Hi. discriminate.
  - destruct i as [|i], j as [|j]; simpl in *; try lia.
    + simplify_eq. rewrite Compare_refl. lia.
    + simplify_eq. rewrite Forall_forall in Hall.
      apply Hall. eapply list_elem_of_lookup_2; eauto.
    + apply (IH i j a b); [lia|done|done].
Qed.

Lemma bsearchLoop_spec (x : list Addr) (t : Addr) :
  sorted x →
  ∀ (fuel i j : nat),
    (i <= j)%nat → (j <= length x)%nat → (j - i <= fuel)%nat →
    (∀ k e, (k < i)%nat → x !! k = Some e → Compare e t < 0) →
    (∀ k e, (j <= k)%nat → x !! k = Some e → 0 <= Compare e t) →
    let r := slices.bsearchLoop Compare x t fuel i j in
    (r <= length x)%nat
    ∧ (∀ k e, (k < r)%nat → x !! k = Some e → Compare e t < 0)
    ∧ (∀ k e, (r <= k)%nat → x !! k = Some e → 0 <= Compare e t).
Proof.
  intros Hs. induction fuel as [|fuel IH]; intros i j Hij Hj Hf Hlo Hhi;
    cbv zeta; cbn [slices.bsearchLoop].
  - assert (i = j) by lia. subst. repeat split; auto.
  - destruct (i <? j)%nat eqn:Eij.
    2:{ apply Nat.ltb_ge in Eij. assert (i = j) by lia. subst.
        repeat split; auto. }
    apply Nat.ltb_lt in Eij.
    pose proof (Nat.div_mod_eq (i + j)%nat 2%nat) as Hdm.
    assert ((i + j) mod 2 < 2)%nat as Hm by (apply Nat.mod_upper_bound; lia).
    set (h := ((i + j) / 2)%nat) in *.
    assert (i <= h < j)%nat as Hh by lia.
    destruct (x !! h) as [e|] eqn:Eh.
    2:{ apply lookup_ge_None in Eh. lia. }
    destruct (Compare e t <? 0) eqn:Ec.
    + apply Z.ltb_lt in Ec. apply (IH (h + 1)%nat j); try lia; auto.
      intros k e' Hk Hk'.
      eapply Compare_lt_le_trans; [|exact Ec].
      eapply (sorted_lookup_le x Hs k h); eauto. lia.
    + apply Z.ltb_ge in Ec. apply (IH i h); try lia; auto.
      intros k e' Hk Hk'.
      eapply Compare_ge_le_trans; [exact Ec|].
      eapply (sorted_lookup_le x Hs h k); eauto.
Qed.

(** On a sorted list the search finds the target exactly when it is there,
    and then at the index it returns. *)
Lemma BinarySearchFunc_sorted (x : list Addr) (t : Addr) :
  sorted x →
  ((slices.BinarySearchFunc x t Compare).2 = true ↔ t ∈ x)
  ∧ ((slices.BinarySearchFunc x t Compare).2 = true →
     x !! (slices.BinarySearchFunc x t Compare).1 = Some t).
Proof.
  intros Hs. unfold slices.BinarySearchFunc. simpl.
  destruct (bsearchLoop_spec x t Hs (length x) 0 (length x))
    as (Hr & Hlo & Hhi); try lia.
  { intros k e Hk Hk'. apply lookup_lt_Some in Hk'. lia. }
  set (r := slices.bsearchLoop Compare x t (length x) 0 (length x)) in *.
  assert (∀ e, x !! r = Some e → Compare e t = 0 → e = t) as Heq.
  { intros e _ He. by apply Compare_eq. }
  split.
  - split.
    + destruct (x !! r) as [e|] eqn:Er; [|discriminate].
      rewrite andb_true_iff, Z.eqb_eq. intros [_ He].
      apply Compare_eq in He. subst e.
      eapply list_elem_of_lookup_2; eauto.
    + intros Hin. apply list_elem_of_lookup_1 in Hin as [k Hk].
      destruct (Nat.lt_ge_cases k r) as [Hlt|Hge].
      { specialize (Hlo k t Hlt Hk). rewrite Compare_refl in Hlo. lia. }
      assert (r < length x)%nat as Hrl.
      { apply lookup_lt_Some in Hk. lia. }
      destruct (lookup_lt_is_Some_2 x r Hrl) as [e Er]. rewrite Er.
      apply andb_true_iff. split; [by apply Nat.ltb_lt|].
      apply Z.eqb_eq.
      pose proof (Hhi r e ltac:(lia) Er) as H1.
      pose proof (sorted_lookup_le x Hs r k e t Hge Er Hk) as H2.
      lia.
  - destruct (x !! r) as [e|] eqn:Er; [|discriminate].
    rewrite andb_true_iff, Z.eqb_eq. intros [_ He].
    apply Compare_eq in He. by subst e.
Qed.

Lemma existsb_Addr_eqb (x : list Addr) (t : Addr) :
  existsb (Addr_eqb t) x = true ↔ t ∈ x.
Proof.
  rewrite existsb_exists. split.
  - intros (y & Hy & Heq). apply Addr_eqb_eq in Heq. subst.
    by apply list_elem_of_In.
  - intros Hin. exists t. split; [by apply list_elem_of_In|by apply Addr_eqb_eq].
Qed.

Lemma SortFunc_sorted (x : list Addr) : sorted (slices.SortFunc x Compare).
Proof. unfold slices.SortFunc. apply StronglySorted_merge_sort; apply _. Qed.

Lemma SortFunc_perm (x : list Addr) : slices.SortFunc x Compare ≡ₚ x.
Proof. apply merge_sort_Permutation. Qed.

Lemma Delete_sorted (x : list Addr) (i j : nat) :
  (i <= j)%nat → sorted x → sorted (slices.Delete x i j).
Proof.
  intros Hij Hs. unfold slices.Delete.
  rewrite <- (take_drop i x) in Hs.
  apply StronglySorted_app in Hs as (Hcross & Hl & Hr).
  apply StronglySorted_app. split; [|split]; auto.
  - intros a b Ha Hb. apply Hcross; auto.
    replace j with (i + (j - i))%nat in Hb by lia.
    rewrite <- drop_drop in Hb.
    eapply elem_of_sublist; [exact Hb|apply sublist_drop].
  - replace j with (i + (j - i))%nat by lia.
    rewrite <- drop_drop.
    rewrite <- (take_drop (j - i) (drop i x)) in Hr.
    by apply StronglySorted_app in Hr as (_ & _ & ?).
Qed.

End bsearch.

(** ** The per-domain address lists *)
Section addrlists.
Context `{Ext : Externals} `{DNS : ParserOps}.

Local Abbreviation sorted := (StronglySorted (slices.cmpLe Compare)).

Lemma domainAddrs_sorted e d : sortedDomains e → sorted (domainAddrs d e).
Proof.
  intros Hs. unfold domainAddrs.
  destruct (domains e !! d) as [l|] eqn:El; simpl; [by eapply Hs|constructor].
Qed.

Lemma domainAddrs_nodup e d : nodupDomains e → NoDup (domainAddrs d e).
Proof.
  intros Hs. unfold domainAddrs.
  destruct (domains e !! d) as [l|] eqn:El; simpl; [by eapply Hs|constructor].
Qed.

Lemma hasDomainAddrLocked_elem e d a :
  sortedDomains e → hasDomainAddrLocked d a e = true ↔ a ∈ domainAddrs d e.
Proof.
  intros Hs. unfold hasDomainAddrLocked, compareAddr.
  apply BinarySearchFunc_sorted. by apply domainAddrs_sorted.
Qed.

Lemma hasDomainAddrLocked_linear e d a :
  sortedDomains e → hasDomainAddrLocked d a e = linearHas d a e.
Proof.
  intros Hs. apply eq_true_iff_eq.
  rewrite hasDomainAddrLocked_elem by done.
  unfold linearHas. by rewrite existsb_Addr_eqb.
Qed.

Lemma addDomainAddrLocked_domains e d a :
  domains (addDomainAddrLocked d a e)
  = <[d := slices.SortFunc (domainAddrs d e ++ [a]) Compare]> (domains e).
Proof.
  unfold addDomainAddrLocked, domainAddrs, compareAddr. simpl.
  rewrite lookup_insert_eq. simpl. by rewrite insert_insert_eq.
Qed.

Lemma deleteDomainAddrLocked_domains e d a :
  domains (deleteDomainAddrLocked d a e)
  = let r := slices.BinarySearchFunc (domainAddrs d e) a Compare in
    if r.2
    then <[d := slices.SortFunc (slices.Delete (domainAddrs d e) r.1 (r.1 + 1)) Compare]>
           (domains e)
    else domains e.
Proof.
  unfold deleteDomainAddrLocked, compareAddr. cbv zeta.
  destruct (slices.BinarySearchFunc (domainAddrs d e) a Compare) as [ind ok].
  destruct ok; simpl; [|done].
  unfold domainAddrs. simpl. rewrite lookup_insert_eq. simpl.
  by rewrite insert_insert_eq.
Qed.

Lemma addDomainAddrLocked_sorted e d a :
  sortedDomains e → sortedDomains (addDomainAddrLocked d a e).
Proof.
  intros Hs d' l. rewrite addDomainAddrLocked_domains.
  destruct (decide (d = d')) as [->|Hne].
  - rewrite lookup_insert_eq. intros [= <-]. apply SortFunc_sorted.
  - rewrite lookup_insert_ne by done. apply Hs.
Qed.

Lemma deleteDomainAddrLocked_sorted e d a :
  sortedDomains e → sortedDomains (deleteDomainAddrLocked d a e).
Proof.
  intros Hs d' l. rewrite deleteDomainAddrLocked_domains. cbv zeta.
  destruct (slices.BinarySearchFunc _ _ _).2; [|apply Hs].
  destruct (decide (d = d')) as [->|Hne].
  - rewrite lookup_insert_eq. intros [= <-]. apply SortFunc_sorted.
  - rewrite lookup_insert_ne by done. apply Hs.
Qed.

Lemma addDomainAddrLocked_nodup e d a :
  nodupDomains e → a ∉ domainAddrs d e →
  nodupDomains (addDomainAddrLocked d a e).
Proof.
  intros Hn Hnotin d' l. rewrite addDomainAddrLocked_domains.
  destruct (decide (d = d')) as [->|Hne].
  - rewrite lookup_insert_eq. intros [= <-].
    rewrite SortFunc_perm. apply NoDup_app. split; [by apply domainAddrs_nodup|].
    split; [|apply NoDup_singleton].
    intros x Hx Hx'. apply list_elem_of_singleton in Hx'. by subst.
  - rewrite lookup_insert_ne by done. apply Hn.
Qed.

Lemma deleteDomainAddrLocked_nodup e d a :
  nodupDomains e → nodupDomains (deleteDomainAddrLocked d a e).
Proof.
  intros Hn d' l. rewrite deleteDomainAddrLocked_domains. cbv zeta.
  destruct (slices.BinarySearchFunc _ _ _) as [ind ok]; simpl.
  destruct ok; [|apply Hn].
  destruct (decide (d = d')) as [->|Hne].
  - rewrite lookup_insert_eq. intros [= <-].
    rewrite SortFunc_perm. unfold slices.Delete.
    apply (sublist_NoDup _ (domainAddrs d' e)); [by apply domainAddrs_nodup|].
    rewrite <- (take_drop ind (domainAddrs d' e)) at 3.
    apply sublist_app; [done|].
    rewrite <- drop_drop. apply sublist_drop.
  - rewrite lookup_insert_ne by done. apply Hn.
Qed.

(** The other fields are untouched by the list operations. *)
Lemma addDomainAddrLocked_frame e d a :
  let e' := addDomainAddrLocked d a e in
  routeAdvertiser e' = routeAdvertiser e ∧ controlRoutes e' = controlRoutes e
  ∧ wildcards e' = wildcards e ∧ queue e' = queue e ∧ inflight e' = inflight e.
Proof. by repeat split. Qed.

Lemma deleteDomainAddrLocked_frame e d a :
  let e' := deleteDomainAddrLocked d a e in
  routeAdvertiser e' = routeAdvertiser e ∧ controlRoutes e' = controlRoutes e
  ∧ wildcards e' = wildcards e ∧ queue e' = queue e ∧ inflight e' = inflight e.
Proof.
  unfold deleteDomainAddrLocked.
  destruct (slices.BinarySearchFunc _ _ _) as [ind ok].
  destruct ok; by repeat split.
Qed.

Lemma applyOps_sorted ops e : sortedDomains e → sortedDomains (applyOps ops e).
Proof.
  unfold applyOps. revert e.
  induction ops as [|op ops IH]; intros e Hs; simpl; [done|].
  apply IH. destruct op; simpl.
  - by apply addDomainAddrLocked_sorted.
  - by apply deleteDomainAddrLocked_sorted.
Qed.

End addrlists.

(** ** updateDomains: what the new maps hold *)
Section update_domains.
Context `{Ext : Externals} `{DNS : ParserOps}.

Lemma occurrences_0 k l : occurrences k l = O ↔ k ∉ l.
Proof.
  induction l as [|x l IH]; simpl.
  - split; [intros _; apply not_elem_of_nil|done].
  - rewrite not_elem_of_cons. destruct (decide (x = k)) as [->|Hne].
    + split; [discriminate|]. intros [? _]. congruence.
    + simpl. rewrite IH. split; [intros ?; split; [congruence|done]|by intros [_ ?]].
Qed.

Lemma occurrences_app k l1 l2 :
  occurrences k (l1 ++ l2) = (occurrences k l1 + occurrences k l2)%nat.
Proof. induction l1 as [|x l1 IH]; simpl; [done|]. rewrite IH. lia. Qed.

(** The value an exact name ends with: its old value when it is listed
    once, the zero value when it is listed again. *)
Lemma exactStep_fold {V : Type} (dflt : V) names :
  ∀ new old,
    let st := foldl (exactStep dflt) (new, old) names in
    (∀ k, st.2 !! k = if decide (k ∈ names) then None else old !! k)
    ∧ (∀ k, st.1 !! k =
            if decide (k ∈ names)
            then Some (if decide (occurrences k names = 1%nat)
                       then default dflt (old !! k) else dflt)
            else new !! k).
Proof.
  induction names as [|d names IH]; intros new old; cbv zeta.
  - cbn [foldl fst snd].
    split; intros k; destruct (decide (k ∈ [])) as [Hk|]; try done;
      by apply elem_of_nil in Hk.
  - simpl foldl. unfold exactStep at 2 4. simpl fst. simpl snd.
    specialize (IH (<[d := default dflt (old !! d)]> new) (delete d old)).
    cbv zeta in IH. destruct IH as [IHold IHnew].
    split; intros k.
    + rewrite IHold. destruct (decide (k = d)) as [->|Hne].
      * rewrite lookup_delete_eq.
        destruct (decide (d ∈ names)) as [?|?],
                 (decide (d ∈ d :: names)) as [?|?];
          try done; exfalso; set_solver.
      * rewrite lookup_delete_ne by done.
        destruct (decide (k ∈ names)) as [?|?],
                 (decide (k ∈ d :: names)) as [Hk|Hk];
          try done; exfalso; rewrite elem_of_cons in Hk; tauto.
    + rewrite IHnew. cbn [occurrences].
      destruct (decide (k = d)) as [->|Hne].
      * rewrite lookup_delete_eq, lookup_insert_eq. cbn [default].
        destruct (decide (d = d)) as [_|]; [|done].
        destruct (decide (d ∈ d :: names)) as [_|Hn]; [|exfalso; set_solver].
        destruct (decide (d ∈ names)) as [Hin|Hnin].
        -- assert (occurrences d names ≠ O) as Hocc.
           { intros H0. apply occurrences_0 in H0. done. }
           destruct (decide ((1 + occurrences d names)%nat = 1%nat)); [lia|].
           by destruct (decide (occurrences d names = 1%nat)).
        -- apply occurrences_0 in Hnin. rewrite Hnin.
           by destruct (decide ((1 + 0)%nat = 1%nat)).
      * rewrite lookup_delete_ne, lookup_insert_ne by done.
        destruct (decide (d = k)) as [?|_]; [congruence|].
        cbn [Nat.add].
        destruct (decide (k ∈ names)) as [?|?],
                 (decide (k ∈ d :: names)) as [Hk|Hk];
          try done; exfalso; rewrite elem_of_cons in Hk; tauto.
Qed.

(** The first loop of [updateDomains] is that fold on each map pair. *)
Lemma domainsStep_fold ds :
  ∀ st,
    let st' := foldl domainsStep st ds in
    (newDomains st', oldDomains st')
    = foldl (exactStep []) (newDomains st, oldDomains st) (exactNames ds)
    ∧ (newDiscovered st', oldDiscovered st')
      = foldl (exactStep None) (newDiscovered st, oldDiscovered st) (exactNames ds)
    ∧ newWildcards st' = newWildcards st ++ wildcardNames ds.
Proof.
  induction ds as [|d ds IH]; intros st; cbv zeta.
  - simpl. by rewrite app_nil_r.
  - simpl foldl. specialize (IH (domainsStep st d)). cbv zeta in IH.
    destruct IH as (IH1 & IH2 & IH3). rewrite IH1, IH2, IH3.
    unfold exactNames, wildcardNames, domainsStep, isExact, isWildcard.
    simpl map. simpl List.filter.
    destruct (String.length (strs.ToLower d) =? 0)%nat eqn:El; simpl.
    { done. }
    destruct (strs.HasPrefix (strs.ToLower d) "*.") eqn:Ep; simpl.
    + by rewrite <- app_assoc.
    + done.
Qed.

(** The two wildcard loops: an old entry is kept under a matching
    wildcard, the other keys are left as the first loop set them. *)
Lemma carryWildcards_lookup {V : Type} wcs (old new : gmap string V) k :
  carryWildcards wcs old new !! k
  = match old !! k with
    | Some v => if existsb (dnsname_HasSuffix k) wcs then Some v else new !! k
    | None => new !! k
    end.
Proof.
  unfold carryWildcards.
  rewrite <- (list_to_map_to_list old) at 2.
  pose proof (NoDup_fst_map_to_list old) as Hnd.
  generalize dependent new.
  induction (map_to_list old) as [|[d v] l IH]; intros new; simpl.
  - by rewrite lookup_empty.
  - inversion Hnd as [|? ? Hnotin Hnd']; subst.
    rewrite IH by done.
    destruct (decide (d = k)) as [->|Hne].
    + rewrite lookup_insert_eq.
      rewrite (not_elem_of_list_to_map_1 _ k Hnotin).
      destruct (existsb _ wcs); [by rewrite lookup_insert_eq|done].
    + rewrite lookup_insert_ne by done.
      destruct (list_to_map l !! k) as [v'|] eqn:Ek;
        destruct (existsb (dnsname_HasSuffix d) wcs);
        rewrite ?lookup_insert_ne by done; done.
Qed.

Lemma updateDomains_spec ds e :
  let e' := updateDomains ds e in
  (∀ k, domains e' !! k = domainsAfter [] ds (domains e) k)
  ∧ (∀ k, Discovered (store (routeAdvertiser e')) !! k
          = domainsAfter None ds (Discovered (store (routeAdvertiser e))) k)
  ∧ wildcards e' = wildcardNames ds
  ∧ Corp (store (routeAdvertiser e')) = Corp (store (routeAdvertiser e))
  ∧ calls (routeAdvertiser e')
    = calls (routeAdvertiser e)
      ++ [CallReadRouteInfoFromStore;
          CallUpdateRoutesInfoToStore (store (routeAdvertiser e'))]
  ∧ controlRoutes e' = controlRoutes e
  ∧ queue e' = queue e ∧ inflight e' = inflight e.
Proof.
  cbv zeta. unfold updateDomains. simpl.
  set (st0 := mkDomainsLoop ∅ ∅ (domains e)
                (Discovered (store (routeAdvertiser e))) []).
  destruct (domainsStep_fold ds st0) as (H1 & H2 & H3). cbv zeta in *.
  set (st := foldl domainsStep st0 ds) in *.
  destruct (exactStep_fold (V := list Addr) [] (exactNames ds) ∅ (domains e))
    as [Hold Hnew].
  destruct (exactStep_fold (V := option DatedRoute) None (exactNames ds) ∅
              (Discovered (store (routeAdvertiser e)))) as [Hold' Hnew'].
  cbv zeta in *. simpl in H1, H2, H3.
  rewrite <- H1 in Hold, Hnew. rewrite <- H2 in Hold', Hnew'. simpl in *.
  repeat split.
  - intros k. rewrite carryWildcards_lookup, Hold, Hnew, H3.
    unfold domainsAfter. destruct (decide (k ∈ exactNames ds)); [done|].
    rewrite lookup_empty. by destruct (domains e !! k).
  - intros k. rewrite carryWildcards_lookup, Hold', Hnew', H3.
    unfold domainsAfter. destruct (decide (k ∈ exactNames ds)); [done|].
    rewrite lookup_empty. by destruct (Discovered _ !! k).
  - done.
  - by rewrite <- app_assoc.
Qed.

End update_domains.

(** ** Replacing the domain list *)
Section domain_claims.
Context `{Ext : Externals} `{DNS : ParserOps}.

Lemma HasPrefix_nonempty s p :
  p ≠ "" → strs.HasPrefix s p = true → (String.length s =? 0)%nat = false.
Proof.
  unfold strs.HasPrefix. destruct p as [|c p]; [done|].
  intros _. destruct s; simpl; [discriminate|done].
Qed.

Lemma exactNames_lower ds k : k ∈ exactNames ds → k ∈ map strs.ToLower ds.
Proof.
  unfold exactNames. rewrite !list_elem_of_In, filter_In. by intros [? _].
Qed.

Lemma wildcardNames_elem ds w :
  w ∈ ds → strs.HasPrefix (strs.ToLower w) "*." = true →
  strs.dropStr 2 (strs.ToLower w) ∈ wildcardNames ds.
Proof.
  intros Hw Hp. unfold wildcardNames.
  apply list_elem_of_In, in_map, filter_In. split.
  - apply in_map. by apply list_elem_of_In.
  - unfold isWildcard. rewrite Hp.
    by rewrite (HasPrefix_nonempty _ "*.") by done.
Qed.

Lemma domainsAfter_carried {V : Type} (dflt : V) ds old d v w :
  old !! d = Some v →
  d ∉ map strs.ToLower ds →
  w ∈ ds → strs.HasPrefix (strs.ToLower w) "*." = true →
  dnsname_HasSuffix d (strs.dropStr 2 (strs.ToLower w)) = true →
  domainsAfter dflt ds old d = Some v.
Proof.
  intros Hd Hnot Hw Hp Hs. unfold domainsAfter.
  destruct (decide (d ∈ exactNames ds)) as [Hin|_].
  { by apply exactNames_lower in Hin. }
  rewrite Hd.
  assert (existsb (dnsname_HasSuffix d) (wildcardNames ds) = true) as ->; [|done].
  apply existsb_exists. eexists. split; [|exact Hs].
  apply list_elem_of_In. by apply wildcardNames_elem.
Qed.

Lemma domainsAfter_twice {V : Type} (dflt : V) ds old d :
  (2 <= occurrences d (exactNames ds))%nat →
  domainsAfter dflt ds old d = Some dflt.
Proof.
  intros Hocc. unfold domainsAfter.
  destruct (decide (d ∈ exactNames ds)) as [Hin|Hnin].
  - destruct (decide (occurrences d (exactNames ds) = 1%nat)); [lia|done].
  - apply occurrences_0 in Hnin. lia.
Qed.

Lemma domainsAfter_idem {V : Type} (dflt : V) ds (old mid : gmap string V) :
  (∀ k, mid !! k = domainsAfter dflt ds old k) →
  ∀ k, domainsAfter dflt ds mid k = mid !! k.
Proof.
  intros Hmid k. rewrite (Hmid k). unfold domainsAfter. rewrite (Hmid k).
  unfold domainsAfter.
  destruct (decide (k ∈ exactNames ds)) as [Hin|Hnin].
  - by destruct (decide (occurrences k (exactNames ds) = 1%nat)).
  - destruct (old !! k) as [v|]; [|done].
    by destruct (existsb (dnsname_HasSuffix k) (wildcardNames ds)).
Qed.

Lemma occurrences_exact_twice l1 x l2 y l3 d :
  strs.ToLower x = d → strs.ToLower y = d → isExact d = true →
  (2 <= occurrences d (exactNames (l1 ++ x :: l2 ++ y :: l3)))%nat.
Proof.
  intros Hx Hy Hd. unfold exactNames.
  rewrite List.map_app, List.filter_app, occurrences_app. simpl.
  rewrite Hx, Hd. simpl. rewrite decide_True by done.
  rewrite List.map_app, List.filter_app, occurrences_app. simpl.
  rewrite Hy, Hd. simpl. rewrite decide_True by done. lia.
Qed.

Lemma domainsStep_exact st n :
  isExact (strs.ToLower n) = true →
  domainsStep st n
  = mkDomainsLoop
      (<[strs.ToLower n := default [] (oldDomains st !! strs.ToLower n)]>
         (newDomains st))
      (<[strs.ToLower n := default None (oldDiscovered st !! strs.ToLower n)]>
         (newDiscovered st))
      (delete (strs.ToLower n) (oldDomains st))
      (delete (strs.ToLower n) (oldDiscovered st))
      (newWildcards st).
Proof.
  unfold isExact, domainsStep. intros [H1 H2]%andb_true_iff.
  apply negb_true_iff in H1, H2. cbv zeta. by rewrite H1, H2.
Qed.

Lemma domainsStep_other st n d :
  strs.ToLower n ≠ d →
  newDomains (domainsStep st n) !! d = newDomains st !! d
  ∧ newDiscovered (domainsStep st n) !! d = newDiscovered st !! d
  ∧ oldDomains (domainsStep st n) !! d = oldDomains st !! d
  ∧ oldDiscovered (domainsStep st n) !! d = oldDiscovered st !! d.
Proof.
  intros Hne. unfold domainsStep. cbv zeta.
  destruct (String.length _ =? 0)%nat; [done|].
  destruct (strs.HasPrefix _ _); [done|]. simpl.
  by rewrite !lookup_insert_ne, !lookup_delete_ne.
Qed.

Lemma domainsStep_fold_other l d :
  ∀ st, d ∉ map strs.ToLower l →
  newDomains (foldl domainsStep st l) !! d = newDomains st !! d
  ∧ newDiscovered (foldl domainsStep st l) !! d = newDiscovered st !! d
  ∧ oldDomains (foldl domainsStep st l) !! d = oldDomains st !! d
  ∧ oldDiscovered (foldl domainsStep st l) !! d = oldDiscovered st !! d.
Proof.
  induction l as [|n l IH]; intros st Hn; simpl; [done|].
  simpl in Hn. apply not_elem_of_cons in Hn as [Hne Hn].
  destruct (IH (domainsStep st n) Hn) as (-> & -> & -> & ->).
  by apply domainsStep_other.
Qed.

Lemma domainsStep_fold_old_none l d :
  ∀ st, oldDomains st !! d = None → oldDiscovered st !! d = None →
  oldDomains (foldl domainsStep st l) !! d = None
  ∧ oldDiscovered (foldl domainsStep st l) !! d = None.
Proof.
  induction l as [|n l IH]; intros st H1 H2; simpl; [done|].
  apply IH; unfold domainsStep; cbv zeta;
    destruct (String.length _ =? 0)%nat; try done;
    destruct (strs.HasPrefix _ _); try done; simpl;
    by apply lookup_delete_None; right.
Qed.

(** C1.  The new list holds ASCII names.  A domain with discovered
    addresses and a discovered-route record that is no longer listed as an
    exact name (after the lower-casing the update applies to its input) but
    is matched by a wildcard entry of the new list keeps both, unchanged,
    in the new exact-domain map and the new discovered-route map. *)
Theorem updateDomains_wildcard_carries_forward
        (e : AppConnector) (ds : list string) (d w : string)
        (addrs : list Addr) (dr : option DatedRoute) :
  Forall (λ s, strs.isASCII s = true) ds →
  domains e !! d = Some addrs →
  Discovered (store (routeAdvertiser e)) !! d = Some dr →
  d ∉ map strs.ToLower ds →
  w ∈ ds →
  strs.HasPrefix (strs.ToLower w) "*." = true →
  dnsname_HasSuffix d (strs.dropStr 2 (strs.ToLower w)) = true →
  domains (updateDomains ds e) !! d = Some addrs
  ∧ Discovered (store (routeAdvertiser (updateDomains ds e))) !! d = Some dr.
Proof.
  intros _ Hd Hdr Hnot Hw Hp Hs.
  destruct (updateDomains_spec ds e) as (Hdom & Hdisc & _).
  rewrite Hdom, Hdisc.
  split; eapply domainsAfter_carried; eauto.
Qed.

(** C9.  The list holds ASCII names and the same exact domain twice.  The
    first occurrence carries the domain's address list and record into the
    new maps and deletes the name from the old ones; a later occurrence
    finds nothing in the old maps and overwrites the new entries with the
    nil values; the update leaves the domain with an empty address list and
    a nil discovered-route record, whatever was discovered for it before. *)
Theorem updateDomains_duplicate_loses_discovery
        (e : AppConnector) (l1 l2 l3 : list string) (x y d : string) :
  Forall (λ s, strs.isASCII s = true) (l1 ++ x :: l2 ++ y :: l3) →
  d ∉ map strs.ToLower l1 →
  strs.ToLower x = d → strs.ToLower y = d → isExact d = true →
  let st0 := mkDomainsLoop ∅ ∅ (domains e)
                           (Discovered (store (routeAdvertiser e))) [] in
  let st1 := foldl domainsStep st0 (l1 ++ [x]) in
  let st2 := foldl domainsStep st0 (l1 ++ x :: l2 ++ [y]) in
  let e' := updateDomains (l1 ++ x :: l2 ++ y :: l3) e in
  (newDomains st1 !! d = Some (domainAddrs d e)
   ∧ newDiscovered st1 !! d
     = Some (default None (Discovered (store (routeAdvertiser e)) !! d))
   ∧ oldDomains st1 !! d = None ∧ oldDiscovered st1 !! d = None)
  ∧ (newDomains st2 !! d = Some [] ∧ newDiscovered st2 !! d = Some None)
  ∧ domains e' !! d = Some []
  ∧ Discovered (store (routeAdvertiser e')) !! d = Some None.
Proof.
  intros _ Hl1 Hx Hy Hd st0 st1 st2 e'. subst e'.
  destruct (domainsStep_fold_other l1 d st0 Hl1) as (Hn1 & Hnd1 & Ho1 & Hod1).
  assert (st1 = domainsStep (foldl domainsStep st0 l1) x) as E1
      by (unfold st1; by rewrite foldl_app).
  assert (st2 = domainsStep (foldl domainsStep st1 l2) y) as E2.
  { unfold st2, st1. rewrite !foldl_app. simpl. by rewrite foldl_app. }
  assert (oldDomains st1 !! d = None ∧ oldDiscovered st1 !! d = None) as [Hod Hodd].
  { rewrite E1, (domainsStep_exact _ x) by (by rewrite Hx). simpl.
    rewrite Hx. by rewrite !lookup_delete_eq. }
  split; [|split].
  - rewrite E1, (domainsStep_exact _ x) by (by rewrite Hx). simpl. rewrite Hx.
    rewrite !lookup_insert_eq, !lookup_delete_eq, Ho1, Hod1. done.
  - destruct (domainsStep_fold_old_none l2 d st1 Hod Hodd) as [H2 H2'].
    rewrite E2, (domainsStep_exact _ y) by (by rewrite Hy). simpl. rewrite Hy.
    by rewrite !lookup_insert_eq, H2, H2'.
  - destruct (updateDomains_spec (l1 ++ x :: l2 ++ y :: l3) e) as (Hdom & Hdisc & _).
    rewrite Hdom, Hdisc.
    split; apply domainsAfter_twice; by apply occurrences_exact_twice.
Qed.

(** C6.  A second [updateDomains] with the same list leaves the
    exact-domain map, the wildcard list and the persisted snapshot as the
    first one left them, and its only calls to the collaborator are the
    read and the write of the snapshot. *)
Theorem updateDomains_idempotent (e : AppConnector) (ds : list string) :
  let e1 := updateDomains ds e in
  let e2 := updateDomains ds e1 in
  domains e2 = domains e1
  ∧ wildcards e2 = wildcards e1
  ∧ store (routeAdvertiser e2) = store (routeAdvertiser e1)
  ∧ calls (routeAdvertiser e2)
    = calls (routeAdvertiser e1)
      ++ [CallReadRouteInfoFromStore;
          CallUpdateRoutesInfoToStore (store (routeAdvertiser e1))].
Proof.
  intros e1 e2.
  destruct (updateDomains_spec ds e) as (Hdom1 & Hdisc1 & Hw1 & Hc1 & _).
  destruct (updateDomains_spec ds e1) as (Hdom2 & Hdisc2 & Hw2 & Hc2 & Hcalls & _).
  fold e1 in Hdom1, Hdisc1, Hw1, Hc1. fold e2 in Hdom2, Hdisc2, Hw2, Hc2, Hcalls.
  assert (domains e2 = domains e1) as Hd.
  { apply map_eq. intros k. rewrite Hdom2.
    by apply (domainsAfter_idem [] ds (domains e)). }
  assert (store (routeAdvertiser e2) = store (routeAdvertiser e1)) as Hs.
  { destruct (store (routeAdvertiser e2)) as [c2 d2] eqn:E2,
             (store (routeAdvertiser e1)) as [c1 d1] eqn:E1.
    simpl in *. f_equal; [done|].
    apply map_eq. intros k. rewrite Hdisc2.
    by apply (domainsAfter_idem None ds (Discovered (store (routeAdvertiser e)))). }
  repeat split; [done|congruence|done|].
  by rewrite Hcalls, Hs.
Qed.

End domain_claims.

(** ** Replacing the operator routes *)
Section route_claims.
Context `{Ext : Externals} `{DNS : ParserOps}.

Lemma find_app_first {A} (f : A → bool) l1 l2 :
  List.find f (l1 ++ l2)
  = match List.find f l1 with Some x => Some x | None => List.find f l2 end.
Proof. induction l1 as [|x l1 IH]; simpl; [done|]. by destruct (f x). Qed.

Lemma find_first_split {A} (f : A → bool) l a :
  List.find f l = Some a →
  ∃ pre post, l = pre ++ a :: post ∧ Forall (λ b, f b = false) pre ∧ f a = true.
Proof.
  induction l as [|x l IH]; simpl; [discriminate|].
  destruct (f x) eqn:Ex.
  - intros [= ->]. exists [], l. by repeat split.
  - intros Hf. destruct (IH Hf) as (pre & post & -> & Hpre & Ha).
    exists (x :: pre), post. repeat split; [|done]. by constructor.
Qed.

Lemma scanAddrs_find r addr : scanAddrs r addr = firstSubsumed addr r.
Proof.
  unfold firstSubsumed, subsumes.
  induction addr as [|a addr IH]; simpl; [done|].
  by destruct (Contains r a && negb (Prefix_eqb (PrefixFrom a (BitLen a)) r)).
Qed.

Lemma scanDomains_find r doms :
  scanDomains r doms = firstSubsumed (concat (map snd doms)) r.
Proof.
  induction doms as [|[d addr] doms IH]; simpl; [done|].
  rewrite scanAddrs_find, IH. unfold firstSubsumed.
  rewrite find_app_first. by destruct (List.find (subsumes r) addr).
Qed.

Lemma scanRoutes_omap seed i routes doms toRemove :
  scanRoutes seed i routes doms toRemove
  = toRemove
    ++ omap id (imap (λ j r, firstSubsumed
                               (concat (map snd (rangeOrder seed (i + j) doms))) r)
                     routes).
Proof.
  revert i toRemove.
  induction routes as [|r routes IH]; intros i toRemove; simpl.
  - by rewrite app_nil_r.
  - rewrite scanDomains_find, Nat.add_0_r. csimpl.
    assert (imap ((λ j r0, firstSubsumed
                             (concat (map snd (rangeOrder seed (i + j) doms))) r0)
                    ∘ S) routes
            = imap (λ j r0, firstSubsumed
                              (concat (map snd (rangeOrder seed (S i + j) doms))) r0)
                   routes) as ->.
    { apply imap_ext. intros j x _. simpl. by rewrite Nat.add_succ_r. }
    destruct (firstSubsumed _ r) as [pfx|]; rewrite IH; simpl; [|done].
    by rewrite <- app_assoc.
Qed.

Lemma omap_length_le {A B} (f : A → option B) l :
  (length (omap f l) <= length l)%nat.
Proof. induction l as [|x l IH]; csimpl; [done|]. destruct (f x); simpl; lia. Qed.

Lemma updateRoutes_spec routes e :
  slices.Equal (controlRoutes e) routes = false →
  let e' := updateRoutes routes e in
  let pre := callsBeforeAdvertise routes e in
  let ri := mkRouteInfo routes (Discovered (store (routeAdvertiser e))) in
  domains e' = domains e ∧ wildcards e' = wildcards e
  ∧ queue e' = queue e ∧ inflight e' = inflight e
  ∧ if advertiseFails pre routes
    then controlRoutes e' = controlRoutes e
         ∧ store (routeAdvertiser e') = store (routeAdvertiser e)
         ∧ calls (routeAdvertiser e') = pre ++ [CallAdvertiseRoute routes]
    else controlRoutes e' = routes
         ∧ store (routeAdvertiser e') = ri
         ∧ calls (routeAdvertiser e')
           = pre ++ [CallAdvertiseRoute routes;
                     CallUnadvertiseRoute
                       (scanRoutes (pre ++ [CallAdvertiseRoute routes]) 0 routes
                                   (map_to_list (domains e)) []);
                     CallUpdateRoutesInfoToStore ri].
Proof.
  intros Hne. cbv zeta. unfold updateRoutes, callsBeforeAdvertise. rewrite Hne.
  simpl. rewrite <- !app_assoc. simpl.
  destruct (advertiseFails _ routes); simpl; repeat split; try done.
  by rewrite <- !app_assoc.
Qed.

Lemma scanRoutes_finds routes e :
  scanRoutes (callsBeforeAdvertise routes e ++ [CallAdvertiseRoute routes]) 0
             routes (map_to_list (domains e)) []
  = omap id (scanFinds routes e).
Proof. by rewrite scanRoutes_omap. Qed.

Lemma scanOrder_entries routes i e :
  ∃ entries, entries ≡ₚ map_to_list (domains e)
             ∧ scanOrder routes i e = concat (map snd entries).
Proof. eexists. split; [apply rangeOrder_perm|done]. Qed.

(** C4.  In a reconciliation whose advertise call fails, [controlRoutes]
    and the persisted snapshot stay as they were and no snapshot is
    written: the advertise call is the last call made.  When it succeeds,
    both are set to the new prefix set, and the snapshot is written after
    the advertise call. *)
Theorem updateRoutes_baseline_follows_advertise
        (routes : list Prefix) (e : AppConnector) :
  slices.Equal (controlRoutes e) routes = false →
  let e' := updateRoutes routes e in
  let pre := callsBeforeAdvertise routes e in
  if advertiseFails pre routes
  then controlRoutes e' = controlRoutes e
       ∧ store (routeAdvertiser e') = store (routeAdvertiser e)
       ∧ calls (routeAdvertiser e') = pre ++ [CallAdvertiseRoute routes]
  else controlRoutes e' = routes
       ∧ Corp (store (routeAdvertiser e')) = routes
       ∧ ∃ toRemove,
           calls (routeAdvertiser e')
           = pre ++ [CallAdvertiseRoute routes;
                     CallUnadvertiseRoute toRemove;
                     CallUpdateRoutesInfoToStore (store (routeAdvertiser e'))].
Proof.
  intros Hne. destruct (updateRoutes_spec routes e Hne) as (_ & _ & _ & _ & H).
  cbv zeta in *. destruct (advertiseFails _ routes); [done|].
  destruct H as (Hc & Hs & Hcalls). rewrite Hs. repeat split; [done|].
  eexists. exact Hcalls.
Qed.

(** C3.  After a successful advertise of the new prefix set, the prefixes
    unadvertised as subsumed are, for each new prefix [r] in turn, at most
    one: the single-address prefix of the first address that [r] contains
    and whose single-address prefix is not [r], first in the order in which
    the scan for [r] ranges over [e.domains] (some arrangement of its
    entries, not the same for every [r]) and then along each list; the scan
    for [r] never returns [r] itself. *)
Theorem updateRoutes_unadvertises_first_subsumed
        (routes : list Prefix) (e : AppConnector) :
  slices.Equal (controlRoutes e) routes = false →
  advertiseFails (callsBeforeAdvertise routes e) routes = false →
  let e' := updateRoutes routes e in
  let toRemove := omap id (scanFinds routes e) in
  calls (routeAdvertiser e')
  = callsBeforeAdvertise routes e
    ++ [CallAdvertiseRoute routes;
        CallUnadvertiseRoute toRemove;
        CallUpdateRoutesInfoToStore (store (routeAdvertiser e'))]
  ∧ (length toRemove <= length routes)%nat
  ∧ (∀ i, ∃ entries, entries ≡ₚ map_to_list (domains e)
                     ∧ scanOrder routes i e = concat (map snd entries))
  ∧ (∀ i r a, routes !! i = Some r →
              List.find (subsumes r) (scanOrder routes i e) = Some a →
              Contains r a = true
              ∧ PrefixFrom a (BitLen a) ≠ r
              ∧ ∃ before after,
                  scanOrder routes i e = before ++ a :: after
                  ∧ Forall (λ b, Contains r b = false
                                 ∨ PrefixFrom b (BitLen b) = r) before)
  ∧ (∀ i r, routes !! i = Some r →
            firstSubsumed (scanOrder routes i e) r ≠ Some r).
Proof.
  intros Hne Hok. destruct (updateRoutes_spec routes e Hne) as (_ & _ & _ & _ & H).
  cbv zeta in *. rewrite Hok in H. destruct H as (_ & Hs & Hcalls).
  rewrite scanRoutes_finds in Hcalls. rewrite Hs.
  split; [exact Hcalls|]. split.
  { etransitivity; [apply omap_length_le|].
    unfold scanFinds. by rewrite length_imap. }
  split; [intros i; apply scanOrder_entries|]. split.
  - intros i r a Hr Hf.
    apply find_first_split in Hf as (pre & post & Heq & Hpre & Ha).
    unfold subsumes in Ha. apply andb_true_iff in Ha as [Hc Ha].
    apply negb_true_iff in Ha.
    split; [done|]. split.
    + intros Heq'. apply Prefix_eqb_eq in Heq'. congruence.
    + exists pre, post. split; [done|].
      eapply Forall_impl; [exact Hpre|]. intros b Hb. unfold subsumes in Hb.
      apply andb_false_iff in Hb as [Hb|Hb]; [by left|right].
      apply negb_false_iff in Hb. by apply Prefix_eqb_eq.
  - intros i r Hr. unfold firstSubsumed.
    destruct (List.find (subsumes r) _) as [a|] eqn:Ef; [|done].
    simpl. intros [= Heq].
    apply find_first_split in Ef as (pre & post & _ & _ & Ha).
    unfold subsumes in Ha. apply andb_true_iff in Ha as [_ Ha].
    apply negb_true_iff in Ha.
    assert (Prefix_eqb (PrefixFrom a (BitLen a)) r = true) by (by apply Prefix_eqb_eq).
    congruence.
Qed.

End route_claims.

(** ** The list invariant along every step *)
Section invariant.
Context `{Ext : Externals} `{DNS : ParserOps}.

Lemma listsInv_domains e e' : domains e' = domains e → listsInv e → listsInv e'.
Proof.
  intros Heq [Hs Hn]. split; intros d l; rewrite Heq; [apply Hs|apply Hn].
Qed.

Lemma listsInv_insert_nil e d :
  listsInv e → listsInv (set_domains (<[d := []]> (domains e)) e).
Proof.
  intros [Hs Hn]. split; intros d' l; simpl;
    (destruct (decide (d = d')) as [->|Hne];
     [rewrite lookup_insert_eq; intros [= <-]; constructor
     |rewrite lookup_insert_ne by done]).
  - apply Hs.
  - apply Hn.
Qed.

Lemma listsInv_new ra : listsInv (NewAppConnector ra).
Proof. split; intros d l; simpl; by rewrite lookup_empty. Qed.

Lemma updateDomains_listsInv ds e : listsInv e → listsInv (updateDomains ds e).
Proof.
  intros [Hs Hn]. destruct (updateDomains_spec ds e) as (Hdom & _).
  split; intros d l; rewrite Hdom; unfold domainsAfter;
    repeat case_decide; destruct (domains e !! d) as [l'|] eqn:El; simpl;
      try destruct (existsb _ _); intros [= <-];
        eauto; constructor.
Qed.

Lemma updateRoutes_domains routes e :
  domains (updateRoutes routes e) = domains e.
Proof.
  destruct (slices.Equal (controlRoutes e) routes) eqn:Heq.
  - unfold updateRoutes. by rewrite Heq.
  - by destruct (updateRoutes_spec routes e Heq) as (? & _).
Qed.

Lemma updateRoutes_listsInv routes e : listsInv e → listsInv (updateRoutes routes e).
Proof. apply listsInv_domains, updateRoutes_domains. Qed.

Lemma matchWildcards_cases domain wcs doms :
  matchWildcards domain wcs doms = (doms, false)
  ∨ matchWildcards domain wcs doms = (<[domain := []]> doms, true).
Proof.
  induction wcs as [|wc wcs IH]; simpl; [by left|].
  destruct (dnsname_HasSuffix domain wc); [by right|done].
Qed.

Lemma findRoutedDomainLocked_listsInv fuel :
  ∀ domain chain e d r e',
    findRoutedDomainLocked fuel domain chain e = Some (d, r, e') →
    listsInv e → listsInv e'.
Proof.
  induction fuel as [|fuel IH]; intros domain chain e d r e'; simpl; [done|].
  case_bool_decide; [by intros [= _ _ <-]|].
  destruct (matchWildcards_cases domain (wildcards e) (domains e)) as [-> | ->];
    (destruct (chain !! domain) as [next|];
     [intros Hf Hi; eapply IH; [exact Hf|] | intros [= _ _ <-] Hi]);
    try by apply listsInv_insert_nil.
  all: by eapply listsInv_domains; [|exact Hi].
Qed.

Lemma addDomainAddrLocked_listsInv e d a :
  listsInv e → a ∉ domainAddrs d e → listsInv (addDomainAddrLocked d a e).
Proof.
  intros [Hs Hn] Ha. split;
    [by apply addDomainAddrLocked_sorted|by apply addDomainAddrLocked_nodup].
Qed.

Lemma deleteDomainAddrLocked_listsInv e d a :
  listsInv e → listsInv (deleteDomainAddrLocked d a e).
Proof.
  intros [Hs Hn]. split;
    [by apply deleteDomainAddrLocked_sorted|by apply deleteDomainAddrLocked_nodup].
Qed.

Lemma isAddrKnownLocked_listsInv e d a :
  listsInv e → listsInv (isAddrKnownLocked d a e).2.
Proof.
  intros Hi. unfold isAddrKnownLocked.
  destruct (hasDomainAddrLocked d a e) eqn:Hh; [done|].
  destruct (existsb _ _); [|done]. simpl.
  apply addDomainAddrLocked_listsInv; [done|].
  intros Hin. apply hasDomainAddrLocked_elem in Hin; [|apply Hi]. congruence.
Qed.

Lemma classifyAddrs_listsInv d addrs :
  ∀ adv upd e, listsInv e → listsInv (classifyAddrs d addrs adv upd e).2.
Proof.
  induction addrs as [|a addrs IH]; intros adv upd e Hi; simpl; [done|].
  pose proof (isAddrKnownLocked_listsInv e d a Hi) as Hi'.
  destruct (isAddrKnownLocked d a e) as [known e1]. simpl in Hi'.
  destruct known; simpl; by apply IH.
Qed.

Lemma observeRecord_listsInv fuel now chain domain addrs e e' :
  observeRecord fuel now chain domain addrs e = Some e' →
  listsInv e → listsInv e'.
Proof.
  unfold observeRecord.
  destruct (findRoutedDomainLocked fuel domain chain e) as [[[d r] e1]|] eqn:Ef;
    [|done].
  intros Ho Hi. pose proof (findRoutedDomainLocked_listsInv _ _ _ _ _ _ _ Ef Hi) as Hi1.
  destruct r; simpl in Ho; [|by injection Ho as <-].
  pose proof (classifyAddrs_listsInv d addrs [] [] e1 Hi1) as Hi2.
  destruct (classifyAddrs d addrs [] [] e1) as [[adv upd] e2]. simpl in *.
  destruct (OutDatedRoutesInDiscoveredForDomain _ _ _) as [ri out].
  injection Ho as <-. by eapply listsInv_domains; [|exact Hi2].
Qed.

Lemma observeRecords_listsInv fuel now chain records :
  ∀ e e', observeRecords fuel now chain records e = Some e' →
          listsInv e → listsInv e'.
Proof.
  induction records as [|[d addrs] records IH]; intros e e'; simpl.
  - by intros [= <-].
  - destruct (observeRecord fuel now chain d addrs e) as [e1|] eqn:Eo; [|done].
    intros Ho Hi. eapply IH; [exact Ho|]. by eapply observeRecord_listsInv.
Qed.

Lemma ObserveDNSResponse_listsInv fuel now res e e' :
  ObserveDNSResponse fuel now res e = Some e' → listsInv e → listsInv e'.
Proof.
  unfold ObserveDNSResponse. destruct (parseResponse fuel res); [|..|done].
  - by intros [= <-].
  - apply observeRecords_listsInv.
Qed.

Lemma advertisedLocked_listsInv d routes :
  ∀ e, listsInv e → listsInv (advertisedLocked d routes e).
Proof.
  induction routes as [|r routes IH]; intros e Hi; simpl; [done|].
  destruct (IsSingleIP r); simpl; [|by apply IH].
  destruct (hasDomainAddrLocked d (Addr_of r) e) eqn:Hh; simpl; [by apply IH|].
  apply IH, addDomainAddrLocked_listsInv; [done|].
  intros Hin. apply hasDomainAddrLocked_elem in Hin; [|apply Hi]. congruence.
Qed.

Lemma unadvertisedLocked_listsInv d routes :
  ∀ e, listsInv e → listsInv (unadvertisedLocked d routes e).
Proof.
  induction routes as [|r routes IH]; intros e Hi; simpl; [done|].
  destruct (IsSingleIP r); simpl; [|by apply IH].
  by apply IH, deleteDomainAddrLocked_listsInv.
Qed.

Lemma startTask_listsInv t e : listsInv e → listsInv (startTask t e).
Proof.
  intros Hi. destruct t as [ds routes|ds|d routes|d routes]; simpl.
  - by apply updateDomains_listsInv, updateRoutes_listsInv.
  - by apply updateDomains_listsInv.
  - destruct (advertiseFails _ _); by eapply listsInv_domains; [|exact Hi].
  - destruct (unadvertiseFails _ _); by eapply listsInv_domains; [|exact Hi].
Qed.

Lemma finishTask_listsInv l e : listsInv e → listsInv (finishTask l e).
Proof.
  intros Hi. destruct l; simpl;
    [by apply advertisedLocked_listsInv|by apply unadvertisedLocked_listsInv].
Qed.

Lemma workerStep_listsInv e : listsInv e → listsInv (workerStep e).
Proof.
  intros Hi. unfold workerStep. destruct (inflight e) as [l|].
  - apply finishTask_listsInv. by eapply listsInv_domains; [|exact Hi].
  - destruct (queue e) as [|t rest]; [done|].
    apply startTask_listsInv. by eapply listsInv_domains; [|exact Hi].
Qed.

Lemma step_listsInv ev e e' : step ev e = Some e' → listsInv e → listsInv e'.
Proof.
  destruct ev as [ds routes|ds|fuel now res|]; simpl.
  - intros [= <-] Hi. by eapply listsInv_domains; [|exact Hi].
  - intros [= <-] Hi. by eapply listsInv_domains; [|exact Hi].
  - apply ObserveDNSResponse_listsInv.
  - intros [= <-]. apply workerStep_listsInv.
Qed.

Lemma reachable_listsInv e : reachable e → listsInv e.
Proof.
  induction 1 as [ra|ev e e' _ IH Hstep]; [apply listsInv_new|].
  by eapply step_listsInv.
Qed.

End invariant.

(** ** Sorted lists, membership and duplicates *)
Section list_claims.
Context `{Ext : Externals} `{DNS : ParserOps}.

(** C7.  From sorted lists, any sequence of [addDomainAddrLocked] and
    [deleteDomainAddrLocked] leaves every per-domain list sorted, and the
    binary search of [hasDomainAddrLocked] gives the answer of a linear
    scan for every domain and address. *)
Theorem address_lists_stay_sorted (ops : list AddrOp) (e : AppConnector) :
  sortedDomains e →
  let e' := applyOps ops e in
  sortedDomains e'
  ∧ ∀ d a, hasDomainAddrLocked d a e' = linearHas d a e'.
Proof.
  intros Hs e'. assert (sortedDomains e') as Hs' by (by apply applyOps_sorted).
  split; [done|]. intros d a. by apply hasDomainAddrLocked_linear.
Qed.

Lemma isAddrKnownLocked_inserts_fresh e d a :
  sortedDomains e →
  (isAddrKnownLocked d a e).2 = e
  ∨ ((isAddrKnownLocked d a e).2 = addDomainAddrLocked d a e
     ∧ a ∉ domainAddrs d e).
Proof.
  intros Hs. unfold isAddrKnownLocked.
  destruct (hasDomainAddrLocked d a e) eqn:Hh; [by left|].
  destruct (existsb _ _); [|by left]. right. split; [done|].
  intros Hin. apply hasDomainAddrLocked_elem in Hin; [|done]. congruence.
Qed.

Lemma advertisedLocked_inserts_fresh e d r :
  sortedDomains e →
  advertisedLocked d [r] e = e
  ∨ (advertisedLocked d [r] e = addDomainAddrLocked d (Addr_of r) e
     ∧ Addr_of r ∉ domainAddrs d e).
Proof.
  intros Hs. simpl. destruct (IsSingleIP r); simpl; [|by left].
  destruct (hasDomainAddrLocked d (Addr_of r) e) eqn:Hh; simpl; [by left|].
  right. split; [done|].
  intros Hin. apply hasDomainAddrLocked_elem in Hin; [|done]. congruence.
Qed.

(** C8.  In every reachable state no per-domain list holds an address
    twice; and there both inserting paths, the control-route coverage in
    [isAddrKnownLocked] and the update after a scheduled advertisement,
    either leave the connector as it is or call [addDomainAddrLocked] with
    an address that the domain's list does not hold. *)
Theorem reachable_lists_without_duplicates (e : AppConnector) :
  reachable e →
  (∀ d l, domains e !! d = Some l → NoDup l)
  ∧ (∀ d a, (isAddrKnownLocked d a e).2 = e
            ∨ ((isAddrKnownLocked d a e).2 = addDomainAddrLocked d a e
               ∧ a ∉ domainAddrs d e))
  ∧ (∀ d r, advertisedLocked d [r] e = e
            ∨ (advertisedLocked d [r] e = addDomainAddrLocked d (Addr_of r) e
               ∧ Addr_of r ∉ domainAddrs d e)).
Proof.
  intros Hr. destruct (reachable_listsInv e Hr) as [Hs Hn].
  split; [exact Hn|]. split; intros d x.
  - by apply isAddrKnownLocked_inserts_fresh.
  - by apply advertisedLocked_inserts_fresh.
Qed.

End list_claims.

(** ** Malformed responses *)
Section malformed.
Context `{Ext : Externals} `{DNS : ParserOps}.

(** More fuel does not change the outcome of a loop that has ended. *)
Lemma answersLoop_mono fuel :
  ∀ p chain recs fuel',
    (fuel <= fuel')%nat →
    answersLoop fuel p chain recs ≠ ParseOutOfFuel →
    answersLoop fuel' p chain recs = answersLoop fuel p chain recs.
Proof.
  induction fuel as [|fuel IH]; intros p chain recs fuel' Hle Hne; [done|].
  destruct fuel' as [|fuel']; [lia|].
  assert (fuel <= fuel')%nat as Hle' by lia.
  revert Hne. simpl.
  repeat match goal with
         | |- context [match ?x with _ => _ end] =>
             lazymatch x with
             | answersLoop _ _ _ _ => fail
             | _ => destruct x eqn:?
             end
         end; try done; intros Hne; by apply IH.
Qed.

Lemma parseResponse_mono fuel fuel' res :
  (fuel <= fuel')%nat →
  parseResponse fuel res ≠ ParseOutOfFuel →
  parseResponse fuel' res = parseResponse fuel res.
Proof.
  unfold parseResponse. intros Hle.
  destruct (Start res) as [p|]; [|done].
  destruct (SkipAllQuestions p) as [p'|]; [|done].
  by apply answersLoop_mono.
Qed.

(** Each way a message can fail to parse ends the call at once. *)
Lemma parseResponse_header_fails fuel res :
  Start res = None → parseResponse fuel res = Malformed.
Proof. unfold parseResponse. by intros ->. Qed.

Lemma parseResponse_questions_fail fuel res p :
  Start res = Some p → SkipAllQuestions p = None →
  parseResponse fuel res = Malformed.
Proof. unfold parseResponse. by intros -> ->. Qed.

Lemma answersLoop_header_fails fuel p chain recs :
  AnswerHeader p = HeaderErr → answersLoop (S fuel) p chain recs = Malformed.
Proof. simpl. by intros ->. Qed.

Lemma answersLoop_resource_fails fuel p h p' chain recs :
  AnswerHeader p = HeaderOk h p' →
  hClass h = ClassINET → hType h = TypeA →
  strs.TrimSuffix (strs.ToLower (hName h)) "." ≠ "" →
  AResource p' = None →
  answersLoop (S fuel) p chain recs = Malformed.
Proof.
  simpl. intros -> -> -> Hd ->. simpl.
  destruct (strs.TrimSuffix _ _); [done|]. done.
Qed.

(** An address record owned by the root name is skipped without being
    consumed: the parser hands out the same header again and the loop does
    not end. *)
Lemma answersLoop_root_owner_never_ends p h chain recs :
  AnswerHeader p = HeaderOk h p →
  hClass h = ClassINET → isAddressType (hType h) = true →
  strs.TrimSuffix (strs.ToLower (hName h)) "." = "" →
  ∀ fuel, answersLoop fuel p chain recs = ParseOutOfFuel.
Proof.
  intros Hh Hc Ht Hd fuel. induction fuel as [|fuel IH]; simpl; [done|].
  by rewrite Hh, Hc, Ht, Hd.
Qed.

(** C5.  When the parsing half of [ObserveDNSResponse] stops on an error,
    the call returns and the connector is what it was: same exact-domain
    map, wildcard list, operator routes, persisted snapshot, calls made to
    the collaborator and queued tasks.  The result carries no error. *)
Theorem ObserveDNSResponse_malformed_is_ignored
        (fuel : nat) (res : list Byte.byte) :
  parseResponse fuel res = Malformed →
  ∀ (fuel' : nat) (now : Time) (e : AppConnector),
    (fuel <= fuel')%nat → ObserveDNSResponse fuel' now res e = Some e.
Proof.
  intros Hm fuel' now e Hle. unfold ObserveDNSResponse.
  rewrite (parseResponse_mono fuel fuel' res Hle) by (by rewrite Hm).
  by rewrite Hm.
Qed.

End malformed.

(** ** Classifying the observed addresses *)
Section classification.
Context `{Ext : Externals} `{DNS : ParserOps}.

Lemma domainAddrs_add e d a x :
  x ∈ domainAddrs d (addDomainAddrLocked d a e) ↔ x ∈ domainAddrs d e ∨ x = a.
Proof.
  unfold domainAddrs at 1. rewrite addDomainAddrLocked_domains, lookup_insert_eq.
  simpl. rewrite SortFunc_perm, elem_of_app, list_elem_of_singleton. done.
Qed.

Lemma findRoutedDomainLocked_frame fuel :
  ∀ domain chain e d r e',
    findRoutedDomainLocked fuel domain chain e = Some (d, r, e') →
    controlRoutes e' = controlRoutes e ∧ queue e' = queue e
    ∧ routeAdvertiser e' = routeAdvertiser e ∧ wildcards e' = wildcards e
    ∧ inflight e' = inflight e.
Proof.
  induction fuel as [|fuel IH]; intros domain chain e d r e'; simpl; [done|].
  case_bool_decide; [by intros [= _ _ <-]|].
  destruct (matchWildcards domain (wildcards e) (domains e)) as [doms routed].
  destruct (chain !! domain) as [next|]; [|by intros [= _ _ <-]].
  intros Hf. by destruct (IH _ _ _ _ _ _ Hf) as (? & ? & ? & ? & ?).
Qed.

Lemma findRoutedDomainLocked_sorted fuel :
  ∀ domain chain e d r e',
    findRoutedDomainLocked fuel domain chain e = Some (d, r, e') →
    sortedDomains e → sortedDomains e'.
Proof.
  induction fuel as [|fuel IH]; intros domain chain e d r e'; simpl; [done|].
  case_bool_decide; [by intros [= _ _ <-]|].
  assert (∀ doms b, matchWildcards domain (wildcards e) (domains e) = (doms, b) →
                    sortedDomains e → sortedDomains (set_domains doms e)) as Hm.
  { intros doms b Hmw Hs.
    destruct (matchWildcards_cases domain (wildcards e) (domains e)) as [Hc|Hc];
      rewrite Hc in Hmw; injection Hmw as <- <-; [done|].
    intros d' l. simpl. destruct (decide (domain = d')) as [->|Hne].
    - rewrite lookup_insert_eq. intros [= <-]. constructor.
    - rewrite lookup_insert_ne by done. apply Hs. }
  destruct (matchWildcards domain (wildcards e) (domains e)) as [doms routed].
  specialize (Hm doms routed eq_refl).
  destruct (chain !! domain) as [next|]; [|by intros [= _ _ <-]].
  intros Hf Hs. eapply IH; [exact Hf|]. by apply Hm.
Qed.

(** The classification loop, from any accumulators. *)
Lemma classifyAddrs_spec d addrs :
  ∀ adv upd e,
    sortedDomains e →
    let r := classifyAddrs d addrs adv upd e in
    sortedDomains r.2
    ∧ controlRoutes r.2 = controlRoutes e ∧ queue r.2 = queue e
    ∧ routeAdvertiser r.2 = routeAdvertiser e
    ∧ (∀ d', d' ≠ d → domains r.2 !! d' = domains e !! d')
    ∧ (∀ x, x ∈ domainAddrs d r.2
            ↔ x ∈ domainAddrs d e ∨ (x ∈ addrs ∧ covered e x = true))
    ∧ (∀ p, p ∈ r.1.1
            ↔ p ∈ adv ∨ ∃ a, a ∈ addrs ∧ p = single a
                             ∧ covered e a = false ∧ a ∉ domainAddrs d e).
Proof.
  induction addrs as [|a addrs IH]; intros adv upd e Hs; cbv zeta.
  - simpl. repeat split; try done.
    + by left.
    + intros [?|[Hx _]]; [done|]. by apply elem_of_nil in Hx.
    + by left.
    + intros [?|(a & Ha & _)]; [done|]. by apply elem_of_nil in Ha.
  - simpl. unfold isAddrKnownLocked.
    destruct (hasDomainAddrLocked d a e) eqn:Hh.
    + (* already in the list *)
      apply hasDomainAddrLocked_elem in Hh; [|done]. simpl.
      destruct (IH adv (upd ++ [single a]) e Hs) as (H1 & H2 & H3 & H4 & H5 & H6 & H7).
      cbv zeta in *. unfold single in *.
      repeat split; try done.
      * intros Hx. apply H6 in Hx as [?|[? ?]]; [by left|right].
        split; [by apply list_elem_of_further|done].
      * intros [?|[Hx Hc]]; apply H6; [by left|].
        apply elem_of_cons in Hx as [->|Hx]; [by left|by right].
      * intros Hp. apply H7 in Hp as [?|(a' & Ha' & ? & ? & ?)]; [by left|right].
        exists a'. split; [by apply list_elem_of_further|done].
      * intros [?|(a' & Ha' & Hp & Hc & Hn)]; apply H7; [by left|right].
        apply elem_of_cons in Ha' as [->|Ha']; [done|]. by exists a'.
    + assert (a ∉ domainAddrs d e) as Hna.
      { intros Hin. apply hasDomainAddrLocked_elem in Hin; [|done]. congruence. }
      fold (covered e a). destruct (covered e a) eqn:Hc; simpl.
      * (* covered by an operator route: recorded at once *)
        pose proof (addDomainAddrLocked_sorted e d a Hs) as Hs1.
        destruct (IH adv (upd ++ [single a]) (addDomainAddrLocked d a e) Hs1)
          as (H1 & H2 & H3 & H4 & H5 & H6 & H7).
        cbv zeta in *. unfold single in *.
        assert (∀ x, covered (addDomainAddrLocked d a e) x = covered e x) as Hcov
            by done.
        repeat split; try done.
        -- intros d' Hd'. rewrite H5 by done.
           rewrite addDomainAddrLocked_domains. by rewrite lookup_insert_ne.
        -- intros Hx. apply H6 in Hx as [Hx|[Hx Hcx]].
           ++ apply domainAddrs_add in Hx as [?| ->]; [by left|right].
              split; [apply list_elem_of_here|done].
           ++ right. split; [by apply list_elem_of_further|by rewrite <- Hcov].
        -- intros [Hx|[Hx Hcx]]; apply H6.
           ++ left. apply domainAddrs_add. by left.
           ++ apply elem_of_cons in Hx as [->|Hx].
              ** left. apply domainAddrs_add. by right.
              ** right. by rewrite Hcov.
        -- intros Hp. apply H7 in Hp as [?|(a' & Ha' & Hp & Hca & Hn)]; [by left|].
           right. exists a'. split; [by apply list_elem_of_further|].
           split; [done|]. split; [by rewrite <- Hcov|].
           intros Hin. apply Hn. apply domainAddrs_add. by left.
        -- intros [?|(a' & Ha' & Hp & Hca & Hn)]; apply H7; [by left|right].
           apply elem_of_cons in Ha' as [->|Ha']; [congruence|].
           exists a'. repeat split; try done.
           intros Hin. apply domainAddrs_add in Hin as [?| ->]; [done|congruence].
      * (* new: to be advertised *)
        destruct (IH (adv ++ [single a]) upd e Hs) as (H1 & H2 & H3 & H4 & H5 & H6 & H7).
        cbv zeta in *. unfold single in *.
        repeat split; try done.
        -- intros Hx. apply H6 in Hx as [?|[? ?]]; [by left|right].
           split; [by apply list_elem_of_further|done].
        -- intros [?|[Hx Hcx]]; apply H6; [by left|].
           apply elem_of_cons in Hx as [->|Hx]; [congruence|by right].
        -- intros Hp. apply H7 in Hp as [Hp|(a' & Ha' & ? & ? & ?)].
           ++ apply elem_of_app in Hp as [?|Hp]; [by left|right].
              apply list_elem_of_singleton in Hp. exists a.
              split; [apply list_elem_of_here|done].
           ++ right. exists a'. split; [by apply list_elem_of_further|done].
        -- intros [?|(a' & Ha' & Hp & Hca & Hn)]; apply H7.
           ++ left. apply elem_of_app. by left.
           ++ apply elem_of_cons in Ha' as [->|Ha'].
              ** left. apply elem_of_app. right. by apply list_elem_of_singleton.
              ** right. by exists a'.
Qed.

(** C10.  For an owner name resolved to the routed domain [d], with [e1]
    the connector after the walk: an observed address not yet in [d]'s
    list but inside some operator route is in [d]'s list once the record
    is processed and is not in the scheduled advertise task; the task
    holds exactly the single-address prefixes of the observed addresses
    that no operator route contains and that were not in the list. *)
Theorem observeRecord_advertises_only_uncovered
        (fuel : nat) (now : Time) (chain : gmap string string)
        (owner d : string) (addrs : list Addr) (e e1 e' : AppConnector) :
  sortedDomains e →
  findRoutedDomainLocked fuel owner chain e = Some (d, true, e1) →
  observeRecord fuel now chain owner addrs e = Some e' →
  ∃ toAdvertise outDated,
    queue e' = queue e ++ [TaskAdvertise d toAdvertise; TaskUnadvertise d outDated]
    ∧ (∀ a, a ∈ addrs → a ∉ domainAddrs d e1 → covered e a = true →
            a ∈ domainAddrs d e' ∧ single a ∉ toAdvertise)
    ∧ (∀ p, p ∈ toAdvertise
            ↔ ∃ a, a ∈ addrs ∧ p = single a
                   ∧ covered e a = false ∧ a ∉ domainAddrs d e1).
Proof.
  intros Hs Hf Ho. unfold observeRecord in Ho. rewrite Hf in Ho. simpl in Ho.
  pose proof (findRoutedDomainLocked_sorted _ _ _ _ _ _ _ Hf Hs) as Hs1.
  destruct (findRoutedDomainLocked_frame _ _ _ _ _ _ _ Hf) as (Hc1 & Hq1 & _).
  destruct (classifyAddrs_spec d addrs [] [] e1 Hs1)
    as (_ & Hc2 & Hq2 & _ & _ & Hlist & Hadv).
  cbv zeta in *.
  destruct (classifyAddrs d addrs [] [] e1) as [[adv upd] e2]. simpl in *.
  destruct (OutDatedRoutesInDiscoveredForDomain _ _ _) as [ri out].
  injection Ho as <-. simpl.
  assert (∀ a, covered e1 a = covered e a) as Hcov.
  { intros a. unfold covered. by rewrite Hc1. }
  exists adv, out. split; [|split].
  - rewrite Hq2, Hq1, <- app_assoc. done.
  - intros a Ha Hn Hca. split.
    + unfold domainAddrs in *. simpl. apply Hlist. right.
      split; [done|by rewrite Hcov].
    + intros Hin. apply Hadv in Hin as [Hin|(a' & _ & Heq & Hca' & _)].
      { by apply elem_of_nil in Hin. }
      apply PrefixFrom_single_inj in Heq. subst a'.
      rewrite Hcov in Hca'. congruence.
  - intros p. rewrite Hadv. split.
    + intros [Hin|(a & ? & ? & Hca & ?)]; [by apply elem_of_nil in Hin|].
      exists a. by rewrite <- Hcov.
    + intros (a & ? & ? & Hca & ?). right. exists a. by rewrite Hcov.
Qed.

(** The same for a whole call: whatever the order of the records, the
    advertise tasks it queues hold single-address prefixes of addresses
    that no operator route contains. *)
Lemma observeRecord_queues_uncovered fuel now chain owner addrs e e' :
  sortedDomains e →
  observeRecord fuel now chain owner addrs e = Some e' →
  sortedDomains e' ∧ controlRoutes e' = controlRoutes e
  ∧ ∃ new, queue e' = queue e ++ new
           ∧ ∀ d routes p, TaskAdvertise d routes ∈ new → p ∈ routes →
                           ∃ a, p = single a ∧ covered e a = false.
Proof.
  intros Hs Ho. unfold observeRecord in Ho.
  destruct (findRoutedDomainLocked fuel owner chain e) as [[[d r] e1]|] eqn:Hf;
    [|done].
  pose proof (findRoutedDomainLocked_sorted _ _ _ _ _ _ _ Hf Hs) as Hs1.
  destruct (findRoutedDomainLocked_frame _ _ _ _ _ _ _ Hf) as (Hc1 & Hq1 & _).
  destruct r; simpl in Ho.
  2:{ injection Ho as <-. split; [done|]. split; [done|]. exists [].
      split; [by rewrite app_nil_r|]. intros ? ? ? Hin. by apply elem_of_nil in Hin. }
  destruct (classifyAddrs_spec d addrs [] [] e1 Hs1)
    as (Hs2 & Hc2 & Hq2 & _ & _ & _ & Hadv).
  cbv zeta in *.
  destruct (classifyAddrs d addrs [] [] e1) as [[adv upd] e2]. simpl in *.
  destruct (OutDatedRoutesInDiscoveredForDomain _ _ _) as [ri out].
  injection Ho as <-. simpl. split; [exact Hs2|]. split; [congruence|].
  exists [TaskAdvertise d adv; TaskUnadvertise d out].
  split; [by rewrite Hq2, Hq1, <- app_assoc|].
  intros d' routes p Hin Hp.
  apply elem_of_cons in Hin as [[= -> ->]|Hin].
  - apply Hadv in Hp as [Hp|(a & _ & -> & Hca & _)]; [by apply elem_of_nil in Hp|].
    exists a. split; [done|]. unfold covered in *. by rewrite <- Hc1.
  - apply list_elem_of_singleton in Hin. discriminate.
Qed.

Lemma observeRecords_queue_uncovered fuel now chain records :
  ∀ e e',
    sortedDomains e →
    observeRecords fuel now chain records e = Some e' →
    ∃ new, queue e' = queue e ++ new
           ∧ ∀ d routes p, TaskAdvertise d routes ∈ new → p ∈ routes →
                           ∃ a, p = single a ∧ covered e a = false.
Proof.
  induction records as [|[owner addrs] records IH]; intros e e' Hs; simpl.
  - intros [= <-]. exists []. split; [by rewrite app_nil_r|].
    intros ? ? ? Hin. by apply elem_of_nil in Hin.
  - destruct (observeRecord fuel now chain owner addrs e) as [e1|] eqn:Ho; [|done].
    intros Hrest.
    destruct (observeRecord_queues_uncovered _ _ _ _ _ _ _ Hs Ho)
      as (Hs1 & Hc1 & new1 & Hq1 & Hnew1).
    destruct (IH e1 e' Hs1 Hrest) as (new2 & Hq2 & Hnew2).
    exists (new1 ++ new2). split; [by rewrite Hq2, Hq1, <- app_assoc|].
    intros d routes p Hin Hp. apply elem_of_app in Hin as [Hin|Hin].
    + by apply (Hnew1 d routes).
    + destruct (Hnew2 d routes p Hin Hp) as (a & -> & Hca).
      exists a. split; [done|]. unfold covered in *. by rewrite <- Hc1.
Qed.

Lemma ObserveDNSResponse_queues_uncovered fuel now res e e' :
  sortedDomains e →
  ObserveDNSResponse fuel now res e = Some e' →
  ∃ new, queue e' = queue e ++ new
         ∧ ∀ d routes p, TaskAdvertise d routes ∈ new → p ∈ routes →
                         ∃ a, p = single a ∧ covered e a = false.
Proof.
  intros Hs. unfold ObserveDNSResponse.
  destruct (parseResponse fuel res) as [|chain recs|]; [|by apply observeRecords_queue_uncovered|done].
  intros [= <-]. exists []. split; [by rewrite app_nil_r|].
  intros ? ? ? Hin. by apply elem_of_nil in Hin.
Qed.

End classification.

(** ** The walk along the alias chain *)
Section walk.
Context `{Ext : Externals} `{DNS : ParserOps}.

Lemma runEvents_reachable evs :
  ∀ e e', reachable e → runEvents evs e = Some e' → reachable e'.
Proof.
  induction evs as [|ev evs IH]; intros e e' Hr; simpl.
  - by intros [= <-].
  - destruct (step ev e) as [e1|] eqn:Es; [|done].
    apply IH. by eapply reachable_step.
Qed.

(** A name in the exact-domain map ends the walk at once. *)
Lemma findRoutedDomainLocked_exact fuel domain chain e :
  is_Some (domains e !! domain) →
  findRoutedDomainLocked (S fuel) domain chain e = Some (domain, true, e).
Proof. intros Hd. simpl. by rewrite bool_decide_eq_true_2. Qed.

(** A name matched by a wildcard and without an alias edge is registered
    and returned as routed. *)
Lemma findRoutedDomainLocked_wildcard_last fuel domain chain e :
  domains e !! domain = None →
  existsb (dnsname_HasSuffix domain) (wildcards e) = true →
  chain !! domain = None →
  findRoutedDomainLocked (S fuel) domain chain e
  = Some (domain, true, set_domains (<[domain := []]> (domains e)) e).
Proof.
  intros Hd Hw Hc. simpl. rewrite bool_decide_eq_false_2 by (rewrite Hd; by intros [? ?]).
  assert (matchWildcards domain (wildcards e) (domains e)
          = (<[domain := []]> (domains e), true)) as ->.
  { induction (wildcards e) as [|wc wcs IH]; simpl in *; [done|].
    destruct (dnsname_HasSuffix domain wc); [done|]. by apply IH. }
  by rewrite Hc.
Qed.

(** A name matched by a wildcard that has an alias edge is registered, and
    the walk goes on from the alias with the match forgotten. *)
Lemma findRoutedDomainLocked_wildcard_then_alias fuel domain next chain e :
  domains e !! domain = None →
  existsb (dnsname_HasSuffix domain) (wildcards e) = true →
  chain !! domain = Some next →
  findRoutedDomainLocked (S fuel) domain chain e
  = findRoutedDomainLocked fuel next chain
      (set_domains (<[domain := []]> (domains e)) e).
Proof.
  intros Hd Hw Hc. simpl. rewrite bool_decide_eq_false_2 by (rewrite Hd; by intros [? ?]).
  assert (matchWildcards domain (wildcards e) (domains e)
          = (<[domain := []]> (domains e), true)) as ->.
  { induction (wildcards e) as [|wc wcs IH]; simpl in *; [done|].
    destruct (dnsname_HasSuffix domain wc); [done|]. by apply IH. }
  by rewrite Hc.
Qed.

End walk.

(** ** The properties on the sample connectors *)
Section examples.
Import samples.
#[local] Existing Instance reliable.
#[local] Existing Instance wire.ops.

(** An option known to hold a value is [Some] of that value. *)
Lemma Some_default {A : Type} (o : option A) (d : A) :
  match o with Some _ => true | None => false end = true →
  o = Some (default d o).
Proof. by destruct o. Qed.

Lemma fresh_sorted (X : Externals) : sortedDomains (fresh X).
Proof. apply listsInv_new. Qed.

Lemma routedWithControl_sorted : sortedDomains routedWithControl.
Proof.
  intros d l H. unfold routedWithControl in H. simpl in H.
  apply lookup_singleton_Some in H as [_ <-]. constructor.
Qed.

(** The two sample responses, as the parsing half reads them. *)
Example parse_cnameIntoWildcard :
  parseResponse 8 cnameIntoWildcard
  = Parsed {[ "a.example.com" := "www.other.org" ]}
           {[ "a.example.com" := [ip4 192 0 2 1] ]}.
Proof. vm_compute. reflexivity. Qed.

Example parse_aliasOfTarget :
  parseResponse 8 aliasOfTarget
  = Parsed {[ "target.example.net" := "alias.example.com" ]}
           {[ "target.example.net" := [ip4 203 0 113 5] ]}.
Proof. vm_compute. reflexivity. Qed.

(** The alias of the answered name is matched by the wildcard: the address
    is scheduled for [alias.example.com]. *)
Example observe_aliasOfTarget :
  domains <$> ObserveDNSResponse 8 1%nat aliasOfTarget wildcardOnly
  = Some {[ "alias.example.com" := [] ]}
  ∧ queue <$> ObserveDNSResponse 8 1%nat aliasOfTarget wildcardOnly
    = Some [TaskAdvertise "alias.example.com" [single (ip4 203 0 113 5)];
            TaskUnadvertise "alias.example.com" []].
Proof. split; vm_compute; reflexivity. Qed.

(** C2.  With only [*.example.com] configured, the response
    [www.other.org CNAME a.example.com], [a.example.com A 192.0.2.1]: the
    walk from [a.example.com] registers it under the wildcard, then follows
    the alias edge to [www.other.org] and returns that name as not routed;
    the observation leaves the new entry behind and schedules nothing. *)
Theorem wildcard_match_lost_on_alias_edge :
  (λ r, (r.1.1, r.1.2, domains r.2))
    <$> findRoutedDomainLocked 2 "a.example.com"
          {[ "a.example.com" := "www.other.org" ]} wildcardOnly
  = Some ("www.other.org", false, {[ "a.example.com" := [] ]})
  ∧ domains <$> ObserveDNSResponse 8 1%nat cnameIntoWildcard wildcardOnly
    = Some {[ "a.example.com" := [] ]}
  ∧ queue <$> ObserveDNSResponse 8 1%nat cnameIntoWildcard wildcardOnly
    = Some [].
Proof. repeat split; vm_compute; reflexivity. Qed.

Lemma updateDomains_wildcard_carries_forward_witness :
  domains (updateDomains ["*.example.com"] discovered) !! "a.example.com"
  = Some [ip4 192 0 2 1]
  ∧ Discovered (store (routeAdvertiser (updateDomains ["*.example.com"] discovered)))
      !! "a.example.com"
    = Some (Some [(single (ip4 192 0 2 1), 7%nat)]).
Proof.
  apply (updateDomains_wildcard_carries_forward
           discovered ["*.example.com"] "a.example.com" "*.example.com").
  - compute_done.
  - vm_compute. reflexivity.
  - vm_compute. reflexivity.
  - compute_done.
  - compute_done.
  - vm_compute. reflexivity.
  - vm_compute. reflexivity.
Defined.

Lemma updateDomains_duplicate_loses_discovery_witness :
  domains discovered !! "a.example.com" = Some [ip4 192 0 2 1]
  ∧ newDomains
      (foldl domainsStep
             (mkDomainsLoop ∅ ∅ (domains discovered)
                            (Discovered (store (routeAdvertiser discovered))) [])
             ["a.example.com"])
      !! "a.example.com" = Some [ip4 192 0 2 1]
  ∧ domains (updateDomains ["a.example.com"; "A.example.com"] discovered)
      !! "a.example.com" = Some []
  ∧ Discovered (store (routeAdvertiser
                         (updateDomains ["a.example.com"; "A.example.com"] discovered)))
      !! "a.example.com" = Some None.
Proof.
  split; [vm_compute; reflexivity|].
  destruct (updateDomains_duplicate_loses_discovery
              discovered [] [] [] "a.example.com" "A.example.com" "a.example.com")
    as ((H1 & _) & _ & H3 & H4).
  - compute_done.
  - compute_done.
  - vm_compute. reflexivity.
  - vm_compute. reflexivity.
  - vm_compute. reflexivity.
  - split; [|split]; [|exact H3|exact H4].
    etransitivity; [exact H1|]. vm_compute. reflexivity.
Defined.

Lemma updateRoutes_unadvertises_first_subsumed_witness :
  calls (routeAdvertiser (updateRoutes [net10] (withAddrs reliable)))
  = [CallReadRouteInfoFromStore; CallUnadvertiseRoute [];
     CallAdvertiseRoute [net10];
     CallUnadvertiseRoute [single (ip4 10 0 0 1)];
     CallUpdateRoutesInfoToStore (mkRouteInfo [net10] ∅)].
Proof.
  pose proof (updateRoutes_unadvertises_first_subsumed
                (Ext := reliable) [net10] (withAddrs reliable)
                ltac:(vm_compute; reflexivity) ltac:(vm_compute; reflexivity)) as H.
  cbv zeta in H. destruct H as [H _]. rewrite H. vm_compute. reflexivity.
Defined.

(** C3.  Counterexample to "an address whose single-address prefix
    exactly equals r is never removed": the guard is per prefix.
    10.0.0.1 is a discovered address and its
    single-address prefix is one of the new prefixes, next to 10.0.0.0/8:
    the scan for 10.0.0.1/32 removes nothing, the scan for 10.0.0.0/8
    removes 10.0.0.1/32, which is unadvertised.  The connector has one
    domain, so the order of the ranges plays no part. *)
Lemma single_prefix_removed_by_broader_one :
  single (ip4 10 0 0 1) ∈ [single (ip4 10 0 0 1); net10]
  ∧ ip4 10 0 0 1 ∈ domainAddrs "a.example.com" (withAddrs reliable)
  ∧ scanFinds [single (ip4 10 0 0 1); net10] (withAddrs reliable)
    = [None; Some (single (ip4 10 0 0 1))]
  ∧ calls (routeAdvertiser
             (updateRoutes [single (ip4 10 0 0 1); net10] (withAddrs reliable)))
    = [CallReadRouteInfoFromStore; CallUnadvertiseRoute [];
       CallAdvertiseRoute [single (ip4 10 0 0 1); net10];
       CallUnadvertiseRoute [single (ip4 10 0 0 1)];
       CallUpdateRoutesInfoToStore
         (mkRouteInfo [single (ip4 10 0 0 1); net10] ∅)].
Proof.
  split; [compute_done|]. split; [compute_done|].
  split; vm_compute; reflexivity.
Qed.

(** Which prefix is removed depends on the order of the range: with
    10.0.0.1 under one domain and 10.0.0.2 under another, the scan for
    10.0.0.0/8 removes the one or the other. *)
Example removed_prefix_depends_on_range_order :
  scanFinds (Ext := reliable) [net10] (twoDomains reliable)
  = [Some (single (ip4 10 0 0 1))]
  ∧ scanFinds (Ext := reversing) [net10] (twoDomains reversing)
    = [Some (single (ip4 10 0 0 2))].
Proof. split; vm_compute; reflexivity. Qed.

Lemma updateRoutes_baseline_follows_advertise_witness :
  controlRoutes (updateRoutes [net10] (withAddrs failing)) = []
  ∧ store (routeAdvertiser (updateRoutes [net10] (withAddrs failing)))
    = mkRouteInfo [] ∅
  ∧ calls (routeAdvertiser (updateRoutes [net10] (withAddrs failing)))
    = [CallReadRouteInfoFromStore; CallUnadvertiseRoute [];
       CallAdvertiseRoute [net10]].
Proof.
  exact (updateRoutes_baseline_follows_advertise
           (Ext := failing) [net10] (withAddrs failing) eq_refl).
Defined.

Lemma ObserveDNSResponse_malformed_is_ignored_witness :
  parseResponse 1 truncated = Malformed
  ∧ ObserveDNSResponse 8 1%nat truncated discovered = Some discovered.
Proof.
  split; [vm_compute; reflexivity|].
  apply (ObserveDNSResponse_malformed_is_ignored 1 truncated).
  - vm_compute. reflexivity.
  - lia.
Defined.

Lemma address_lists_stay_sorted_witness :
  sortedDomains (applyOps addDeleteOps (fresh reliable))
  ∧ ∀ d a, hasDomainAddrLocked d a (applyOps addDeleteOps (fresh reliable))
           = linearHas d a (applyOps addDeleteOps (fresh reliable)).
Proof.
  apply (address_lists_stay_sorted addDeleteOps (fresh reliable)).
  apply fresh_sorted.
Defined.

Lemma reachable_lists_without_duplicates_witness :
  reachable afterObservedTwice
  ∧ domains afterObservedTwice !! "example.com" = Some [ip4 192 0 2 1]
  ∧ NoDup [ip4 192 0 2 1].
Proof.
  assert (reachable afterObservedTwice) as Hr.
  { apply (runEvents_reachable observedTwice (fresh reliable));
      [apply reachable_new|].
    apply Some_default. vm_compute. reflexivity. }
  split; [exact Hr|]. split; [vm_compute; reflexivity|].
  destruct (reachable_lists_without_duplicates afterObservedTwice Hr) as [Hn _].
  apply (Hn "example.com"). vm_compute. reflexivity.
Defined.

Lemma observeRecord_advertises_only_uncovered_witness :
  observeRecord 2 1%nat ∅ "example.com" observedAddrs routedWithControl
  = Some afterRecord
  ∧ ip4 10 1 2 3 ∈ domainAddrs "example.com" afterRecord
  ∧ ∃ toAdvertise outDated,
      queue afterRecord = [TaskAdvertise "example.com" toAdvertise;
                           TaskUnadvertise "example.com" outDated]
      ∧ (single (ip4 10 1 2 3) ∉ toAdvertise)
      ∧ (single (ip4 192 0 2 1) ∈ toAdvertise).
Proof.
  assert (observeRecord 2 1%nat ∅ "example.com" observedAddrs routedWithControl
          = Some afterRecord) as Ho.
  { apply Some_default. vm_compute. reflexivity. }
  assert (findRoutedDomainLocked 2 "example.com" ∅ routedWithControl
          = Some ("example.com", true, routedWithControl)) as Hf.
  { apply findRoutedDomainLocked_exact. exists []. vm_compute. reflexivity. }
  split; [exact Ho|].
  destruct (observeRecord_advertises_only_uncovered (Ext := reliable)
              2 1%nat ∅ "example.com" "example.com" observedAddrs
              routedWithControl routedWithControl afterRecord
              routedWithControl_sorted Hf Ho)
    as (adv & out & Hq & Hcov & Hadv).
  destruct (Hcov (ip4 10 1 2 3)) as [Hin Hnot];
    [compute_done|compute_done|vm_compute; reflexivity|].
  split; [exact Hin|]. exists adv, out. split; [exact Hq|]. split; [exact Hnot|].
  apply Hadv. exists (ip4 192 0 2 1).
  split; [compute_done|]. split; [reflexivity|].
  split; [vm_compute; reflexivity|compute_done].
Defined.

End examples.

(** * Further properties of the connector *)

(** ** Adding and deleting one address *)
Section list_operations.
Context `{Ext : Externals}.

#[local] Instance compareAddr_antisymm : AntiSymm (=) (slices.cmpLe Compare).
Proof.
  intros a b Hab Hba. unfold slices.cmpLe in *.
  destruct (Z.eq_dec (Compare a b) 0) as [Heq|Hne]; [by apply Compare_eq|].
  assert (Compare a b < 0) as Hlt by lia.
  apply Compare_lt_flip in Hlt. lia.
Qed.

Lemma domainAddrs_add_eq e d a :
  domainAddrs d (addDomainAddrLocked d a e)
  = slices.SortFunc (domainAddrs d e ++ [a]) Compare.
Proof.
  unfold domainAddrs at 1. by rewrite addDomainAddrLocked_domains, lookup_insert_eq.
Qed.

(** X1.  [addDomainAddrLocked] puts the address in the domain's list, which comes
    out sorted even when it was not, so that [hasDomainAddrLocked] finds the
    address; the list grows by one whether or not it held the address
    already; the other domains keep their lists. *)
Theorem addDomainAddrLocked_then_has (e : AppConnector) (d : string) (a : Addr) :
  let e' := addDomainAddrLocked d a e in
  hasDomainAddrLocked d a e' = true
  ∧ length (domainAddrs d e') = S (length (domainAddrs d e))
  ∧ (∀ x, x ∈ domainAddrs d e' ↔ x ∈ domainAddrs d e ∨ x = a)
  ∧ (∀ d', d' ≠ d → domains e' !! d' = domains e !! d').
Proof.
  cbv zeta. split; [|split; [|split]].
  - unfold hasDomainAddrLocked, compareAddr. rewrite domainAddrs_add_eq.
    apply BinarySearchFunc_sorted; [apply SortFunc_sorted|].
    rewrite SortFunc_perm, elem_of_app, list_elem_of_singleton. by right.
  - rewrite domainAddrs_add_eq, SortFunc_perm, length_app. simpl. lia.
  - intros x. apply domainAddrs_add.
  - intros d' Hne. rewrite addDomainAddrLocked_domains. by rewrite lookup_insert_ne.
Qed.

Lemma domainAddrs_delete e d a :
  sortedDomains e →
((a ∉ domainAddrs d e) ∧ deleteDomainAddrLocked d a e = e)
  ∨ (∃ ind, domainAddrs d e !! ind = Some a
            ∧ domainAddrs d (deleteDomainAddrLocked d a e)
              = slices.SortFunc (take ind (domainAddrs d e)
                                 ++ drop (S ind) (domainAddrs d e)) Compare).
Proof.
  intros Hs.
  destruct (BinarySearchFunc_sorted (domainAddrs d e) a (domainAddrs_sorted e d Hs))
    as [Hiff Hidx].
  unfold deleteDomainAddrLocked, compareAddr.
  destruct (slices.BinarySearchFunc (domainAddrs d e) a Compare) as [ind ok] eqn:Eb.
  simpl in *. destruct ok; simpl.
  - right. exists ind. split; [by apply Hidx|].
    unfold domainAddrs at 1. simpl. rewrite lookup_insert_eq. simpl.
    unfold domainAddrs at 1. simpl. rewrite lookup_insert_eq. simpl.
    unfold slices.Delete. by replace (ind + 1)%nat with (S ind) by lia.
  - left. split; [|done]. intros Hin. apply Hiff in Hin. discriminate.
Qed.

Lemma domainAddrs_delete_elem e d a :
  listsInv e →
  ∀ x, x ∈ domainAddrs d (deleteDomainAddrLocked d a e)
       ↔ x ∈ domainAddrs d e ∧ x ≠ a.
Proof.
  intros [Hs Hn].
  destruct (domainAddrs_delete e d a Hs) as [[Hna Heq]|(ind & Hind & Heq)].
  - rewrite Heq. intros x. split; [|by intros [? _]].
    intros Hx. split; [done|]. by intros ->.
  - rewrite Heq. intros x. rewrite SortFunc_perm.
    pose proof (domainAddrs_nodup e d Hn) as Hnd.
    pose proof (take_drop_middle _ _ _ Hind) as Hmid.
    set (l := domainAddrs d e) in *.
    set (l1 := take ind l) in *. set (l2 := drop (S ind) l) in *.
    rewrite <- Hmid in Hnd. rewrite <- Hmid.
    apply NoDup_app in Hnd as (_ & Hcross & Hnd).
    apply NoDup_cons in Hnd as [Hnd _].
    rewrite !elem_of_app, elem_of_cons. split.
    + intros [Hx|Hx]; (split; [tauto|]); intros ->.
      * apply (Hcross a Hx). apply list_elem_of_here.
      * done.
    + intros [[Hx|[->|Hx]] Hne]; tauto.
Qed.

(** X2.  [deleteDomainAddrLocked] on sorted lists: an address that is not in the
    domain's list (or a domain that has no entry) leaves the connector as it
    is, and no entry is created; an address that is there is removed once,
    the list getting one shorter. *)
Theorem deleteDomainAddrLocked_removes_one
        (e : AppConnector) (d : string) (a : Addr) :
  sortedDomains e →
  let e' := deleteDomainAddrLocked d a e in
  (a ∉ domainAddrs d e → e' = e)
  ∧ (a ∈ domainAddrs d e →
     S (length (domainAddrs d e')) = length (domainAddrs d e)
     ∧ a :: domainAddrs d e' ≡ₚ domainAddrs d e).
Proof.
  intros Hs e'. subst e'.
  destruct (domainAddrs_delete e d a Hs) as [[Hn Heq]|(ind & Hind & Heq)].
  - split; [done|]. intros Hin. done.
  - split.
    { intros Hn. exfalso. apply Hn. by eapply list_elem_of_lookup_2. }
    intros _. rewrite Heq.
    pose proof (take_drop_middle _ _ _ Hind) as Hmid.
    set (l := domainAddrs d e) in *.
    set (l' := take ind l ++ drop (S ind) l) in *.
    assert (a :: slices.SortFunc l' Compare ≡ₚ l) as Hp.
    { rewrite SortFunc_perm. subst l'. rewrite <- Hmid at 3.
      apply Permutation_middle. }
    split; [|exact Hp].
    apply Permutation_length in Hp. simpl in Hp. exact Hp.
Qed.

(** X3.  With sorted, duplicate-free lists, deleting an address removes exactly
    that address: it is no longer found, and every other address stays. *)
Theorem deleteDomainAddrLocked_then_absent
        (e : AppConnector) (d : string) (a : Addr) :
  listsInv e →
  let e' := deleteDomainAddrLocked d a e in
  hasDomainAddrLocked d a e' = false
  ∧ (∀ x, x ∈ domainAddrs d e' ↔ x ∈ domainAddrs d e ∧ x ≠ a)
  ∧ (∀ d', d' ≠ d → domains e' !! d' = domains e !! d').
Proof.
  intros Hi e'. subst e'.
  pose proof (domainAddrs_delete_elem e d a Hi) as Hmem.
  destruct Hi as [Hs Hn].
  split; [|split; [exact Hmem|]].
  - apply not_true_is_false. intros Hh.
    apply hasDomainAddrLocked_elem in Hh; [|by apply deleteDomainAddrLocked_sorted].
    apply Hmem in Hh as [_ Hne]. done.
  - intros d' Hne. rewrite deleteDomainAddrLocked_domains. cbv zeta.
    destruct (slices.BinarySearchFunc _ _ _).2; [|done].
    by rewrite lookup_insert_ne.
Qed.

(** X4.  Adding an address that is not there and deleting it again gives the
    domain's list back. *)
Theorem add_then_delete_restores_list (e : AppConnector) (d : string) (a : Addr) :
  listsInv e → a ∉ domainAddrs d e →
  domainAddrs d (deleteDomainAddrLocked d a (addDomainAddrLocked d a e))
  = domainAddrs d e.
Proof.
  intros Hi Ha. pose proof (addDomainAddrLocked_listsInv e d a Hi Ha) as Hi1.
  pose proof (domainAddrs_delete_elem (addDomainAddrLocked d a e) d a Hi1) as Hmem.
  pose proof (deleteDomainAddrLocked_listsInv _ d a Hi1) as [Hs2 Hn2].
  destruct Hi as [Hs Hn].
  apply (StronglySorted_unique (slices.cmpLe Compare));
    [by apply domainAddrs_sorted|by apply domainAddrs_sorted|].
  apply NoDup_Permutation;
    [by apply domainAddrs_nodup|by apply domainAddrs_nodup|].
  intros x. rewrite Hmem, domainAddrs_add. split.
  - intros [[?|?] ?]; [done|congruence].
  - intros Hx. split; [by left|]. by intros ->.
Qed.

End list_operations.

(** ** The scheduled advertise and unadvertise tasks *)
Section scheduled_tasks.
Context `{Ext : Externals}.

(** A successful binary search has seen the address, sorted list or not. *)
Lemma hasDomainAddrLocked_true_elem e d a :
  hasDomainAddrLocked d a e = true → a ∈ domainAddrs d e.
Proof.
  unfold hasDomainAddrLocked, slices.BinarySearchFunc, compareAddr. simpl.
  destruct (domainAddrs d e !! _) as [x|] eqn:Ex; [|done].
  rewrite andb_true_iff, Z.eqb_eq. intros [_ Hc].
  apply Compare_eq in Hc. subst x. by eapply list_elem_of_lookup_2.
Qed.

Lemma advertisedLocked_spec d routes :
  ∀ e,
    let e' := advertisedLocked d routes e in
    routeAdvertiser e' = routeAdvertiser e ∧ controlRoutes e' = controlRoutes e
    ∧ wildcards e' = wildcards e ∧ queue e' = queue e ∧ inflight e' = inflight e
    ∧ (∀ d', d' ≠ d → domains e' !! d' = domains e !! d')
    ∧ (∀ x, x ∈ domainAddrs d e'
            ↔ x ∈ domainAddrs d e
              ∨ ∃ r, r ∈ routes ∧ IsSingleIP r = true ∧ Addr_of r = x).
Proof.
  induction routes as [|r routes IH]; intros e; cbv zeta.
  - simpl. repeat split; try done; [by left|].
    intros [?|(r & Hr & _)]; [done|]. by apply elem_of_nil in Hr.
  - simpl. destruct (IsSingleIP r) eqn:Hsingle; simpl.
    + destruct (hasDomainAddrLocked d (Addr_of r) e) eqn:Hh; simpl.
      * destruct (IH e) as (H1 & H2 & H3 & H4 & H5 & H6 & H7). cbv zeta in *.
        repeat split; try done.
        -- intros Hx. apply H7 in Hx as [?|(r' & Hr' & ? & ?)]; [by left|right].
           exists r'. split; [by apply list_elem_of_further|done].
        -- intros [Hx|(r' & Hr' & Hs' & Hx)]; apply H7; [by left|].
           apply elem_of_cons in Hr' as [->|Hr'].
           ++ left. subst x. by apply hasDomainAddrLocked_true_elem.
           ++ right. by exists r'.
      * destruct (IH (addDomainAddrLocked d (Addr_of r) e))
          as (H1 & H2 & H3 & H4 & H5 & H6 & H7). cbv zeta in *.
        repeat split; try done.
        -- intros d' Hd'. rewrite H6 by done.
           rewrite addDomainAddrLocked_domains. by rewrite lookup_insert_ne.
        -- intros Hx. apply H7 in Hx as [Hx|(r' & Hr' & ? & ?)].
           ++ apply domainAddrs_add in Hx as [?| ->]; [by left|right].
              exists r. split; [apply list_elem_of_here|done].
           ++ right. exists r'. split; [by apply list_elem_of_further|done].
        -- intros [Hx|(r' & Hr' & Hs' & Hx)]; apply H7.
           ++ left. apply domainAddrs_add. by left.
           ++ apply elem_of_cons in Hr' as [->|Hr'].
              ** left. apply domainAddrs_add. by right.
              ** right. by exists r'.
    + destruct (IH e) as (H1 & H2 & H3 & H4 & H5 & H6 & H7). cbv zeta in *.
      repeat split; try done.
      * intros Hx. apply H7 in Hx as [?|(r' & Hr' & ? & ?)]; [by left|right].
        exists r'. split; [by apply list_elem_of_further|done].
      * intros [Hx|(r' & Hr' & Hs' & Hx)]; apply H7; [by left|right].
        apply elem_of_cons in Hr' as [->|Hr']; [congruence|]. by exists r'.
Qed.

Lemma unadvertisedLocked_spec d routes :
  ∀ e,
    listsInv e →
    let e' := unadvertisedLocked d routes e in
    listsInv e'
    ∧ routeAdvertiser e' = routeAdvertiser e ∧ controlRoutes e' = controlRoutes e
    ∧ wildcards e' = wildcards e ∧ queue e' = queue e ∧ inflight e' = inflight e
    ∧ (∀ d', d' ≠ d → domains e' !! d' = domains e !! d')
    ∧ (∀ x, x ∈ domainAddrs d e'
            ↔ x ∈ domainAddrs d e
              ∧ ¬ ∃ r, r ∈ routes ∧ IsSingleIP r = true ∧ Addr_of r = x).
Proof.
  induction routes as [|r routes IH]; intros e Hi; cbv zeta.
  - simpl. repeat split; try done; try apply Hi; [|by intros [? _]].
    intros (r & Hr & _). by apply elem_of_nil in Hr.
  - simpl. destruct (IsSingleIP r) eqn:Hsingle; simpl.
    + pose proof (deleteDomainAddrLocked_listsInv e d (Addr_of r) Hi) as Hi1.
      destruct (deleteDomainAddrLocked_frame e d (Addr_of r)) as (F1 & F2 & F3 & F4 & F5).
      destruct (IH _ Hi1) as (H0 & H1 & H2 & H3 & H4 & H5 & H6 & H7).
      cbv zeta in *. split; [done|].
      split; [congruence|]. split; [congruence|]. split; [congruence|].
      split; [congruence|]. split; [congruence|]. split.
      * intros d' Hd'. rewrite H6 by done.
        rewrite deleteDomainAddrLocked_domains. cbv zeta.
        destruct (slices.BinarySearchFunc _ _ _).2; [|done].
        by rewrite lookup_insert_ne.
      * intros x. rewrite H7, (domainAddrs_delete_elem e d (Addr_of r) Hi). split.
        -- intros [[Hx Hne] Hno]. split; [done|].
           intros (r' & Hr' & Hs' & Hx'). apply elem_of_cons in Hr' as [->|Hr'].
           ++ congruence.
           ++ apply Hno. by exists r'.
        -- intros [Hx Hno]. split; [split; [done|]|].
           ++ intros ->. apply Hno. exists r. split; [apply list_elem_of_here|done].
           ++ intros (r' & Hr' & Hs' & Hx'). apply Hno. exists r'.
              split; [by apply list_elem_of_further|done].
    + destruct (IH _ Hi) as (H0 & H1 & H2 & H3 & H4 & H5 & H6 & H7).
      cbv zeta in *. split; [done|].
      split; [done|]. split; [done|]. split; [done|].
      split; [done|]. split; [done|]. split; [done|].
      intros x. rewrite H7. split.
      * intros [Hx Hno]. split; [done|].
        intros (r' & Hr' & Hs' & Hx'). apply Hno.
        apply elem_of_cons in Hr' as [->|Hr']; [congruence|]. by exists r'.
      * intros [Hx Hno]. split; [done|].
        intros (r' & Hr' & Hs' & Hx'). apply Hno. exists r'.
        split; [by apply list_elem_of_further|done].
Qed.

(** X5.  The scheduled advertise task, run by an idle worker: it makes the one
    advertise call; when the call fails no list changes, so the addresses
    are not taken as known; when it succeeds, the domain's list gains the
    addresses of the single-address prefixes among the routes and nothing
    else, and the other domains keep their lists. *)
Theorem advertise_task_records_on_success
        (e : AppConnector) (d : string) (routes : list Prefix) :
  inflight e = None →
  let e' := runTask (TaskAdvertise d routes) e in
  calls (routeAdvertiser e')
  = calls (routeAdvertiser e) ++ [CallAdvertiseRoute routes]
  ∧ store (routeAdvertiser e') = store (routeAdvertiser e)
  ∧ if advertiseFails (calls (routeAdvertiser e)) routes
    then domains e' = domains e
    else (∀ x, x ∈ domainAddrs d e'
               ↔ x ∈ domainAddrs d e
                 ∨ ∃ r, r ∈ routes ∧ IsSingleIP r = true ∧ Addr_of r = x)
         ∧ (∀ d', d' ≠ d → domains e' !! d' = domains e !! d').
Proof.
  intros Hidle. cbv zeta. unfold runTask. simpl.
  destruct (advertiseFails (calls (routeAdvertiser e)) routes); simpl.
  - rewrite Hidle. by repeat split.
  - match goal with
    | |- context [advertisedLocked d routes ?e0] =>
        destruct (advertisedLocked_spec d routes e0) as (H1 & _ & _ & _ & _ & H6 & H7)
    end.
    cbv zeta in *. rewrite H1. simpl.
    split; [done|]. split; [done|]. split; [exact H7|exact H6].
Qed.

(** X6.  The scheduled unadvertise task, run by an idle worker on sorted
    duplicate-free lists: it makes the one unadvertise call; on failure no
    list changes; on success the domain's list loses exactly the addresses
    of the single-address prefixes among the routes. *)
Theorem unadvertise_task_forgets_on_success
        (e : AppConnector) (d : string) (routes : list Prefix) :
  inflight e = None → listsInv e →
  let e' := runTask (TaskUnadvertise d routes) e in
  calls (routeAdvertiser e')
  = calls (routeAdvertiser e) ++ [CallUnadvertiseRoute routes]
  ∧ store (routeAdvertiser e') = store (routeAdvertiser e)
  ∧ if unadvertiseFails (calls (routeAdvertiser e)) routes
    then domains e' = domains e
    else (∀ x, x ∈ domainAddrs d e'
               ↔ x ∈ domainAddrs d e
                 ∧ ¬ ∃ r, r ∈ routes ∧ IsSingleIP r = true ∧ Addr_of r = x)
         ∧ (∀ d', d' ≠ d → domains e' !! d' = domains e !! d').
Proof.
  intros Hidle Hi. cbv zeta. unfold runTask. simpl.
  destruct (unadvertiseFails (calls (routeAdvertiser e)) routes); simpl.
  - rewrite Hidle. by repeat split.
  - match goal with
    | |- context [unadvertisedLocked d routes ?e0] =>
        destruct (unadvertisedLocked_spec d routes e0)
          as (_ & H1 & _ & _ & _ & _ & H6 & H7);
        [by eapply listsInv_domains; [|exact Hi]|]
    end.
    cbv zeta in *. rewrite H1. simpl.
    split; [done|]. split; [done|]. split; [exact H7|exact H6].
Qed.

End scheduled_tasks.

(** ** What an observation can and cannot change *)
Section observation_frame.
Context `{Ext : Externals} `{DNS : ParserOps}.

(** [e'] keeps the operator routes, wildcards and worker position of [e],
    keeps every domain of [e] with at least its addresses, only appends
    scheduled tasks to the queue, and only adds reads and writes of the
    snapshot to the calls. *)
Local Abbreviation extends e e' :=
  (controlRoutes e' = controlRoutes e ∧ wildcards e' = wildcards e
   ∧ inflight e' = inflight e
   ∧ (∃ new, queue e' = queue e ++ new
             ∧ Forall (λ t, ∃ d rs, t = TaskAdvertise d rs ∨ t = TaskUnadvertise d rs)
                      new)
   ∧ (∃ cs, calls (routeAdvertiser e') = calls (routeAdvertiser e) ++ cs
            ∧ Forall (λ c, c = CallReadRouteInfoFromStore
                           ∨ ∃ ri, c = CallUpdateRoutesInfoToStore ri) cs)
   ∧ (∀ d l, domains e !! d = Some l →
             ∃ l', domains e' !! d = Some l' ∧ l ⊆ l')).

Local Ltac same_fields :=
  split; [done|]; split; [done|]; split; [done|];
  split; [exists []; split; [by rewrite app_nil_r|constructor]|];
  split; [exists []; split; [by rewrite app_nil_r|constructor]|].

Lemma extends_refl e : extends e e.
Proof. same_fields. intros d l Hl. by exists l. Qed.

Lemma extends_trans e1 e2 e3 : extends e1 e2 → extends e2 e3 → extends e1 e3.
Proof.
  intros (A1 & A2 & A3 & (n1 & A4 & A4') & (c1 & A5 & A5') & A6)
         (B1 & B2 & B3 & (n2 & B4 & B4') & (c2 & B5 & B5') & B6).
  split; [congruence|]. split; [congruence|]. split; [congruence|].
  split; [|split].
  - exists (n1 ++ n2). rewrite B4, A4, <- app_assoc. split; [done|].
    by apply Forall_app.
  - exists (c1 ++ c2). rewrite B5, A5, <- app_assoc. split; [done|].
    by apply Forall_app.
  - intros d l Hl. destruct (A6 d l Hl) as (l2 & Hl2 & Hsub).
    destruct (B6 d l2 Hl2) as (l3 & Hl3 & Hsub').
    exists l3. split; [done|]. by etrans.
Qed.

Lemma extends_domains e (doms : gmap string (list Addr)) :
  (∀ d l, domains e !! d = Some l → ∃ l', doms !! d = Some l' ∧ l ⊆ l') →
  extends e (set_domains doms e).
Proof.
  intros Hd. same_fields. exact Hd.
Qed.

Lemma findRoutedDomainLocked_extends fuel :
  ∀ domain chain e d r e',
    findRoutedDomainLocked fuel domain chain e = Some (d, r, e') → extends e e'.
Proof.
  induction fuel as [|fuel IH]; intros domain chain e d r e'; simpl; [done|].
  case_bool_decide as Hkey; [intros [= _ _ <-]; apply extends_refl|].
  assert (extends e (set_domains (matchWildcards domain (wildcards e) (domains e)).1 e))
    as Hext.
  { apply extends_domains. intros d0 l Hl.
    destruct (matchWildcards_cases domain (wildcards e) (domains e)) as [-> | ->];
      simpl; [by exists l|].
    exists l. split; [|done]. rewrite lookup_insert_ne; [done|].
    intros ->. apply Hkey. by exists l. }
  destruct (matchWildcards domain (wildcards e) (domains e)) as [doms routed].
  simpl in Hext.
  destruct (chain !! domain) as [next|]; [|by intros [= _ _ <-]].
  intros Hf. apply (extends_trans e (set_domains doms e) e'); [exact Hext|].
  by eapply IH.
Qed.

Lemma addDomainAddrLocked_extends e d a : extends e (addDomainAddrLocked d a e).
Proof.
  same_fields.
  intros d0 l Hl. rewrite addDomainAddrLocked_domains.
  destruct (decide (d = d0)) as [->|Hne].
  - rewrite lookup_insert_eq. eexists. split; [done|].
    intros x Hx. rewrite SortFunc_perm. apply elem_of_app. left.
    unfold domainAddrs. by rewrite Hl.
  - rewrite lookup_insert_ne by done. by exists l.
Qed.

Lemma classifyAddrs_extends d addrs :
  ∀ adv upd e, extends e (classifyAddrs d addrs adv upd e).2.
Proof.
  induction addrs as [|a addrs IH]; intros adv upd e; simpl; [apply extends_refl|].
  unfold isAddrKnownLocked.
  destruct (hasDomainAddrLocked d a e); simpl; [apply IH|].
  destruct (existsb _ _); simpl; [|apply IH].
  apply (extends_trans e (addDomainAddrLocked d a e));
    [apply addDomainAddrLocked_extends|apply IH].
Qed.

Lemma observeRecord_extends fuel now chain owner addrs e e' :
  observeRecord fuel now chain owner addrs e = Some e' → extends e e'.
Proof.
  unfold observeRecord.
  destruct (findRoutedDomainLocked fuel owner chain e) as [[[d r] e1]|] eqn:Hf;
    [|done].
  pose proof (findRoutedDomainLocked_extends _ _ _ _ _ _ _ Hf) as H1.
  destruct r; simpl; [|by intros [= <-]].
  pose proof (classifyAddrs_extends d addrs [] [] e1) as H2.
  destruct (classifyAddrs d addrs [] [] e1) as [[adv upd] e2]. simpl in H2.
  destruct (OutDatedRoutesInDiscoveredForDomain _ _ _) as [ri out] eqn:Ho.
  intros [= <-].
  apply (extends_trans e e1); [exact H1|].
  apply (extends_trans e1 e2); [exact H2|].
  split; [done|]. split; [done|]. split; [done|]. split; [|split].
  - exists [TaskAdvertise d adv; TaskUnadvertise d out].
    split; [simpl; by rewrite <- app_assoc|].
    repeat constructor; eauto.
  - exists [CallReadRouteInfoFromStore; CallUpdateRoutesInfoToStore ri].
    split; [simpl; by rewrite <- app_assoc|].
    constructor; [by left|]. constructor; [right; by exists ri|constructor].
  - intros d0 l Hl. by exists l.
Qed.

Lemma observeRecords_extends fuel now chain records :
  ∀ e e', observeRecords fuel now chain records e = Some e' → extends e e'.
Proof.
  induction records as [|[owner addrs] records IH]; intros e e'; simpl.
  - intros [= <-]. apply extends_refl.
  - destruct (observeRecord fuel now chain owner addrs e) as [e1|] eqn:Ho; [|done].
    intros Hr. apply (extends_trans e e1 e');
      [by eapply observeRecord_extends|by apply IH].
Qed.

(** X7.  An observation that returns has not touched the operator routes or the
    wildcards, has made no advertise or unadvertise call itself (only reads
    and writes of the snapshot), has only appended scheduled tasks to the
    queue, and has kept every domain with all the addresses it had. *)
Theorem ObserveDNSResponse_only_extends
        (fuel : nat) (now : Time) (res : list Byte.byte) (e e' : AppConnector) :
  ObserveDNSResponse fuel now res e = Some e' →
  controlRoutes e' = controlRoutes e ∧ wildcards e' = wildcards e
  ∧ inflight e' = inflight e
  ∧ (∃ new, queue e' = queue e ++ new
            ∧ Forall (λ t, ∃ d rs, t = TaskAdvertise d rs ∨ t = TaskUnadvertise d rs)
                     new)
  ∧ (∃ cs, calls (routeAdvertiser e') = calls (routeAdvertiser e) ++ cs
           ∧ Forall (λ c, c = CallReadRouteInfoFromStore
                          ∨ ∃ ri, c = CallUpdateRoutesInfoToStore ri) cs)
  ∧ (∀ d l, domains e !! d = Some l →
            ∃ l', domains e' !! d = Some l' ∧ l ⊆ l').
Proof.
  unfold ObserveDNSResponse.
  destruct (parseResponse fuel res) as [|chain recs|]; [| |done].
  - intros [= <-]. apply extends_refl.
  - apply observeRecords_extends.
Qed.

End observation_frame.

(** ** The walk: what it registers and when it does not end *)
Section walk_more.
Context `{Ext : Externals} `{DNS : ParserOps}.

Lemma matchWildcards_existsb domain wcs doms :
  matchWildcards domain wcs doms
  = if existsb (dnsname_HasSuffix domain) wcs
    then (<[domain := []]> doms, true) else (doms, false).
Proof.
  induction wcs as [|wc wcs IH]; simpl; [done|].
  by destruct (dnsname_HasSuffix domain wc).
Qed.

Lemma set_domains_same (e : AppConnector) : set_domains (domains e) e = e.
Proof. by destruct e. Qed.

(** Keys after a walk: the old entries as they were, and new empty entries
    only for names that a wildcard matches. *)
Lemma findRoutedDomainLocked_keys fuel :
  ∀ domain chain e d r e',
    findRoutedDomainLocked fuel domain chain e = Some (d, r, e') →
    (r = true → is_Some (domains e' !! d))
    ∧ (∀ k l, domains e !! k = Some l → domains e' !! k = Some l)
    ∧ (∀ k, domains e !! k = None → is_Some (domains e' !! k) →
            domains e' !! k = Some []
            ∧ existsb (dnsname_HasSuffix k) (wildcards e) = true).
Proof.
  induction fuel as [|fuel IH]; intros domain chain e d r e'; simpl; [done|].
  case_bool_decide as Hkey.
  { intros [= <- <- <-]. split; [done|]. split; [done|].
    intros k Hk [x Hx]. congruence. }
  rewrite matchWildcards_existsb.
  destruct (existsb (dnsname_HasSuffix domain) (wildcards e)) eqn:Hw.
  - assert (domains e !! domain = None) as Hnone.
    { destruct (domains e !! domain) eqn:E; [|done]. exfalso. apply Hkey. eauto. }
    destruct (chain !! domain) as [next|].
    + intros Hf. destruct (IH _ _ _ _ _ _ Hf) as (H1 & H2 & H3). simpl in *.
      split; [done|]. split.
      * intros k l Hk. apply H2. rewrite lookup_insert_ne; [done|]. congruence.
      * intros k Hk Hsome. destruct (decide (k = domain)) as [->|Hne].
        -- split; [|done]. apply H2. apply lookup_insert_eq.
        -- apply H3; [|done]. by rewrite lookup_insert_ne.
    + intros [= <- <- <-]. simpl. split; [intros _; rewrite lookup_insert_eq; eauto|].
      split.
      * intros k l Hk. rewrite lookup_insert_ne; [done|]. congruence.
      * intros k Hk [x Hx]. destruct (decide (k = domain)) as [->|Hne].
        -- by rewrite lookup_insert_eq.
        -- rewrite lookup_insert_ne in Hx by done. congruence.
  - rewrite set_domains_same. destruct (chain !! domain) as [next|].
    + intros Hf. by destruct (IH _ _ _ _ _ _ Hf) as (H1 & H2 & H3).
    + intros [= <- <- <-]. split; [done|]. split; [done|].
      intros k Hk [x Hx]. congruence.
Qed.

(** X8.  When the walk reports a routed domain, that name is a key of the
    exact-domain map it leaves; the entries that existed keep their lists;
    and whatever key is new has an empty list and is matched by a
    wildcard. *)
Theorem findRoutedDomainLocked_routed_is_registered
        (fuel : nat) (domain d : string) (chain : gmap string string)
        (e e' : AppConnector) :
  findRoutedDomainLocked fuel domain chain e = Some (d, true, e') →
  is_Some (domains e' !! d)
  ∧ (∀ k l, domains e !! k = Some l → domains e' !! k = Some l)
  ∧ (∀ k, domains e !! k = None → is_Some (domains e' !! k) →
          domains e' !! k = Some []
          ∧ existsb (dnsname_HasSuffix k) (wildcards e) = true).
Proof.
  intros Hf. destruct (findRoutedDomainLocked_keys _ _ _ _ _ _ _ Hf) as (H1 & H2 & H3).
  split; [by apply H1|]. by split.
Qed.

(** A set of names is closed and unrouted when none of them is a key, none
    is matched by a wildcard, and each has an alias edge into the set. *)
Local Abbreviation closedUnrouted S chain e :=
  (∀ n : string, S n →
     domains e !! n = None
     ∧ existsb (dnsname_HasSuffix n) (wildcards e) = false
     ∧ ∃ n', chain !! n = Some n' ∧ S n').

Lemma findRoutedDomainLocked_cycle (S : string → Prop) chain e :
  closedUnrouted S chain e →
  ∀ fuel n, S n → findRoutedDomainLocked fuel n chain e = None.
Proof.
  intros Hc. induction fuel as [|fuel IH]; intros n Hn; simpl; [done|].
  destruct (Hc n Hn) as (Hk & Hw & n' & Hn' & HS).
  rewrite bool_decide_eq_false_2 by (rewrite Hk; by intros [? ?]).
  rewrite matchWildcards_existsb, Hw, set_domains_same, Hn'. by apply IH.
Qed.

(** X9.  Alias edges that lead around in a circle through names that are neither
    configured nor matched by a wildcard (a CNAME naming itself is enough):
    the walk started on such a name does not end, however long it runs. *)
Theorem findRoutedDomainLocked_alias_cycle_never_ends
        (S : string → Prop) (chain : gmap string string) (e : AppConnector) :
  (∀ n : string, S n →
     domains e !! n = None
     ∧ existsb (dnsname_HasSuffix n) (wildcards e) = false
     ∧ ∃ n', chain !! n = Some n' ∧ S n') →
  ∀ (fuel : nat) (n : string), S n → findRoutedDomainLocked fuel n chain e = None.
Proof. apply findRoutedDomainLocked_cycle. Qed.

Lemma classifyAddrs_keys d addrs :
  ∀ adv upd e k,
    k ≠ d → domains (classifyAddrs d addrs adv upd e).2 !! k = domains e !! k.
Proof.
  induction addrs as [|a addrs IH]; intros adv upd e k Hk; simpl; [done|].
  unfold isAddrKnownLocked.
  destruct (hasDomainAddrLocked d a e); simpl; [by apply IH|].
  destruct (existsb _ _); simpl; [|by apply IH].
  rewrite IH by done. rewrite addDomainAddrLocked_domains.
  by rewrite lookup_insert_ne.
Qed.

Lemma classifyAddrs_wildcards d addrs :
  ∀ adv upd e, wildcards (classifyAddrs d addrs adv upd e).2 = wildcards e.
Proof.
  induction addrs as [|a addrs IH]; intros adv upd e; simpl; [done|].
  unfold isAddrKnownLocked.
  destruct (hasDomainAddrLocked d a e); simpl; [by apply IH|].
  destruct (existsb _ _); simpl; by rewrite IH.
Qed.

Lemma observeRecord_closedUnrouted S chain fuel now owner addrs e e' :
  closedUnrouted S chain e →
  observeRecord fuel now chain owner addrs e = Some e' →
  closedUnrouted S chain e'.
Proof.
  intros Hc. unfold observeRecord.
  destruct (findRoutedDomainLocked fuel owner chain e) as [[[d r] e1]|] eqn:Hf;
    [|done].
  destruct (findRoutedDomainLocked_keys _ _ _ _ _ _ _ Hf) as (H1 & H2 & H3).
  destruct (findRoutedDomainLocked_frame _ _ _ _ _ _ _ Hf) as (_ & _ & _ & Hw1 & _).
  assert (closedUnrouted S chain e1) as Hc1.
  { intros n Hn. destruct (Hc n Hn) as (Hk & Hw & Hnext).
    split; [|split; [by rewrite Hw1|done]].
    destruct (domains e1 !! n) eqn:E; [|done].
    destruct (H3 n Hk) as [_ Hw']; [eauto|congruence]. }
  destruct r; simpl; [|by intros [= <-]].
  pose proof (classifyAddrs_keys d addrs [] [] e1) as Hkeys.
  pose proof (classifyAddrs_wildcards d addrs [] [] e1) as Hw2.
  destruct (classifyAddrs d addrs [] [] e1) as [[adv upd] e2]. simpl in *.
  destruct (OutDatedRoutesInDiscoveredForDomain _ _ _) as [ri out].
  intros [= <-]. simpl. intros n Hn.
  destruct (Hc1 n Hn) as (Hk & Hw & Hnext).
  split; [|split; [by rewrite Hw2|done]].
  rewrite Hkeys; [done|]. intros ->.
  destruct (H1 eq_refl) as [x Hx]. congruence.
Qed.

Lemma observeRecords_cycle S chain fuel now records :
  ∀ e owner addrs,
    closedUnrouted S chain e →
    (owner, addrs) ∈ records → S owner →
    observeRecords fuel now chain records e = None.
Proof.
  induction records as [|[o a] records IH]; intros e owner addrs Hc Hin HS.
  - by apply elem_of_nil in Hin.
  - simpl. apply elem_of_cons in Hin as [[= <- <-]|Hin].
    + unfold observeRecord. by rewrite (findRoutedDomainLocked_cycle S chain e Hc).
    + destruct (observeRecord fuel now chain o a e) as [e1|] eqn:Ho; [|done].
      eapply IH; [|exact Hin|exact HS].
      by eapply observeRecord_closedUnrouted.
Qed.

(** X10.  A response that parses, with ASCII names in the two maps read
    from it (a lower-cased name is ASCII only when the name was) and with
    address records for a name on such a circle of aliases:
    [ObserveDNSResponse] does not return, whatever the other records
    are. *)
Theorem ObserveDNSResponse_alias_cycle_never_returns
        (S : string → Prop) (fuel0 : nat) (res : list Byte.byte)
        (chain : gmap string string) (recs : gmap string (list Addr))
        (owner : string) (e : AppConnector) :
  parseResponse fuel0 res = Parsed chain recs →
  (∀ k v, chain !! k = Some v →
          strs.isASCII k = true ∧ strs.isASCII v = true) →
  (∀ k, is_Some (recs !! k) → strs.isASCII k = true) →
  is_Some (recs !! owner) → S owner →
  (∀ n : string, S n →
     domains e !! n = None
     ∧ existsb (dnsname_HasSuffix n) (wildcards e) = false
     ∧ ∃ n', chain !! n = Some n' ∧ S n') →
  ∀ (fuel : nat) (now : Time), ObserveDNSResponse fuel now res e = None.
Proof.
  intros Hp _ _ [addrs Hrec] HS Hc fuel now. unfold ObserveDNSResponse.
  destruct (parseResponse fuel res) as [|chain' recs'|] eqn:Hp'; [| |done].
  - exfalso. destruct (Nat.le_ge_cases fuel fuel0) as [Hle|Hle].
    + rewrite (parseResponse_mono fuel fuel0 res Hle) in Hp by (by rewrite Hp').
      congruence.
    + rewrite (parseResponse_mono fuel0 fuel res Hle) in Hp' by (by rewrite Hp).
      congruence.
  - assert (chain' = chain ∧ recs' = recs) as [-> ->].
    { destruct (Nat.le_ge_cases fuel fuel0) as [Hle|Hle].
      + rewrite (parseResponse_mono fuel fuel0 res Hle) in Hp by (by rewrite Hp').
        rewrite Hp' in Hp. by injection Hp as -> ->.
      + rewrite (parseResponse_mono fuel0 fuel res Hle) in Hp' by (by rewrite Hp).
        rewrite Hp in Hp'. by injection Hp' as -> ->. }
    apply (observeRecords_cycle S chain fuel now _ e owner addrs); [done| |done].
    by apply elem_of_map_to_list.
Qed.

End walk_more.

(** ** One address record, end to end *)
Section single_answer.
Context `{Ext : Externals} `{DNS : ParserOps}.

(** A response whose answer section is one internet-class A record. *)
Lemma parseResponse_single_A fuel res p0 p1 p2 p3 h v :
  Start res = Some p0 → SkipAllQuestions p0 = Some p1 →
  AnswerHeader p1 = HeaderOk h p2 →
  hClass h = ClassINET → hType h = TypeA →
  (String.length (strs.TrimSuffix (strs.ToLower (hName h)) ".") =? 0)%nat = false →
  AResource p2 = Some (v, p3) →
  AnswerHeader p3 = ErrSectionDone →
  parseResponse (S (S fuel)) res
  = Parsed ∅ {[ strs.TrimSuffix (strs.ToLower (hName h)) "." := [AddrFrom4 v] ]}.
Proof.
  intros Hs Hq Hh Hc Ht Hd Ha Hend. unfold parseResponse. rewrite Hs, Hq.
  simpl. rewrite Hh, Hc, Ht, Hd. simpl. rewrite Ha. simpl. rewrite Hend.
  by rewrite lookup_empty, insert_empty.
Qed.

Lemma classifyAddrs_one d a e :
  classifyAddrs d [a] [] [] e
  = if hasDomainAddrLocked d a e then ([], [single a], e)
    else if covered e a then ([], [single a], addDomainAddrLocked d a e)
         else ([single a], [], e).
Proof.
  simpl. unfold isAddrKnownLocked, covered, single.
  destruct (hasDomainAddrLocked d a e); [done|].
  by destruct (existsb _ _).
Qed.

(** X11.  An A record for a configured domain, with the owner name in any case
    and with or without the final dot: an address that is neither in the
    domain's list nor inside an operator route is scheduled for
    advertisement under the lower-cased name, and the lists are left alone
    until the task has run; an address already in the list schedules an
    advertisement of nothing. *)
Theorem ObserveDNSResponse_single_A_record
        (fuel : nat) (now : Time) (res : list Byte.byte)
        (p0 p1 p2 p3 : Parser) (h : ResourceHeader) (v : N)
        (e : AppConnector) (l : list Addr) :
  Start res = Some p0 → SkipAllQuestions p0 = Some p1 →
  AnswerHeader p1 = HeaderOk h p2 →
  hClass h = ClassINET → hType h = TypeA →
  AResource p2 = Some (v, p3) →
  AnswerHeader p3 = ErrSectionDone →
  let d := strs.TrimSuffix (strs.ToLower (hName h)) "." in
  (String.length d =? 0)%nat = false →
  sortedDomains e → domains e !! d = Some l →
  AddrFrom4 v ∈ l ∨ covered e (AddrFrom4 v) = false →
  ∃ e' outDated,
    ObserveDNSResponse (S (S fuel)) now res e = Some e'
    ∧ domains e' = domains e
    ∧ queue e'
      = queue e ++ [TaskAdvertise d (if bool_decide (AddrFrom4 v ∈ l) then []
                                     else [single (AddrFrom4 v)]);
                    TaskUnadvertise d outDated].
Proof.
  intros Hs Hq Hh Hc Ht Ha Hend d Hd Hsorted Hl Hcase.
  pose proof (parseResponse_single_A fuel res p0 p1 p2 p3 h v
                Hs Hq Hh Hc Ht Hd Ha Hend) as Hp.
  change (strs.TrimSuffix (strs.ToLower (hName h)) ".") with d in Hp.
  clearbody d. unfold ObserveDNSResponse. rewrite Hp.
  rewrite map_to_list_singleton. cbn [observeRecords]. unfold observeRecord.
  cbn [findRoutedDomainLocked].
  rewrite bool_decide_eq_true_2 by (rewrite Hl; eauto).
  cbn [negb]. rewrite classifyAddrs_one.
  assert (domainAddrs d e = l) as Hlist by (unfold domainAddrs; by rewrite Hl).
  destruct (hasDomainAddrLocked d (AddrFrom4 v) e) eqn:Hh'.
  - apply hasDomainAddrLocked_elem in Hh'; [|done]. rewrite Hlist in Hh'.
    rewrite bool_decide_eq_true_2 by done.
    unfold ReadRouteInfoFromStore. cbn [fst snd store calls].
    destruct (OutDatedRoutesInDiscoveredForDomain _ _ _) as [ri out] eqn:Ho.
    eexists _, out. split; [reflexivity|]. split; [done|].
    simpl. by rewrite <- app_assoc.
  - assert (AddrFrom4 v ∉ l) as Hnot.
    { intros Hin. rewrite <- Hlist in Hin.
      apply hasDomainAddrLocked_elem in Hin; [|done]. congruence. }
    destruct Hcase as [?|Hcov]; [done|]. rewrite Hcov.
    rewrite bool_decide_eq_false_2 by done.
    unfold ReadRouteInfoFromStore. cbn [fst snd store calls].
    destruct (OutDatedRoutesInDiscoveredForDomain _ _ _) as [ri out] eqn:Ho.
    eexists _, out. split; [reflexivity|]. split; [done|].
    simpl. by rewrite <- app_assoc.
Qed.

(** X12.  Once a reconciliation has advertised the operator routes, the
    observation that follows schedules no advertisement for an address
    inside one of them. *)
Theorem observation_after_routes_skips_covered
        (routes : list Prefix) (fuel : nat) (now : Time) (res : list Byte.byte)
        (e e' : AppConnector) :
  slices.Equal (controlRoutes e) routes = false →
  advertiseFails (callsBeforeAdvertise routes e) routes = false →
  sortedDomains e →
  ObserveDNSResponse fuel now res (updateRoutes routes e) = Some e' →
  ∃ new, queue e' = queue e ++ new
         ∧ ∀ d rs p, TaskAdvertise d rs ∈ new → p ∈ rs →
                     ∃ a, p = single a ∧ ∀ r, r ∈ routes → Contains r a = false.
Proof.
  intros Hne Hok Hs Ho.
  destruct (updateRoutes_spec routes e Hne) as (Hd & _ & Hq & _ & H).
  cbv zeta in *. rewrite Hok in H. destruct H as (Hc & _ & _).
  assert (sortedDomains (updateRoutes routes e)) as Hs1.
  { intros d l. rewrite Hd. apply Hs. }
  destruct (ObserveDNSResponse_queues_uncovered _ _ _ _ _ Hs1 Ho) as (new & Hq' & Hnew).
  exists new. split; [by rewrite Hq', Hq|].
  intros d rs p Hin Hp. destruct (Hnew d rs p Hin Hp) as (a & -> & Hcov).
  exists a. split; [done|]. intros r Hr. unfold covered in Hcov. rewrite Hc in Hcov.
  destruct (Contains r a) eqn:E; [|done].
  assert (existsb (λ route, Contains route a) routes = true); [|congruence].
  apply existsb_exists. exists r. split; [by apply list_elem_of_In|done].
Qed.

End single_answer.

(** ** More on replacing the domain list *)
Section domains_more.
Context `{Ext : Externals}.

Lemma lowerAscii_idem c : strs.lowerAscii (strs.lowerAscii c) = strs.lowerAscii c.
Proof. destruct c as [[] [] [] [] [] [] [] []]; reflexivity. Qed.

Lemma lowerAscii_isASCII c :
  (N_of_ascii (strs.lowerAscii c) <? 128)%N = (N_of_ascii c <? 128)%N.
Proof. destruct c as [[] [] [] [] [] [] [] []]; reflexivity. Qed.

Lemma ToLower_isASCII s : strs.isASCII (strs.ToLower s) = strs.isASCII s.
Proof.
  induction s as [|c s IH]; simpl; [done|]. by rewrite lowerAscii_isASCII, IH.
Qed.

Lemma ToLower_idem s : strs.ToLower (strs.ToLower s) = strs.ToLower s.
Proof. induction s as [|c s IH]; simpl; [done|]. by rewrite lowerAscii_idem, IH. Qed.

Lemma domainsStep_lower st d : domainsStep st (strs.ToLower d) = domainsStep st d.
Proof. unfold domainsStep. by rewrite ToLower_idem. Qed.

Lemma foldl_domainsStep_lower ds :
  ∀ st, foldl domainsStep st (map strs.ToLower ds) = foldl domainsStep st ds.
Proof.
  induction ds as [|d ds IH]; intros st; simpl; [done|].
  by rewrite domainsStep_lower, IH.
Qed.

(** X13.  The case of the input names does not matter: the list and its
    lower-cased form give the same connector. *)
Theorem updateDomains_ignores_case (ds : list string) (e : AppConnector) :
  updateDomains (map strs.ToLower ds) e = updateDomains ds e.
Proof. unfold updateDomains. simpl. by rewrite foldl_domainsStep_lower. Qed.

(** X14.  In a list of ASCII names, an exact name listed once keeps what was
    discovered for it: its address list and its record, or the empty list
    and the nil record when it is new. *)
Theorem updateDomains_keeps_listed_domain
        (ds : list string) (d : string) (e : AppConnector) :
  Forall (λ s, strs.isASCII s = true) ds →
  occurrences d (exactNames ds) = 1%nat →
  let e' := updateDomains ds e in
  domains e' !! d = Some (domainAddrs d e)
  ∧ Discovered (store (routeAdvertiser e')) !! d
    = Some (default None (Discovered (store (routeAdvertiser e)) !! d)).
Proof.
  intros _ Hocc e'. subst e'.
  destruct (updateDomains_spec ds e) as (Hdom & Hdisc & _).
  rewrite Hdom, Hdisc. unfold domainsAfter, domainAddrs.
  assert (d ∈ exactNames ds) as Hin.
  { destruct (decide (d ∈ exactNames ds)) as [?|Hn]; [done|].
    apply occurrences_0 in Hn. lia. }
  rewrite !decide_True by done. done.
Qed.

(** X15.  With a new list of ASCII names, a domain that is neither listed
    nor matched by a wildcard of the list is dropped, with its addresses
    and its record. *)
Theorem updateDomains_drops_unlisted_domain
        (ds : list string) (d : string) (e : AppConnector) :
  Forall (λ s, strs.isASCII s = true) ds →
  d ∉ exactNames ds →
  existsb (dnsname_HasSuffix d) (wildcardNames ds) = false →
  let e' := updateDomains ds e in
  domains e' !! d = None
  ∧ Discovered (store (routeAdvertiser e')) !! d = None.
Proof.
  intros _ Hn Hw e'. subst e'.
  destruct (updateDomains_spec ds e) as (Hdom & Hdisc & _).
  rewrite Hdom, Hdisc. unfold domainsAfter.
  rewrite !decide_False by done. rewrite Hw.
  split; [by destruct (domains e !! d)|by destruct (Discovered _ !! d)].
Qed.

(** X16.  [Domains] after an update with a list of ASCII names: each name
    once; the exact names of the list, and the earlier domains that a
    wildcard of the list matches. *)
Theorem Domains_after_updateDomains (ds : list string) (e : AppConnector) :
  Forall (λ s, strs.isASCII s = true) ds →
  NoDup (Domains (updateDomains ds e))
  ∧ ∀ d, d ∈ Domains (updateDomains ds e)
         ↔ d ∈ exactNames ds
           ∨ (d ∈ Domains e
              ∧ existsb (dnsname_HasSuffix d) (wildcardNames ds) = true).
Proof.
  intros _.
  assert (∀ e0 d, d ∈ Domains e0 ↔ is_Some (domains e0 !! d)) as Hkeys.
  { intros e0 d. unfold Domains. rewrite list_elem_of_fmap. split.
    - intros ([k v] & -> & Hin). apply elem_of_map_to_list in Hin. eauto.
    - intros [v Hv]. exists (d, v). split; [done|]. by apply elem_of_map_to_list. }
  split; [apply NoDup_fst_map_to_list|].
  intros d. rewrite !Hkeys.
  destruct (updateDomains_spec ds e) as (Hdom & _). rewrite Hdom.
  unfold domainsAfter. destruct (decide (d ∈ exactNames ds)) as [Hin|Hn].
  - split; [by left|eauto].
  - destruct (domains e !! d) as [l|] eqn:El.
    + destruct (existsb _ _) eqn:Ew.
      * split; [right; eauto|eauto].
      * split; [by intros [? ?]|]. intros [?|[_ ?]]; [done|congruence].
    + split; [by intros [? ?]|]. intros [?|[[? ?] _]]; [done|congruence].
Qed.

(** X17.  [DomainRoutes] is the exact-domain map itself, list by list. *)
Theorem DomainRoutes_copies_domains (e : AppConnector) :
  DomainRoutes e = domains e.
Proof.
  unfold DomainRoutes.
  rewrite <- (list_to_map_to_list (domains e)) at 2.
  pose proof (NoDup_fst_map_to_list (domains e)) as Hnd.
  assert (∀ l (acc : gmap string (list Addr)),
             NoDup l.*1 → (∀ k, k ∈ l.*1 → acc !! k = None) →
             foldl (λ drCopy kv, <[kv.1 := default [] (drCopy !! kv.1) ++ kv.2]> drCopy)
                   acc l
             = list_to_map l ∪ acc) as Hgen.
  { induction l as [|[k v] l IH]; intros acc Hn Hfresh; simpl.
    - by rewrite (left_id_L ∅ (∪)).
    - inversion Hn as [|? ? Hk Hn']; subst.
      rewrite Hfresh by (simpl; apply list_elem_of_here). simpl.
      rewrite IH; [|done|].
      + rewrite <- insert_union_r by (by apply not_elem_of_list_to_map_1).
        by rewrite insert_union_l.
      + intros k' Hk'. rewrite lookup_insert_ne; [|by intros ->].
        apply Hfresh. simpl. by apply list_elem_of_further. }
  rewrite Hgen; [by rewrite (right_id_L ∅ (∪))|done|done].
Qed.

End domains_more.

(** ** More on reconciling the operator routes *)
Section routes_more.
Context `{Ext : Externals}.

Lemma slices_Equal_eq (s1 s2 : list Prefix) : slices.Equal s1 s2 = true ↔ s1 = s2.
Proof.
  revert s2. induction s1 as [|a s1 IH]; intros [|b s2]; simpl; try done.
  rewrite andb_true_iff, Prefix_eqb_eq, IH. split; [by intros [-> ->]|by intros [= -> ->]].
Qed.

Lemma slices_Contains_elem (s : list Prefix) (v : Prefix) :
  slices.Contains s v = true ↔ v ∈ s.
Proof.
  unfold slices.Contains. rewrite existsb_exists. split.
  - intros (y & Hy & Heq). apply Prefix_eqb_eq in Heq. subst. by apply list_elem_of_In.
  - intros Hin. exists v. split; [by apply list_elem_of_In|by apply Prefix_eqb_eq].
Qed.

Lemma staleCorp_elem (oldCorp routes : list Prefix) (p : Prefix) :
  p ∈ staleCorp oldCorp routes ↔ p ∈ oldCorp ∧ p ∉ routes.
Proof.
  unfold staleCorp.
  rewrite list_elem_of_In, List.filter_In, negb_true_iff, <- list_elem_of_In.
  pose proof (slices_Contains_elem routes p) as Hc.
  destruct (slices.Contains routes p); split; intros [? ?]; split; try done.
  - exfalso. tauto.
  - intros Hin. apply Hc in Hin. done.
Qed.

Lemma staleCorp_sublist (oldCorp routes : list Prefix) :
  staleCorp oldCorp routes `sublist_of` oldCorp.
Proof.
  unfold staleCorp. induction oldCorp as [|x l IH]; simpl; [done|].
  destruct (negb _); by constructor.
Qed.

(** What [updateRoutes] leaves alone, whatever the outcome. *)
Lemma updateRoutes_frame routes e :
  let e' := updateRoutes routes e in
  domains e' = domains e ∧ wildcards e' = wildcards e
  ∧ queue e' = queue e ∧ inflight e' = inflight e
  ∧ Discovered (store (routeAdvertiser e')) = Discovered (store (routeAdvertiser e)).
Proof.
  cbv zeta. destruct (slices.Equal (controlRoutes e) routes) eqn:Heq.
  - unfold updateRoutes. by rewrite Heq.
  - destruct (updateRoutes_spec routes e Heq) as (Hd & Hw & Hq & Hi & H).
    cbv zeta in H. repeat split; try done.
    destruct (advertiseFails _ routes); destruct H as (_ & -> & _); done.
Qed.

Lemma updateRoutes_set_queue routes q e :
  updateRoutes routes (set_queue q e) = set_queue q (updateRoutes routes e).
Proof.
  unfold updateRoutes. simpl.
  destruct (slices.Equal (controlRoutes e) routes); [done|].
  simpl. by destruct (advertiseFails _ routes).
Qed.

Lemma updateDomains_set_queue ds q e :
  updateDomains ds (set_queue q e) = set_queue q (updateDomains ds e).
Proof. reflexivity. Qed.

(** X18.  Once a reconciliation has succeeded, the same prefix set again does
    nothing: no collaborator call, no change. *)
Theorem updateRoutes_repeat_after_success
        (routes : list Prefix) (e : AppConnector) :
  slices.Equal (controlRoutes e) routes = false →
  advertiseFails (callsBeforeAdvertise routes e) routes = false →
  updateRoutes routes (updateRoutes routes e) = updateRoutes routes e.
Proof.
  intros Hne Hok. destruct (updateRoutes_spec routes e Hne) as (_ & _ & _ & _ & H).
  cbv zeta in H. rewrite Hok in H. destruct H as (Hc & _).
  unfold updateRoutes at 1. rewrite Hc.
  by rewrite (proj2 (slices_Equal_eq routes routes) eq_refl).
Qed.

(** X19.  After a reconciliation whose advertise call failed, the same prefix
    set again is not skipped: the store is read, the same stale prefixes
    are unadvertised and the set is advertised once more. *)
Theorem updateRoutes_retries_after_failure
        (routes : list Prefix) (e : AppConnector) :
  slices.Equal (controlRoutes e) routes = false →
  advertiseFails (callsBeforeAdvertise routes e) routes = true →
  let e1 := updateRoutes routes e in
  ∃ rest,
    calls (routeAdvertiser (updateRoutes routes e1))
    = calls (routeAdvertiser e1)
      ++ [CallReadRouteInfoFromStore;
          CallUnadvertiseRoute (staleCorp (Corp (store (routeAdvertiser e))) routes);
          CallAdvertiseRoute routes]
      ++ rest.
Proof.
  intros Hne Hfail e1. subst e1.
  destruct (updateRoutes_spec routes e Hne) as (_ & _ & _ & _ & H).
  cbv zeta in H. rewrite Hfail in H. destruct H as (Hc & Hs & _).
  assert (slices.Equal (controlRoutes (updateRoutes routes e)) routes = false) as Hne1
      by (by rewrite Hc).
  destruct (updateRoutes_spec routes (updateRoutes routes e) Hne1)
    as (_ & _ & _ & _ & H).
  cbv zeta in H. unfold callsBeforeAdvertise in H. rewrite Hs in H.
  destruct (advertiseFails (_ ++ _) routes); destruct H as (_ & _ & ->);
    rewrite <- !app_assoc; simpl; eexists; reflexivity.
Qed.

(** X20.  A reconciliation starts by unadvertising the stored operator prefixes
    that the new set no longer holds, in their stored order, and only then
    advertises the new set. *)
Theorem updateRoutes_unadvertises_stale_first
        (routes : list Prefix) (e : AppConnector) :
  slices.Equal (controlRoutes e) routes = false →
  ∃ stale rest,
    calls (routeAdvertiser (updateRoutes routes e))
    = calls (routeAdvertiser e)
      ++ CallReadRouteInfoFromStore :: CallUnadvertiseRoute stale
         :: CallAdvertiseRoute routes :: rest
    ∧ stale `sublist_of` Corp (store (routeAdvertiser e))
    ∧ ∀ p, p ∈ stale ↔ p ∈ Corp (store (routeAdvertiser e)) ∧ p ∉ routes.
Proof.
  intros Hne. destruct (updateRoutes_spec routes e Hne) as (_ & _ & _ & _ & H).
  cbv zeta in H. unfold callsBeforeAdvertise in H.
  exists (staleCorp (Corp (store (routeAdvertiser e))) routes).
  destruct (advertiseFails _ routes); destruct H as (_ & _ & ->);
    rewrite <- !app_assoc; simpl; eexists;
      (split; [reflexivity|]); (split; [apply staleCorp_sublist|]);
      intros p; apply staleCorp_elem.
Qed.

(** X21.  The prefixes unadvertised as subsumed belong to discovered addresses,
    and those addresses stay in their domain's list: the call changes no
    list. *)
Theorem updateRoutes_subsumed_addresses_stay_listed
        (routes : list Prefix) (e : AppConnector) :
  slices.Equal (controlRoutes e) routes = false →
  advertiseFails (callsBeforeAdvertise routes e) routes = false →
  let e' := updateRoutes routes e in
  domains e' = domains e
  ∧ ∃ toRemove ri,
      calls (routeAdvertiser e')
      = callsBeforeAdvertise routes e
        ++ [CallAdvertiseRoute routes; CallUnadvertiseRoute toRemove;
            CallUpdateRoutesInfoToStore ri]
      ∧ ∀ p, p ∈ toRemove →
             ∃ d l a r, domains e' !! d = Some l ∧ a ∈ l ∧ p = single a
                        ∧ r ∈ routes ∧ Contains r a = true ∧ p ≠ r.
Proof.
  intros Hne Hok e'. subst e'.
  destruct (updateRoutes_spec routes e Hne) as (Hd & _ & _ & _ & H).
  cbv zeta in H. rewrite Hok in H. destruct H as (_ & _ & Hcalls).
  split; [exact Hd|]. do 2 eexists. split; [exact Hcalls|].
  intros p Hp. rewrite scanRoutes_finds in Hp.
  apply list_elem_of_omap in Hp as (o & Ho & Hf). simpl in Hf. subst o.
  apply elem_of_lookup_imap in Ho as (i & r & Hf & Hr).
  apply list_elem_of_lookup_2 in Hr.
  unfold firstSubsumed in Hf.
  destruct (List.find _ _) as [a|] eqn:Ef; [|done]. simpl in Hf.
  injection Hf as ->.
  apply find_first_split in Ef as (pre & post & Heq & _ & Ha).
  unfold subsumes in Ha. apply andb_true_iff in Ha as [Hc Ha].
  apply negb_true_iff in Ha.
  destruct (scanOrder_entries routes i e) as (entries & Hperm & Hscan).
  assert (a ∈ concat (map snd entries)) as Hin.
  { rewrite <- Hscan, Heq. apply elem_of_app. right. apply list_elem_of_here. }
  apply list_elem_of_In, in_concat in Hin as (l & Hl & Hal).
  apply in_map_iff in Hl as ([d l'] & <- & Hdl). simpl in Hal.
  apply list_elem_of_In in Hal. apply list_elem_of_In in Hdl.
  rewrite Hperm in Hdl. apply elem_of_map_to_list in Hdl.
  exists d, l', a, r. rewrite Hd. repeat split; try done.
  intros Heq'. apply Prefix_eqb_eq in Heq'. unfold single in Heq'. congruence.
Qed.

End routes_more.

(** ** Updating domains and routes together *)
Section both_halves.
Context `{Ext : Externals} `{DNS : ParserOps}.

(** X22.  [UpdateDomainsAndRoutes] and one run of the worker, on an idle
    connector: the domain half ends as [updateDomains] alone would leave
    it, whether or not the routes were advertised, and the route half as
    [updateRoutes] alone would. *)
Theorem UpdateDomainsAndRoutes_halves_independent
        (ds : list string) (routes : list Prefix) (e : AppConnector) :
  queue e = [] → inflight e = None →
  ∃ e', runEvents [EvUpdateDomainsAndRoutes ds routes; EvWorker] e = Some e'
        ∧ domains e' = domains (updateDomains ds e)
        ∧ wildcards e' = wildcards (updateDomains ds e)
        ∧ Discovered (store (routeAdvertiser e'))
          = Discovered (store (routeAdvertiser (updateDomains ds e)))
        ∧ controlRoutes e' = controlRoutes (updateRoutes routes e)
        ∧ Corp (store (routeAdvertiser e'))
          = Corp (store (routeAdvertiser (updateRoutes routes e)))
        ∧ queue e' = [] ∧ inflight e' = None.
Proof.
  intros Hq Hi. exists (updateDomains ds (updateRoutes routes e)).
  assert (runEvents [EvUpdateDomainsAndRoutes ds routes; EvWorker] e
          = Some (updateDomains ds (updateRoutes routes e))) as Hrun.
  { simpl. unfold workerStep, queueAdd. simpl. rewrite Hi, Hq. simpl.
    do 3 f_equal. destruct e; simpl in *; by subst. }
  split; [exact Hrun|].
  destruct (updateRoutes_frame routes e) as (Hd & Hw & Hq' & Hi' & Hdisc).
  destruct (updateDomains_spec ds (updateRoutes routes e))
    as (Hdom1 & Hdisc1 & Hw1 & Hcorp1 & _ & Hc1 & Hq1 & Hi1).
  destruct (updateDomains_spec ds e) as (Hdom2 & Hdisc2 & Hw2 & _).
  split_and!.
  - apply map_eq. intros k. by rewrite Hdom1, Hdom2, Hd.
  - by rewrite Hw1, Hw2.
  - apply map_eq. intros k. by rewrite Hdisc1, Hdisc2, Hdisc.
  - exact Hc1.
  - exact Hcorp1.
  - by rewrite Hq1, Hq'.
  - by rewrite Hi1, Hi'.
Qed.

End both_halves.

(** ** Accepted risks and prompts *)
Section risks.
Import cli.

Lemma Split_nonempty s sep : Split s sep ≠ [].
Proof.
  induction s as [|c s IH]; simpl; [done|].
  destruct (Ascii.eqb c sep); [done|]. by destruct (Split s sep).
Qed.

Lemma Split_free s sep : freeOf sep s = true → Split s sep = [s].
Proof.
  induction s as [|c s IH]; simpl; [done|].
  intros [Hc Hs]%andb_true_iff. apply negb_true_iff in Hc. rewrite Hc.
  by rewrite IH.
Qed.

Lemma Split_app_sep x rest sep :
  freeOf sep x = true →
  Split (x ++ String sep rest)%string sep = x :: Split rest sep.
Proof.
  induction x as [|c x IH]; simpl.
  - intros _. by rewrite Ascii.eqb_refl.
  - intros [Hc Hs]%andb_true_iff. apply negb_true_iff in Hc. rewrite Hc.
    by rewrite IH.
Qed.

Lemma Split_Join rs sep :
  rs ≠ [] → Forall (λ r, freeOf sep r = true) rs →
  Split (Join rs (String sep EmptyString)) sep = rs.
Proof.
  induction rs as [|x rs IH]; [done|]. intros _ Hall.
  apply Forall_cons in Hall as [Hx Hrs].
  destruct rs as [|y rs]; [by apply Split_free|].
  change (Join (x :: y :: rs) (String sep EmptyString))
    with (x ++ String sep (Join (y :: rs) (String sep EmptyString)))%string.
  rewrite Split_app_sep by done. by rewrite IH.
Qed.

Lemma isRiskAccepted_elem riskType acceptedRisks :
  isRiskAccepted riskType acceptedRisks = true
  ↔ riskType ∈ Split acceptedRisks "," ∨ riskAll ∈ Split acceptedRisks ",".
Proof.
  unfold isRiskAccepted. rewrite existsb_exists. split.
  - intros (r & Hin & Hr). apply list_elem_of_In in Hin.
    apply orb_true_iff in Hr as [Hr|Hr]; apply String.eqb_eq in Hr; subst; auto.
  - intros [Hin|Hin]; apply list_elem_of_In in Hin; eexists; (split; [exact Hin|]);
      apply orb_true_iff; [left|right]; apply String.eqb_refl.
Qed.

(** X23.  With the flag built by joining risk names with commas, a risk is
    accepted exactly when it is one of the names, or when [all] is. *)
Theorem isRiskAccepted_joined_names (riskType : string) (rs : list string) :
  rs ≠ [] → Forall (λ r, freeOf "," r = true) rs →
  isRiskAccepted riskType (Join rs ",") = true ↔ riskType ∈ rs ∨ riskAll ∈ rs.
Proof.
  intros Hne Hfree. rewrite isRiskAccepted_elem.
  by rewrite (Split_Join rs "," Hne Hfree).
Qed.

(** X24.  [presentRiskToUser] returns nil exactly when the risk is accepted, or,
    outside tests, when the prompt is answered with yes.  An accepted risk
    prints nothing; in a test nothing is printed either; otherwise the
    message, the hint and the prompt are printed in that order. *)
Theorem presentRiskToUser_outcome
        (inTest : bool) (riskType riskMessage acceptedRisks : string)
        (scan : Scanned) :
  let r := presentRiskToUser inTest riskType riskMessage acceptedRisks scan in
  (r.2 = None
   ↔ isRiskAccepted riskType acceptedRisks = true
     ∨ (inTest = false ∧ (promptYesNo "Continue?" scan).2 = true))
  ∧ r.1
    = if isRiskAccepted riskType acceptedRisks || inTest then []
      else [Outln riskMessage;
            Printf "To skip this warning, use --accept-risk=%s\n" [riskType];
            Print "Continue? [y/n] "].
Proof.
  cbv zeta. unfold presentRiskToUser.
  destruct (isRiskAccepted riskType acceptedRisks); simpl; [split; [|done]; tauto|].
  destruct inTest; simpl.
  - split; [|done]. split; [done|]. by intros [?|[? _]].
  - destruct scan as [resp|m]; simpl.
    + destruct (_ || _); simpl; split; try done; split; try done; auto.
      by intros [?|[_ ?]].
    + destruct (String.eqb m _); simpl; split; try done; split; try done; auto.
      by intros [?|[_ ?]].
Qed.

(** X25.  [confirmUpdate]: [--yes] confirms, also together with [--dry-run];
    [--dry-run] alone declines; with neither, the answer decides, and an
    empty line counts as yes.  With either flag the answer is not used. *)
Theorem confirmUpdate_decision
        (updateArgs : UpdateArgs) (short ver : string) (scan : Scanned) :
  (confirmUpdate updateArgs short ver scan).2
  = (yes updateArgs
     || negb (dryRun updateArgs)
        && match scan with
           | ScanErr m => String.eqb m "unexpected newline"
           | ScanOk resp =>
               bool_decide (strs.ToLower resp ∈ ["y"; "yes"; "sure"])
           end).
Proof.
  unfold confirmUpdate. destruct (yes updateArgs); [done|].
  destruct (dryRun updateArgs); [done|]. simpl.
  destruct scan as [resp|m]; simpl; [|done].
  generalize (strs.ToLower resp). intros s.
  destruct (String.eqb s "y") eqn:E1; simpl.
  { apply String.eqb_eq in E1 as ->. done. }
  destruct (String.eqb s "yes") eqn:E2; simpl.
  { apply String.eqb_eq in E2 as ->. done. }
  destruct (String.eqb s "sure") eqn:E3; simpl.
  { apply String.eqb_eq in E3 as ->. done. }
  symmetry. apply bool_decide_eq_false. rewrite !elem_of_cons, elem_of_nil.
  apply String.eqb_neq in E1, E2, E3. tauto.
Qed.

End risks.

(** ** The further properties on the sample connectors *)
Section more_examples.
Import samples.
#[local] Existing Instance reliable.
#[local] Existing Instance wire.ops.

Lemma withAddrs_listsInv (X : Externals) : listsInv (withAddrs X).
Proof.
  split; intros d l H; unfold withAddrs in H; simpl in H;
    apply lookup_singleton_Some in H as [_ <-]; compute_done.
Qed.

Lemma routedOnly_listsInv (X : Externals) : listsInv (routedOnly X).
Proof.
  split; intros d l H; unfold routedOnly in H; simpl in H;
    apply lookup_singleton_Some in H as [_ <-]; constructor.
Qed.

Lemma deleteDomainAddrLocked_removes_one_witness :
  S (length (domainAddrs "a.example.com"
               (deleteDomainAddrLocked "a.example.com" (ip4 10 0 0 2)
                                       (withAddrs reliable))))
  = length (domainAddrs "a.example.com" (withAddrs reliable))
  ∧ ip4 10 0 0 2
      :: domainAddrs "a.example.com"
           (deleteDomainAddrLocked "a.example.com" (ip4 10 0 0 2) (withAddrs reliable))
    ≡ₚ domainAddrs "a.example.com" (withAddrs reliable).
Proof.
  destruct (deleteDomainAddrLocked_removes_one
              (withAddrs reliable) "a.example.com" (ip4 10 0 0 2)
              (proj1 (withAddrs_listsInv reliable))) as [_ H].
  apply H. compute_done.
Defined.

Lemma deleteDomainAddrLocked_then_absent_witness :
  hasDomainAddrLocked "a.example.com" (ip4 10 0 0 2)
    (deleteDomainAddrLocked "a.example.com" (ip4 10 0 0 2) (withAddrs reliable))
  = false
  ∧ ip4 10 0 0 1
      ∈ domainAddrs "a.example.com"
          (deleteDomainAddrLocked "a.example.com" (ip4 10 0 0 2) (withAddrs reliable)).
Proof.
  destruct (deleteDomainAddrLocked_then_absent
              (withAddrs reliable) "a.example.com" (ip4 10 0 0 2)
              (withAddrs_listsInv reliable)) as (Hhas & Hmem & _).
  split; [exact Hhas|]. apply Hmem. split; compute_done.
Defined.

Lemma add_then_delete_restores_list_witness :
  domainAddrs "a.example.com"
    (deleteDomainAddrLocked "a.example.com" (ip4 10 0 0 5)
       (addDomainAddrLocked "a.example.com" (ip4 10 0 0 5) (withAddrs reliable)))
  = [ip4 10 0 0 1; ip4 10 0 0 2; ip4 192 0 2 1].
Proof.
  rewrite (add_then_delete_restores_list
             (withAddrs reliable) "a.example.com" (ip4 10 0 0 5)
             (withAddrs_listsInv reliable)); [|compute_done].
  vm_compute. reflexivity.
Defined.

Lemma advertise_task_records_on_success_witness :
  calls (routeAdvertiser
           (runTask (TaskAdvertise "example.com" [single (ip4 192 0 2 1); net10])
                    (routedOnly reliable)))
  = [CallAdvertiseRoute [single (ip4 192 0 2 1); net10]]
  ∧ ip4 192 0 2 1
      ∈ domainAddrs "example.com"
          (runTask (TaskAdvertise "example.com" [single (ip4 192 0 2 1); net10])
                   (routedOnly reliable)).
Proof.
  destruct (advertise_task_records_on_success
              (Ext := reliable) (routedOnly reliable) "example.com"
              [single (ip4 192 0 2 1); net10] eq_refl) as (Hc & _ & Hd).
  split; [exact Hc|].
  change (advertiseFails _ _) with false in Hd. destruct Hd as [Hd _].
  apply Hd. right. exists (single (ip4 192 0 2 1)).
  split; [compute_done|]. split; vm_compute; reflexivity.
Defined.

Lemma unadvertise_task_forgets_on_success_witness :
  calls (routeAdvertiser
           (runTask (TaskUnadvertise "a.example.com" [single (ip4 10 0 0 1)])
                    (withAddrs reliable)))
  = [CallUnadvertiseRoute [single (ip4 10 0 0 1)]]
  ∧ (ip4 10 0 0 1
       ∉ domainAddrs "a.example.com"
           (runTask (TaskUnadvertise "a.example.com" [single (ip4 10 0 0 1)])
                    (withAddrs reliable))).
Proof.
  destruct (unadvertise_task_forgets_on_success
              (Ext := reliable) (withAddrs reliable) "a.example.com"
              [single (ip4 10 0 0 1)] eq_refl (withAddrs_listsInv reliable))
    as (Hc & _ & Hd).
  split; [exact Hc|].
  change (unadvertiseFails _ _) with false in Hd. destruct Hd as [Hd _].
  intros Hin. apply Hd in Hin as [_ Hn]. apply Hn.
  exists (single (ip4 10 0 0 1)).
  split; [compute_done|]. split; vm_compute; reflexivity.
Defined.

Lemma ObserveDNSResponse_only_extends_witness :
  controlRoutes afterAlias = controlRoutes wildcardOnly
  ∧ wildcards afterAlias = wildcards wildcardOnly
  ∧ inflight afterAlias = inflight wildcardOnly.
Proof.
  destruct (ObserveDNSResponse_only_extends
              (Ext := reliable) 8 1%nat aliasOfTarget wildcardOnly afterAlias)
    as (H1 & H2 & H3 & _); [|by repeat split].
  apply Some_default. vm_compute. reflexivity.
Defined.

Lemma findRoutedDomainLocked_routed_is_registered_witness :
  ∃ e', findRoutedDomainLocked
          3 "target.example.net"
          {[ "target.example.net" := "alias.example.com" ]} wildcardOnly
        = Some ("alias.example.com", true, e')
        ∧ is_Some (domains e' !! "alias.example.com").
Proof.
  assert ((λ r, (r.1.1, r.1.2))
            <$> findRoutedDomainLocked
                  3 "target.example.net"
                  {[ "target.example.net" := "alias.example.com" ]} wildcardOnly
          = Some ("alias.example.com", true)) as Hr
      by (vm_compute; reflexivity).
  destruct (findRoutedDomainLocked _ _ _ _) as [[[d b] e']|] eqn:E; [|done].
  simpl in Hr. injection Hr as -> ->. exists e'. split; [reflexivity|].
  exact (proj1 (findRoutedDomainLocked_routed_is_registered
                  (Ext := reliable) _ _ _ _ _ _ E)).
Defined.

Lemma findRoutedDomainLocked_alias_cycle_never_ends_witness :
  findRoutedDomainLocked 1000 "loop.example.org"
                         {[ "loop.example.org" := "loop.example.org" ]} wildcardOnly
  = None.
Proof.
  apply (findRoutedDomainLocked_alias_cycle_never_ends
           (Ext := reliable) (λ n, n = "loop.example.org")
           {[ "loop.example.org" := "loop.example.org" ]} wildcardOnly);
    [|reflexivity].
  intros n ->. split; [vm_compute; reflexivity|].
  split; [vm_compute; reflexivity|].
  exists "loop.example.org". split; [vm_compute; reflexivity|reflexivity].
Defined.

Lemma ObserveDNSResponse_alias_cycle_never_returns_witness :
  ObserveDNSResponse 1000 1%nat selfAlias wildcardOnly = None.
Proof.
  apply (ObserveDNSResponse_alias_cycle_never_returns
           (Ext := reliable) (λ n, n = "loop.example.org") 8 selfAlias
           {[ "loop.example.org" := "loop.example.org" ]}
           {[ "loop.example.org" := [ip4 192 0 2 9] ]}
           "loop.example.org" wildcardOnly).
  - vm_compute. reflexivity.
  - intros k v [<- <-]%lookup_singleton_Some. split; vm_compute; reflexivity.
  - intros k [v [<- _]%lookup_singleton_Some]. vm_compute. reflexivity.
  - eexists. vm_compute. reflexivity.
  - reflexivity.
  - intros n ->. split; [vm_compute; reflexivity|].
    split; [vm_compute; reflexivity|].
    exists "loop.example.org". split; [vm_compute; reflexivity|reflexivity].
Defined.

Lemma observation_after_routes_skips_covered_witness :
  ∃ new, queue afterRoutes = queue (routedOnly reliable) ++ new
         ∧ ∀ d rs p, TaskAdvertise d rs ∈ new → p ∈ rs →
                     ∃ a, p = single a ∧ ∀ r, r ∈ [net10] → Contains r a = false.
Proof.
  apply (observation_after_routes_skips_covered
           (Ext := reliable) [net10] 8 1%nat twoAnswers (routedOnly reliable)
           afterRoutes).
  - vm_compute. reflexivity.
  - reflexivity.
  - apply routedOnly_listsInv.
  - apply Some_default. vm_compute. reflexivity.
Defined.

Lemma updateDomains_keeps_listed_domain_witness :
  domains (updateDomains ["A.example.com"; "*.example.net"] discovered)
    !! "a.example.com" = Some [ip4 192 0 2 1]
  ∧ Discovered (store (routeAdvertiser
                         (updateDomains ["A.example.com"; "*.example.net"] discovered)))
      !! "a.example.com"
    = Some (Some [(single (ip4 192 0 2 1), 7%nat)]).
Proof.
  apply (updateDomains_keeps_listed_domain
           (Ext := reliable) ["A.example.com"; "*.example.net"] "a.example.com"
           discovered).
  - compute_done.
  - vm_compute. reflexivity.
Defined.

Lemma updateDomains_drops_unlisted_domain_witness :
  domains (updateDomains ["b.example.com"; "*.example.net"] discovered)
    !! "a.example.com" = None
  ∧ Discovered (store (routeAdvertiser
                         (updateDomains ["b.example.com"; "*.example.net"] discovered)))
      !! "a.example.com" = None.
Proof.
  apply (updateDomains_drops_unlisted_domain
           (Ext := reliable) ["b.example.com"; "*.example.net"] "a.example.com"
           discovered).
  - compute_done.
  - compute_done.
  - vm_compute. reflexivity.
Defined.

Lemma ObserveDNSResponse_single_A_record_witness :
  ∃ e' outDated,
    ObserveDNSResponse 2 1%nat singleAnswer routedWithControl = Some e'
    ∧ domains e' = domains routedWithControl
    ∧ queue e' = [TaskAdvertise "example.com" [single (ip4 192 0 2 1)];
                  TaskUnadvertise "example.com" outDated].
Proof.
  edestruct (ObserveDNSResponse_single_A_record
               (Ext := reliable) (DNS := wire.ops) 0 1%nat singleAnswer)
    with (e := routedWithControl) (l := @nil Addr)
    as (e' & out & Ho & Hd & Hq).
  - vm_compute. reflexivity.
  - vm_compute. reflexivity.
  - vm_compute. reflexivity.
  - reflexivity.
  - reflexivity.
  - vm_compute. reflexivity.
  - vm_compute. reflexivity.
  - vm_compute. reflexivity.
  - apply routedWithControl_sorted.
  - vm_compute. reflexivity.
  - right. vm_compute. reflexivity.
  - exists e', out. split; [exact Ho|]. split; [exact Hd|exact Hq].
Defined.

Lemma updateRoutes_repeat_after_success_witness :
  updateRoutes [net10] (updateRoutes [net10] (withAddrs reliable))
  = updateRoutes [net10] (withAddrs reliable)
  ∧ controlRoutes (updateRoutes [net10] (withAddrs reliable)) = [net10].
Proof.
  split; [|vm_compute; reflexivity].
  apply (updateRoutes_repeat_after_success (Ext := reliable) [net10] (withAddrs reliable)).
  - vm_compute. reflexivity.
  - reflexivity.
Defined.

Lemma updateRoutes_retries_after_failure_witness :
  ∃ rest,
    calls (routeAdvertiser
             (updateRoutes [net10] (updateRoutes [net10] (storedRoutes failing))))
    = calls (routeAdvertiser (updateRoutes [net10] (storedRoutes failing)))
      ++ [CallReadRouteInfoFromStore; CallUnadvertiseRoute [net192];
          CallAdvertiseRoute [net10]]
      ++ rest.
Proof.
  exact (updateRoutes_retries_after_failure
           (Ext := failing) [net10] (storedRoutes failing) eq_refl eq_refl).
Defined.

Lemma updateRoutes_unadvertises_stale_first_witness :
  ∃ stale rest,
    calls (routeAdvertiser (updateRoutes [net10] (storedRoutes reliable)))
    = CallReadRouteInfoFromStore :: CallUnadvertiseRoute stale
        :: CallAdvertiseRoute [net10] :: rest
    ∧ stale `sublist_of` [net10; net192]
    ∧ ∀ p, p ∈ stale ↔ p ∈ [net10; net192] ∧ p ∉ [net10].
Proof.
  exact (updateRoutes_unadvertises_stale_first
           (Ext := reliable) [net10] (storedRoutes reliable) eq_refl).
Defined.

Lemma updateRoutes_subsumed_addresses_stay_listed_witness :
  domains (updateRoutes [net10] (withAddrs reliable)) = domains (withAddrs reliable)
  ∧ ∃ toRemove ri,
      calls (routeAdvertiser (updateRoutes [net10] (withAddrs reliable)))
      = callsBeforeAdvertise [net10] (withAddrs reliable)
        ++ [CallAdvertiseRoute [net10]; CallUnadvertiseRoute toRemove;
            CallUpdateRoutesInfoToStore ri]
      ∧ ∀ p, p ∈ toRemove →
             ∃ d l a r,
               domains (updateRoutes [net10] (withAddrs reliable)) !! d = Some l
               ∧ a ∈ l ∧ p = single a
               ∧ r ∈ [net10] ∧ Contains r a = true ∧ p ≠ r.
Proof.
  apply (updateRoutes_subsumed_addresses_stay_listed
           (Ext := reliable) [net10] (withAddrs reliable)).
  - vm_compute. reflexivity.
  - reflexivity.
Defined.

Lemma UpdateDomainsAndRoutes_halves_independent_witness :
  ∃ e', runEvents [EvUpdateDomainsAndRoutes ["*.example.com"] [net10]; EvWorker]
                  discovered = Some e'
        ∧ domains e' = domains (updateDomains ["*.example.com"] discovered)
        ∧ wildcards e' = wildcards (updateDomains ["*.example.com"] discovered)
        ∧ Discovered (store (routeAdvertiser e'))
          = Discovered (store (routeAdvertiser
                                 (updateDomains ["*.example.com"] discovered)))
        ∧ controlRoutes e' = controlRoutes (updateRoutes [net10] discovered)
        ∧ Corp (store (routeAdvertiser e'))
          = Corp (store (routeAdvertiser (updateRoutes [net10] discovered)))
        ∧ queue e' = [] ∧ inflight e' = None.
Proof.
  apply (UpdateDomainsAndRoutes_halves_independent
           (Ext := reliable) (DNS := wire.ops) ["*.example.com"] [net10] discovered);
    reflexivity.
Defined.

Lemma isRiskAccepted_joined_names_witness :
  cli.isRiskAccepted "lose-ssh" "mac-app-connector,lose-ssh" = true
  ↔ "lose-ssh" ∈ ["mac-app-connector"; "lose-ssh"]
    ∨ cli.riskAll ∈ ["mac-app-connector"; "lose-ssh"].
Proof.
  apply (isRiskAccepted_joined_names "lose-ssh" ["mac-app-connector"; "lose-ssh"]).
  - done.
  - repeat constructor.
Defined.

Lemma Domains_after_updateDomains_witness :
  NoDup (Domains (updateDomains ["B.example.com"; "*.example.com"] discovered))
  ∧ "a.example.com"
      ∈ Domains (updateDomains ["B.example.com"; "*.example.com"] discovered)
  ∧ "b.example.com"
      ∈ Domains (updateDomains ["B.example.com"; "*.example.com"] discovered).
Proof.
  destruct (Domains_after_updateDomains
              (Ext := reliable) ["B.example.com"; "*.example.com"] discovered)
    as [Hn Hm]; [compute_done|].
  split; [exact Hn|]. split; apply Hm.
  - right. split; [compute_done|vm_compute; reflexivity].
  - left. compute_done.
Defined.

End more_examples.
